(** * Printshop: the parse / resolve / format pipeline

    A shallow embedding of [src/lib/moxfieldFormatter.ts] (parseCardInput,
    formatForMoxfield, processBatch), of the batch endpoint
    [src/routes/api/cards/batch/+server.ts] (POST, lookupCard) and of the
    page's [batchLookup], then of the single-card endpoint (GET) and of
    the page itself (its session cache and handleProcess), followed by
    the properties the specification states about them and by further
    properties of the code.

    Conventions.
    - A JavaScript string is the list of its UTF-16 code units ([N]).
    - A rejected promise / thrown exception is the [Throw] case of
      [outcome]; [await] is the bind of that monad.
    - The catalog (a D1 / SQLite table) is a list of rows; the two SQL
      statements of [lookupCard] are interpreted over it. *)

From Stdlib Require Import String Ascii.
From Stdlib Require Import List NArith ZArith PeanoNat Lia Bool.
Import ListNotations.

Set Implicit Arguments.

(* ================================================================== *)
(** ** JavaScript strings *)

Module JS.

Definition char := N.
Definition jsstring := list char.

(** String literals of the source, written as Rocq strings. *)
Definition lit (s : string) : jsstring :=
  List.map N_of_ascii (list_ascii_of_string s).

Definition chr (a : ascii) : char := N_of_ascii a.

Definition char_eqb (a b : char) : bool := N.eqb a b.

Fixpoint str_eqb (a b : jsstring) : bool :=
  match a, b with
  | [], [] => true
  | x :: a', y :: b' => char_eqb x y && str_eqb a' b'
  | _, _ => false
  end.

(** Truthiness of a string: [s ? .. : ..], [s || t], [!s]. *)
Definition truthy (s : jsstring) : bool :=
  match s with [] => false | _ :: _ => true end.

(** [a || b] on strings. *)
Definition or_else (a b : jsstring) : jsstring :=
  if truthy a then a else b.

(** ECMAScript WhiteSpace and LineTerminator code units: the class [\s]
    of regular expressions and the characters removed by [trim]. *)
Definition is_space (c : char) : bool :=
  ((9 <=? c) && (c <=? 13) || (c =? 32) || (c =? 160) || (c =? 5760)
   || (8192 <=? c) && (c <=? 8202) || (c =? 8232) || (c =? 8233)
   || (c =? 8239) || (c =? 8287) || (c =? 12288) || (c =? 65279))%N.

(** The class [\d] (no [u] flag): ASCII digits only. *)
Definition is_digit (c : char) : bool := ((48 <=? c) && (c <=? 57))%N.

Fixpoint dropWhile (p : char -> bool) (s : jsstring) : jsstring :=
  match s with
  | [] => []
  | c :: s' => if p c then dropWhile p s' else s
  end.

Fixpoint takeWhile (p : char -> bool) (s : jsstring) : jsstring :=
  match s with
  | [] => []
  | c :: s' => if p c then c :: takeWhile p s' else []
  end.

(** [String.prototype.trim]. *)
Definition trim (s : jsstring) : jsstring :=
  rev (dropWhile is_space (rev (dropWhile is_space s))).

(** [s.split(sep)] for a one-character separator: never empty. *)
Fixpoint split (sep : char) (s : jsstring) : list jsstring :=
  match s with
  | [] => [[]]
  | c :: s' =>
      if char_eqb c sep then [] :: split sep s'
      else match split sep s' with
           | [] => [[c]]
           | h :: t => (c :: h) :: t
           end
  end.

(** [parts.join(sep)]. *)
Fixpoint join (sep : jsstring) (parts : list jsstring) : jsstring :=
  match parts with
  | [] => []
  | [p] => p
  | p :: rest => p ++ sep ++ join sep rest
  end.

(** [s.substring(n)] and [s.substring(0, n)]. *)
Definition substring_from (n : nat) (s : jsstring) : jsstring := skipn n s.
Definition substring_to (n : nat) (s : jsstring) : jsstring := firstn n s.

(** ASCII case mapping.  [lower_ascii] is SQLite's [lower()] on one
    character; [upper_ascii] is what [toUpperCase] does to an ASCII
    letter. *)
Definition lower_ascii (c : char) : char :=
  if ((65 <=? c) && (c <=? 90))%N then (c + 32)%N else c.
Definition upper_ascii (c : char) : char :=
  if ((97 <=? c) && (c <=? 122))%N then (c - 32)%N else c.

(** JavaScript numbers as the parser can produce them: the result of
    [parseInt(digits, 10)] is a non-negative integer or [NaN].

    The embedding is exact up to [MAX_SAFE_INTEGER].  A JavaScript
    number is a double: beyond that bound [parseInt] rounds the value
    of the digits (and gives [Infinity] from about 1.8e308 on), and a
    template literal prints the shortest digits that read back to the
    same double, in exponent form from 1e21 on.  [Int n] with a larger
    [n] does not follow that: where a statement depends on the digits a
    quantity is read from or printed with, it is made for safe
    integers. *)
Inductive number := Int (n : N) | NaN.

(** [Number.MAX_SAFE_INTEGER], 2^53 - 1. *)
Definition MAX_SAFE_INTEGER : N := 9007199254740991.

Definition digit_val (c : char) : N := (c - 48)%N.

Fixpoint parseInt_digits (acc : N) (s : jsstring) : N :=
  match s with
  | [] => acc
  | c :: s' => if is_digit c then parseInt_digits (10 * acc + digit_val c) s'
               else acc
  end.

(** [parseInt(s, 10)] on a string that starts with a digit or with
    something that is neither a sign nor white space (the value of the
    digits, which is what the code computes while that value is a safe
    integer). *)
Definition parseInt10 (s : jsstring) : number :=
  match s with
  | c :: _ => if is_digit c then Int (parseInt_digits 0 s) else NaN
  | [] => NaN
  end.

(** Decimal digits of a positive number, most significant first. *)
Fixpoint digits_pos (fuel : nat) (n : N) (acc : jsstring) : jsstring :=
  match fuel with
  | O => acc
  | S f =>
      let acc' := (48 + n mod 10)%N :: acc in
      if (n <? 10)%N then acc' else digits_pos f (n / 10)%N acc'
  end.

(** The string a template literal produces for a number (all its
    digits, which is what the code prints for a safe integer). *)
Definition numberToString (q : number) : jsstring :=
  match q with
  | Int n => digits_pos (S (N.to_nat (N.log2 n))) n []
  | NaN => lit "NaN"
  end.

End JS.
Import JS.

(* ================================================================== *)
(** ** Regular expressions

    The four patterns of [parseCardInput] use single-character classes,
    greedy [+], [*] and [?] on such classes, the anchors [^] and [$] and
    one capture group.  [exec] is a backtracking matcher for exactly
    that fragment: alternatives are tried in ECMAScript's order (longest
    repetition first) and the continuation [k] decides whether the rest
    of the pattern accepts. *)

Module Regex.

Inductive node :=
| Cls (p : char -> bool)      (* one character of a class *)
| Plus (p : char -> bool)     (* class+ *)
| Star (p : char -> bool)     (* class* *)
| Opt (p : char -> bool)      (* class? *)
| Bos                         (* ^ *)
| Eos                         (* $ *)
| GroupOpen                   (* ( *)
| GroupClose.                 (* ) *)

Definition regex := list node.

(** Matcher state: the unread input, its index in the subject, the
    input at the last [(] and the text of capture group 1. *)
Record state := mkState {
  rest : jsstring;
  pos : nat;
  opened : jsstring;
  group1 : option jsstring
}.

Definition advance (st : state) (s' : jsstring) : state :=
  mkState s' (S (pos st)) (opened st) (group1 st).

Definition orElse {R} (a b : option R) : option R :=
  match a with Some r => Some r | None => b end.

Section Exec.
Context {R : Type}.

(** Greedy repetition of a class: consume while possible, give back
    one character at a time when the continuation fails. *)
Fixpoint star (p : char -> bool) (k : state -> option R)
         (s : jsstring) (st : state) {struct s} : option R :=
  match s with
  | c :: s' =>
      if p c
      then orElse (star p k s' (advance st s')) (k st)
      else k st
  | [] => k st
  end.

Fixpoint exec (re : regex) (k : state -> option R) (st : state)
  {struct re} : option R :=
  match re with
  | [] => k st
  | Cls p :: re' =>
      match rest st with
      | c :: s' => if p c then exec re' k (advance st s') else None
      | [] => None
      end
  | Plus p :: re' =>
      match rest st with
      | c :: s' =>
          if p c then star p (exec re' k) s' (advance st s') else None
      | [] => None
      end
  | Star p :: re' => star p (exec re' k) (rest st) st
  | Opt p :: re' =>
      match rest st with
      | c :: s' =>
          if p c then orElse (exec re' k (advance st s')) (exec re' k st)
          else exec re' k st
      | [] => exec re' k st
      end
  | Bos :: re' =>
      match pos st with O => exec re' k st | S _ => None end
  | Eos :: re' =>
      match rest st with [] => exec re' k st | _ :: _ => None end
  | GroupOpen :: re' =>
      exec re' k (mkState (rest st) (pos st) (rest st) (group1 st))
  | GroupClose :: re' =>
      exec re' k
        (mkState (rest st) (pos st) (opened st)
           (Some (firstn (length (opened st) - length (rest st))
                    (opened st))))
  end.
End Exec.

(** What [String.prototype.match] reports for a pattern without the [g]
    flag: the index of the match, the matched text and group 1. *)
Record match_result := mkMatch {
  index : nat;
  matched : jsstring;
  group : jsstring
}.

Definition match_at (re : regex) (s : jsstring) (i : nat)
  : option match_result :=
  exec re
    (fun st => Some (mkMatch i (firstn (pos st - i) s)
                       (match group1 st with Some g => g | None => [] end)))
    (mkState s i s None).

(** Leftmost match: start positions are tried from left to right, the
    end of the subject included. *)
Fixpoint search_from (re : regex) (s : jsstring) (i : nat)
  : option match_result :=
  match match_at re s i with
  | Some m => Some m
  | None =>
      match s with
      | [] => None
      | _ :: s' => search_from re s' (S i)
      end
  end.

End Regex.
Import Regex.

(** [s.match(re)] for a pattern without the [g] flag. *)
Definition str_match (re : regex) (s : jsstring) : option match_result :=
  search_from re s 0.

(** [s.replace(re, by)] for a pattern without the [g] flag: only the
    leftmost match is replaced. *)
Definition replace_first (re : regex) (by_ : jsstring) (s : jsstring)
  : jsstring :=
  match str_match re s with
  | Some m =>
      firstn (index m) s ++ by_ ++ skipn (index m + length (matched m)) s
  | None => s
  end.

(** [s.replace(re, by)] for a pattern with the [g] flag whose matches are
    never empty: [skip] counts the characters of the current match that
    are still to be passed over. *)
Fixpoint replace_all_from (re : regex) (by_ : jsstring) (skip : nat)
         (s : jsstring) {struct s} : jsstring :=
  match skip with
  | S n =>
      match s with
      | [] => []
      | _ :: s' => replace_all_from re by_ n s'
      end
  | O =>
      match s with
      | [] => []
      | c :: s' =>
          match match_at re s 0 with
          | Some m =>
              by_ ++ replace_all_from re by_ (length (matched m) - 1) s'
          | None => c :: replace_all_from re by_ 0 s'
          end
      end
  end.

Definition replace_all (re : regex) (by_ : jsstring) (s : jsstring)
  : jsstring :=
  replace_all_from re by_ 0 s.

(* ================================================================== *)
(** ** The data of the two modules

    One module per interface, so that fields keep their source names. *)

(** [ParsedInputCard] (the server calls it [BatchRequestCard]). *)
Module ParsedInputCard.
Record t := mk {
  name : jsstring;
  quantity : number;
  foilStatus : jsstring;
  tags : jsstring
}.
End ParsedInputCard.

(** [Card]: one row of the [cards] table. *)
Module Card.
Record t := mk {
  id : jsstring;
  name : jsstring;
  set_code : jsstring;
  set_name : jsstring;
  collector_number : jsstring;
  released_at : option jsstring;
  finishes : jsstring
}.
End Card.

(** [BatchResultCard]: [{ ...result, foilStatus }]. *)
Module BatchResultCard.
Record t := mk {
  row : Card.t;
  foilStatus : jsstring
}.
Definition name (c : t) := Card.name (row c).
Definition set_code (c : t) := Card.set_code (row c).
Definition collector_number (c : t) := Card.collector_number (row c).
End BatchResultCard.

(** [CardLookupResult]. *)
Module CardLookupResult.
Record t := mk {
  found : bool;
  card : option BatchResultCard.t
}.
End CardLookupResult.

(** One element of the [results] array of the batch endpoint. *)
Module BatchResult.
Record t := mk {
  found : bool;
  originalCard : ParsedInputCard.t;
  result : option BatchResultCard.t
}.
End BatchResult.

(** One element of [failed]. *)
Module Failure.
Record t := mk {
  name : jsstring;
  reason : jsstring
}.
End Failure.

(* ================================================================== *)
(** ** Exceptions and rejected promises *)

(** A thrown value: an [Error] instance with its [message], or any
    other value (a string, or an object that is no [Error], whether or
    not it has a [message] property of its own). *)
Inductive thrown :=
| ErrorInstance (message : jsstring)
| NonError (value : jsstring).

Inductive outcome (A : Type) :=
| Return (a : A)
| Throw (err : thrown).
Arguments Return {A} a.
Arguments Throw {A} err.

Definition bind {A B} (m : outcome A) (f : A -> outcome B) : outcome B :=
  match m with
  | Return a => f a
  | Throw err => Throw err
  end.

(** [try { body } catch (err) { handler }]. *)
Definition try_catch {A} (body : outcome A) (handler : thrown -> A) : A :=
  match body with
  | Return a => a
  | Throw err => handler err
  end.

Declare Scope outcome_scope.
Delimit Scope outcome_scope with outcome.
Notation "'await' x <- m ;; k" := (bind m (fun x => k))
  (at level 61, x name, m at next level, right associativity)
  : outcome_scope.
Open Scope outcome_scope.

(* ================================================================== *)
(** ** src/lib/moxfieldFormatter.ts: parseCardInput *)

Definition is_chr (a : ascii) (c : char) : bool := char_eqb c (chr a).
Definition is_not (p : char -> bool) (c : char) : bool := negb (p c).

(** [x] and [[FE]] under the [i] flag. *)
Definition is_x (c : char) : bool := is_chr "x" c || is_chr "X" c.
Definition is_FE (c : char) : bool :=
  is_chr "F" c || is_chr "E" c || is_chr "f" c || is_chr "e" c.

(** [/^(\d+)x?\s+/i] *)
Definition quantityRe : regex :=
  [Bos; GroupOpen; Plus is_digit; GroupClose; Opt is_x; Plus is_space].

(** [/\s+\*([FE])\*\s*$/i] *)
Definition foilRe : regex :=
  [Plus is_space; Cls (is_chr "*"); GroupOpen; Cls is_FE; GroupClose;
   Cls (is_chr "*"); Star is_space; Eos].

(** [/\s+\([^)]+\)\s+[^\s]+\s*$/i] *)
Definition setRe : regex :=
  [Plus is_space; Cls (is_chr "("); Plus (is_not (is_chr ")"));
   Cls (is_chr ")"); Plus is_space; Plus (is_not is_space);
   Star is_space; Eos].

(** [/\s+\/\s+/g] *)
Definition slashRe : regex :=
  [Plus is_space; Cls (is_chr "/"); Plus is_space].

(** [toUpperCase] on capture group 1 of [foilRe], a single ASCII
    letter. *)
Definition toUpperCase_ascii (s : jsstring) : jsstring :=
  List.map upper_ascii s.

(** The steps of the loop body, in the order of the source. *)

(** [const [lineWithoutTags, ...tagParts] = line.split('#')] and
    [tags = tagParts.map((tag) => '#' + tag.trim()).join(' ')]. *)
Definition extractTags (line : jsstring) : jsstring * jsstring :=
  let parts := split (chr "#") line in
  let lineWithoutTags := hd [] parts in
  let tagParts := tl parts in
  (lineWithoutTags,
   join (lit " ") (List.map (fun tag => chr "#" :: trim tag) tagParts)).

(** "Try to extract quantity from the beginning". *)
Definition extractQuantity (remaining : jsstring) : number * jsstring :=
  match str_match quantityRe remaining with
  | Some quantityMatch =>
      (parseInt10 (group quantityMatch),
       trim (substring_from (length (matched quantityMatch)) remaining))
  | None => (Int 1, remaining)
  end.

(** "Try to extract foil status from the end". *)
Definition extractFoil (remaining : jsstring) : jsstring * jsstring :=
  match str_match foilRe remaining with
  | Some foilMatch =>
      (toUpperCase_ascii (group foilMatch),
       trim (substring_to (index foilMatch) remaining))
  | None => ([], remaining)
  end.

(** "Remove (SET) CODE pattern if present". *)
Definition stripSetCode (remaining : jsstring) : jsstring :=
  trim (replace_first setRe [] remaining).

(** "Convert single slash to double slash for dual-faced cards". *)
Definition normalizeSlash (remaining : jsstring) : jsstring :=
  replace_all slashRe (lit " // ") remaining.

(** One iteration of the [for] loop: [None] is the [continue]. *)
Definition parseLine (line : jsstring) : option ParsedInputCard.t :=
  let '(lineWithoutTags, tags) := extractTags line in
  let remaining := trim lineWithoutTags in
  let '(quantity, remaining) := extractQuantity remaining in
  let '(foilStatus, remaining) := extractFoil remaining in
  let remaining := stripSetCode remaining in
  let cardName := normalizeSlash remaining in
  if truthy cardName
  then Some (ParsedInputCard.mk cardName quantity foilStatus tags)
  else None.

(** [input.split('\n').map(trim).filter(nonempty)]. *)
Definition inputLines (input : jsstring) : list jsstring :=
  filter (fun line => Nat.ltb 0 (length line))
    (List.map trim (split 10%N input)).

Definition parseCardInput (input : jsstring) : list ParsedInputCard.t :=
  fold_left
    (fun cards line =>
       match parseLine line with
       | Some card => cards ++ [card]
       | None => cards
       end)
    (inputLines input) [].

(* ================================================================== *)
(** ** src/lib/moxfieldFormatter.ts: formatForMoxfield, processBatch *)

Section Formatter.

(** [String.prototype.toUpperCase], applied to the set code of a
    catalog row. *)
Variable toUpperCase : jsstring -> jsstring.

Definition formatForMoxfield (dbResult : CardLookupResult.t)
           (originalInput : ParsedInputCard.t) : jsstring :=
  match CardLookupResult.found dbResult, CardLookupResult.card dbResult with
  | true, Some card =>
      let setCode := toUpperCase (BatchResultCard.set_code card) in
      let foilStatus :=
        or_else (ParsedInputCard.foilStatus originalInput)
                (or_else (BatchResultCard.foilStatus card) []) in
      let finishSuffix :=
        if truthy foilStatus then lit " *" ++ foilStatus ++ lit "*"
        else [] in
      let tagsSuffix :=
        if truthy (ParsedInputCard.tags originalInput)
        then lit " " ++ ParsedInputCard.tags originalInput
        else [] in
      numberToString (ParsedInputCard.quantity originalInput)
        ++ lit " " ++ BatchResultCard.name card
        ++ lit " (" ++ setCode ++ lit ") "
        ++ BatchResultCard.collector_number card
        ++ finishSuffix ++ tagsSuffix
  | _, _ => []
  end.

(** The two accumulators of [processBatch]. *)
Record Processed := mkProcessed {
  success : list jsstring;
  failed : list Failure.t
}.

(** Body of [for (const result of results.results)]. *)
Definition processResult (acc : Processed) (result : BatchResult.t)
  : Processed :=
  match BatchResult.found result, BatchResult.result result with
  | true, Some card =>
      let formatted :=
        formatForMoxfield (CardLookupResult.mk true (Some card))
                          (BatchResult.originalCard result) in
      if truthy formatted
      then mkProcessed (success acc ++ [formatted]) (failed acc)
      else acc
  | _, _ =>
      mkProcessed (success acc)
        (failed acc ++
           [Failure.mk
              (ParsedInputCard.name (BatchResult.originalCard result))
              (lit "Card not found in database")])
  end.

(** [err instanceof Error ? err.message : 'Unknown error']. *)
Definition errorReason (err : thrown) : jsstring :=
  match err with
  | ErrorInstance message => message
  | NonError _ => lit "Unknown error"
  end.

(** Body of the [catch] block's loop. *)
Definition processFailure (err : thrown) (acc : Processed)
           (card : ParsedInputCard.t) : Processed :=
  mkProcessed (success acc)
    (failed acc ++ [Failure.mk (ParsedInputCard.name card)
                               (errorReason err)]).

(** [processBatch]: the only statement of the [try] block that can
    throw on well-typed results is the [await], so the [catch] block
    starts from the empty accumulators. *)
Definition processBatch (parsedCards : list ParsedInputCard.t)
           (batchLookupFn :
              list ParsedInputCard.t -> outcome (list BatchResult.t))
  : Processed :=
  let start := mkProcessed [] [] in
  try_catch
    (await results <- batchLookupFn parsedCards ;;
     Return (fold_left processResult results start))
    (fun err => fold_left (processFailure err) parsedCards start).

End Formatter.

(* ================================================================== *)
(** ** The catalog: SQLite semantics of the two statements *)

Module SQL.

(** [lower(X)]: ASCII letters only. *)
Definition lower (s : jsstring) : jsstring := List.map lower_ascii s.

(** A TEXT value is stored in UTF-8 and its characters are code
    points: the two code units of a surrogate pair are one character
    of four bytes. *)
Definition is_high_surrogate (c : char) : bool :=
  ((55296 <=? c) && (c <=? 56319))%N.
Definition is_low_surrogate (c : char) : bool :=
  ((56320 <=? c) && (c <=? 57343))%N.

(** The text after its first character. *)
Definition skip_character (s : jsstring) : jsstring :=
  match s with
  | [] => []
  | c :: s' =>
      match s' with
      | d :: s'' =>
          if is_high_surrogate c && is_low_surrogate d then s'' else s'
      | [] => []
      end
  end.

(** [subject LIKE pattern]: [%] matches any run of characters, [_] any
    single character, other characters match themselves up to ASCII
    case. *)
Fixpoint like (pattern subject : jsstring) {struct pattern} : bool :=
  match pattern with
  | [] => match subject with [] => true | _ :: _ => false end
  | p :: pattern' =>
      if char_eqb p (chr "%") then
        (fix any (s : jsstring) : bool :=
           like pattern' s
           || match s with [] => false | _ :: s' => any s' end) subject
      else if char_eqb p (chr "_") then
        match subject with
        | [] => false
        | _ :: _ => like pattern' (skip_character subject)
        end
      else
        match subject with
        | [] => false
        | c :: subject' =>
            char_eqb (lower_ascii p) (lower_ascii c)
            && like pattern' subject'
        end
  end.

(** The code points of a string; a surrogate that is not part of a
    pair is written as U+FFFD. *)
Definition scalar (c : char) : N :=
  if is_high_surrogate c || is_low_surrogate c then 65533%N else c.

Fixpoint code_points (s : jsstring) : list N :=
  match s with
  | [] => []
  | c :: s' =>
      match s' with
      | d :: s'' =>
          if is_high_surrogate c && is_low_surrogate d
          then (65536 + (c - 55296) * 1024 + (d - 56320))%N
               :: code_points s''
          else scalar c :: code_points s'
      | [] => [scalar c]
      end
  end.

(** The UTF-8 bytes of a code point and of a string. *)
Definition utf8_of_point (p : N) : list N :=
  (if p <? 128 then [p]
   else if p <? 2048 then [192 + p / 64; 128 + p mod 64]
   else if p <? 65536
        then [224 + p / 4096; 128 + (p / 64) mod 64; 128 + p mod 64]
        else [240 + p / 262144; 128 + (p / 4096) mod 64;
              128 + (p / 64) mod 64; 128 + p mod 64])%N.

Definition utf8 (s : jsstring) : list N :=
  flat_map utf8_of_point (code_points s).

(** [memcmp], then the shorter text first. *)
Fixpoint bytes_compare (a b : list N) : comparison :=
  match a, b with
  | [], [] => Eq
  | [], _ :: _ => Lt
  | _ :: _, [] => Gt
  | x :: a', y :: b' =>
      match N.compare x y with
      | Eq => bytes_compare a' b'
      | c => c
      end
  end.

(** Comparison of two TEXT values under the BINARY collation: their
    bytes are compared. *)
Definition text_compare (a b : jsstring) : comparison :=
  bytes_compare (utf8 a) (utf8 b).

(** Comparison of two nullable TEXT values: NULL is the smallest. *)
Definition nullable_compare (a b : option jsstring) : comparison :=
  match a, b with
  | None, None => Eq
  | None, Some _ => Lt
  | Some _, None => Gt
  | Some x, Some y => text_compare x y
  end.

Definition is_sql_space (c : char) : bool :=
  ((9 <=? c) && (c <=? 13) || (c =? 32))%N.

Definition INT64_MAX : Z := 9223372036854775807.
Definition INT64_MIN : Z := -9223372036854775808.

(** [CAST(X AS INTEGER)] of a TEXT value: leading blanks are skipped,
    the longest prefix that reads as an integer is converted (0 when
    there is none) and the result is clamped to 64 bits. *)
Definition cast_integer (s : jsstring) : Z :=
  let s1 := dropWhile is_sql_space s in
  let '(negative, s2) :=
    match s1 with
    | c :: r =>
        if char_eqb c (chr "-") then (true, r)
        else if char_eqb c (chr "+") then (false, r)
        else (false, s1)
    | [] => (false, [])
    end in
  let magnitude := Z.of_N (parseInt_digits 0 (takeWhile is_digit s2)) in
  let value := if negative then Z.opp magnitude else magnitude in
  Z.max INT64_MIN (Z.min INT64_MAX value).

(** [(released_at IS NULL)] as the integer SQLite sorts on. *)
Definition is_null (v : option jsstring) : Z :=
  match v with None => 1 | Some _ => 0 end.

End SQL.

Inductive sortOrder := oldest | newest.

(** The two WHERE clauses of [lookupCard]. *)
Inductive whereClause :=
| NameEquals   (* WHERE lower(name) = lower(?) *)
| NameLike.    (* WHERE lower(name) LIKE lower(?) *)

(** A prepared statement with its bound parameter:
    [SELECT .. FROM cards <where> <orderClause> LIMIT 1]. *)
Record statement := mkStatement {
  where_ : whereClause;
  orderClause : sortOrder;
  bound : jsstring
}.

(** The [D1Database] binding, as [lookupCard] uses it:
    [db.prepare(sql).bind(v).first()] resolves to a row or [null], or
    rejects. *)
Definition D1Database := statement -> outcome (option Card.t).

Module Catalog.

(** (Names are compared code unit by code unit, which for well-formed
    strings is the comparison of their UTF-8 texts.) *)
Definition where_matches (st : statement) (row : Card.t) : bool :=
  match where_ st with
  | NameEquals =>
      str_eqb (SQL.lower (Card.name row)) (SQL.lower (bound st))
  | NameLike =>
      SQL.like (SQL.lower (bound st)) (SQL.lower (Card.name row))
  end.

(** ASC keeps a comparison, DESC reverses it. *)
Definition direction (o : sortOrder) (c : comparison) : comparison :=
  match o with oldest => c | newest => CompOpp c end.

Definition then_by (c : comparison) (next : comparison) : comparison :=
  match c with Eq => next | _ => c end.

(** [ORDER BY (released_at IS NULL) ASC, released_at <dir>,
    CAST(collector_number AS INTEGER) <dir>]. *)
Definition order_compare (o : sortOrder) (a b : Card.t) : comparison :=
  then_by
    (Z.compare (SQL.is_null (Card.released_at a))
               (SQL.is_null (Card.released_at b)))
    (then_by
       (direction o (SQL.nullable_compare (Card.released_at a)
                                          (Card.released_at b)))
       (direction o (Z.compare
                       (SQL.cast_integer (Card.collector_number a))
                       (SQL.cast_integer (Card.collector_number b))))).

Definition precedes (o : sortOrder) (a b : Card.t) : bool :=
  match order_compare o a b with Gt => false | _ => true end.

Fixpoint insert (o : sortOrder) (a : Card.t) (sorted : list Card.t)
  : list Card.t :=
  match sorted with
  | [] => [a]
  | b :: rest =>
      if precedes o a b then a :: sorted else b :: insert o a rest
  end.

(** ORDER BY as a stable sort: rows that tie on the three keys keep
    their table order (SQLite leaves their order open). *)
Fixpoint order_by (o : sortOrder) (rows : list Card.t) : list Card.t :=
  match rows with
  | [] => []
  | a :: rest => insert o a (order_by o rest)
  end.

Definition select (st : statement) (rows : list Card.t) : list Card.t :=
  firstn 1 (order_by (orderClause st) (filter (where_matches st) rows)).

(** A database that holds [rows] and answers every statement. *)
Definition database (rows : list Card.t) : D1Database :=
  fun st => Return (hd_error (select st rows)).

End Catalog.

(* ================================================================== *)
(** ** src/routes/api/cards/batch/+server.ts *)

(** Values [JSON.parse] returns. *)
#[warnings="-register-all"]
Inductive json :=
| JNull
| JBool (b : bool)
| JNumber (literal : jsstring)
| JString (s : jsstring)
| JArray (items : list json)
| JObject (members : list (jsstring * json)).

Fixpoint starts_with (needle s : jsstring) : bool :=
  match needle, s with
  | [], _ => true
  | _ :: _, [] => false
  | x :: needle', c :: s' => char_eqb x c && starts_with needle' s'
  end.

(** [String.prototype.includes]. *)
Fixpoint string_includes (needle s : jsstring) : bool :=
  starts_with needle s
  || match s with [] => false | _ :: s' => string_includes needle s' end.

Definition json_is_string (needle : jsstring) (v : json) : bool :=
  match v with JString s => str_eqb s needle | _ => false end.

(** [finishes.includes(needle)] on a parsed value: arrays and strings
    have the method, on anything else the call is a [TypeError]. *)
Definition includes (finishes : json) (needle : jsstring) : outcome bool :=
  match finishes with
  | JArray items => Return (existsb (json_is_string needle) items)
  | JString s => Return (string_includes needle s)
  | _ => Throw (ErrorInstance (lit "finishes.includes is not a function"))
  end.

(** What [request.json()] gives the handler: a rejection when the body
    is not JSON, the value [null], or another value.  Of that value the
    handler reads [cards], here [None] unless it is an array (whose
    elements are request objects), and [sortOrder], here [None] when it
    is missing or falsy and [Some oldest] for every other value than
    ['newest'], which [lookupCard] orders alike. *)
Inductive requestBody :=
| NotJson
| JsonNull
| JsonValue (cards : option (list ParsedInputCard.t))
            (requested : option sortOrder).

(** The outcome of the handler: the JSON it returns, the HTTP error it
    raises with [httpError], or an exception it does not catch (which
    SvelteKit answers with status 500). *)
Inductive response :=
| Json (results : list BatchResult.t)
| HttpError (status : nat) (message : jsstring)
| Uncaught (err : thrown).

Section Server.

(** [JSON.parse]: a value, or a thrown [SyntaxError]. *)
Variable JSON_parse : jsstring -> outcome json.

(** "Parse finishes JSON to determine foil status": the inner
    [try]/[catch] leaves [foilStatus] at [''] when anything throws. *)
Definition detectFoilStatus (finishesColumn : jsstring) : jsstring :=
  try_catch
    (await finishes <- JSON_parse (or_else finishesColumn (lit "[]")) ;;
     await hasFoil <- includes finishes (lit "foil") ;;
     if (hasFoil : bool) then Return (lit "F")
     else
       await hasEtched <- includes finishes (lit "etched") ;;
       if (hasEtched : bool) then Return (lit "E") else Return [])
    (fun _ => []).

Definition notFound (inputCard : ParsedInputCard.t) : BatchResult.t :=
  BatchResult.mk false inputCard None.

(** [cardName.split(/[\s,/]/)[0] || cardName]. *)
Definition is_word_end (c : char) : bool :=
  is_space c || is_chr "," c || is_chr "/" c.
Definition firstWord (cardName : jsstring) : jsstring :=
  or_else (takeWhile (is_not is_word_end) cardName) cardName.

Definition lookupCard (inputCard : ParsedInputCard.t) (db : D1Database)
           (sortOrder : sortOrder) : BatchResult.t :=
  try_catch
    (let cardName := trim (ParsedInputCard.name inputCard) in
     if negb (truthy cardName) then Return (notFound inputCard)
     else
       await result <- db (mkStatement NameEquals sortOrder cardName) ;;
       await result <-
         match result with
         | Some row => Return (Some row)
         | None =>
             db (mkStatement NameLike sortOrder
                   (lit "%" ++ firstWord cardName ++ lit "%"))
         end ;;
       match result with
       | None => Return (notFound inputCard)
       | Some row =>
           Return (BatchResult.mk true inputCard
                     (Some (BatchResultCard.mk row
                              (detectFoilStatus (Card.finishes row)))))
       end)
    (fun _ => notFound inputCard).

Definition batchSize : nat := 50.

(** [cards.slice(i, j)]. *)
Definition slice {A} (i j : nat) (l : list A) : list A :=
  firstn (j - i) (skipn i l).

(** The loop [for (let i = 0; i < cards.length; i += batchSize)];
    [Promise.all] over a sub-batch is the [map], since [lookupCard]
    never rejects.  At most [length cards] iterations run. *)
Fixpoint POST_loop (fuel : nat) (db : D1Database) (order : sortOrder)
         (cards : list ParsedInputCard.t) (i : nat)
         (results : list BatchResult.t) : list BatchResult.t :=
  match fuel with
  | O => results
  | S fuel' =>
      if Nat.ltb i (length cards)
      then
        let batch := slice i (i + batchSize) cards in
        let batchResults :=
          List.map (fun card => lookupCard card db order) batch in
        POST_loop fuel' db order cards (i + batchSize)
                  (results ++ batchResults)
      else results
  end.

(** The request handler: [env] is [platform.env.MTG_CARDS_DB], [body]
    what [request.json()] gives.  Only the [await request.json()] is
    inside the [try]: [body.sortOrder] is read after it, and on [null]
    that is a [TypeError] nothing catches. *)
Definition POST (env : option D1Database) (body : requestBody)
  : response :=
  match env with
  | None => HttpError 500 (lit "D1 database not configured")
  | Some db =>
      match body with
      | NotJson => HttpError 400 (lit "Invalid JSON body")
      | JsonNull =>
          Uncaught
            (ErrorInstance
               (lit "Cannot read properties of null (reading 'sortOrder')"))
      | JsonValue bodyCards requestedOrder =>
          let order :=
            match requestedOrder with Some o => o | None => oldest end in
          match bodyCards with
          | None => HttpError 400 (lit "Missing or empty cards array")
          | Some cards =>
              if Nat.eqb (length cards) 0
              then HttpError 400 (lit "Missing or empty cards array")
              else Json (POST_loop (length cards) db order cards 0 [])
          end
      end
  end.

(** The page's [batchLookup]: one POST of all cards; a response that
    is not [ok] is turned into a thrown [Error].  (The page's session
    cache sits in front of this call.) *)
Definition batchLookup (env : option D1Database) (order : sortOrder)
           (cards : list ParsedInputCard.t)
  : outcome (list BatchResult.t) :=
  match POST env (JsonValue (Some cards) (Some order)) with
  | Json results => Return results
  | HttpError _ _ | Uncaught _ =>
      Throw (ErrorInstance (lit "Failed to lookup cards"))
  end.

End Server.

(** [processBatch(parsedCards, batchLookup)] as the page calls it. *)
Definition resolve (toUpperCase : jsstring -> jsstring)
           (JSON_parse : jsstring -> outcome json)
           (env : option D1Database) (order : sortOrder)
           (parsedCards : list ParsedInputCard.t) : Processed :=
  processBatch toUpperCase parsedCards (batchLookup JSON_parse env order).

(* ================================================================== *)
(** ** Concrete instances used by the examples *)

Module Examples.

Definition is_json_space (c : char) : bool :=
  ((c =? 32) || (c =? 9) || (c =? 10) || (c =? 13))%N.

(** Elements of an array after its first one: [, "text"]* []]. *)
Fixpoint string_items (fuel : nat) (s : jsstring) (acc : list json)
  : option (list json) :=
  match fuel with
  | O => None
  | S fuel' =>
      match dropWhile is_json_space s with
      | c :: s1 =>
          if is_chr "]" c then
            match dropWhile is_json_space s1 with
            | [] => Some (rev acc)
            | _ :: _ => None
            end
          else if is_chr "," c then
            match dropWhile is_json_space s1 with
            | q :: s2 =>
                if char_eqb q 34%N then
                  let body := takeWhile (fun x => negb (char_eqb x 34%N)) s2 in
                  if existsb (fun x => is_chr "\" x || (x <? 32)%N) body
                  then None
                  else
                    match skipn (length body) s2 with
                    | _ :: s3 => string_items fuel' s3 (JString body :: acc)
                    | [] => None
                    end
                else None
            | [] => None
            end
          else None
      | [] => None
      end
  end.

(** [JSON.parse] on the texts a [finishes] column holds in the
    examples: an array of strings written without escapes.  Any other
    text is reported as a syntax error here; the theorems are stated
    for an arbitrary [JSON_parse] and do not depend on this one. *)
Definition JSON_parse_string_array (s : jsstring) : outcome json :=
  let syntaxError := Throw (ErrorInstance (lit "Unexpected token")) in
  match dropWhile is_json_space s with
  | c :: s1 =>
      if is_chr "[" c then
        match dropWhile is_json_space s1 with
        | d :: s2 =>
            if is_chr "]" d then
              match dropWhile is_json_space s2 with
              | [] => Return (JArray [])
              | _ :: _ => syntaxError
              end
            else
              match string_items (S (length s)) (chr "," :: d :: s2) [] with
              | Some items => Return (JArray items)
              | None => syntaxError
              end
        | [] => syntaxError
        end
      else syntaxError
  | [] => syntaxError
  end.

(** The JSON text of an array of strings. *)
Definition json_array (items : list string) : jsstring :=
  lit "[" ++ join (lit ",") (List.map (fun s => 34%N :: lit s ++ [34%N]) items)
      ++ lit "]".

Definition card (name set_code collector_number : string)
           (released_at : option string) (finishes : list string)
  : Card.t :=
  Card.mk (lit name) (lit name) (lit set_code)
          (lit "") (lit collector_number)
          (option_map lit released_at) (json_array finishes).

Definition island_lea : Card.t :=
  card "Island" "lea" "288" (Some "1993-08-05"%string) ["nonfoil"%string].
Definition island_m12 : Card.t :=
  card "Island" "m12" "234" (Some "2011-07-15"%string)
       ["nonfoil"; "foil"]%string.
Definition island_undated : Card.t :=
  card "Island" "und" "1" None ["nonfoil"%string].
Definition island_sanctuary : Card.t :=
  card "Island Sanctuary" "lea" "25" (Some "1993-08-05"%string) [].
Definition forest_blank : Card.t :=
  card "Forest" "m21" "" (Some "2020-07-03"%string) ["nonfoil"%string].
Definition forest_cave : Card.t :=
  card "Forest Cave" "znr" "9" (Some "2020-09-25"%string)
       ["nonfoil"%string].

Definition islands : list Card.t :=
  [island_m12; island_undated; island_lea; island_sanctuary].

Definition foil_island_request : ParsedInputCard.t :=
  ParsedInputCard.mk (lit "Island") (Int 2) (lit "F") (lit "#Land").
Definition forest_request : ParsedInputCard.t :=
  ParsedInputCard.mk (lit "Forest") (Int 1) [] [].

(** A database whose every statement rejects. *)
Definition broken_database : D1Database :=
  fun _ => Throw (ErrorInstance (lit "D1_ERROR: no such table: cards")).


Definition island_request : ParsedInputCard.t :=
  ParsedInputCard.mk (lit "Island") (Int 1) [] [].
Definition storm_request : ParsedInputCard.t :=
  ParsedInputCard.mk (lit "Storm") (Int 1) [] [].

(** A lookup capability over [islands] that rejects every call that
    asks for [Storm]. *)
Definition stormy_lookup (cards : list ParsedInputCard.t)
  : outcome (list BatchResult.t) :=
  if existsb (fun card => str_eqb (ParsedInputCard.name card) (lit "Storm"))
             cards
  then Throw (ErrorInstance (lit "Storm is not available"))
  else batchLookup JSON_parse_string_array (Some (Catalog.database islands))
                   oldest cards.

End Examples.


(* ================================================================== *)
(** ** Vocabulary of the statements *)

(** Where a request ends up: a rendered line in [success] or a record
    in [failed]. *)
Inductive entry :=
| Succeeded (line : jsstring)
| Failed (failure : Failure.t).

Definition succeeded_lines (entries : list entry) : list jsstring :=
  flat_map (fun e => match e with Succeeded l => [l] | Failed _ => [] end)
           entries.

Definition failed_records (entries : list entry) : list Failure.t :=
  flat_map (fun e => match e with Succeeded _ => [] | Failed f => [f] end)
           entries.

(** The entry one lookup result contributes. *)
Definition entry_of (toUpperCase : jsstring -> jsstring)
           (result : BatchResult.t) : entry :=
  match BatchResult.found result, BatchResult.result result with
  | true, Some card =>
      Succeeded (formatForMoxfield toUpperCase
                   (CardLookupResult.mk true (Some card))
                   (BatchResult.originalCard result))
  | _, _ =>
      Failed (Failure.mk
                (ParsedInputCard.name (BatchResult.originalCard result))
                (lit "Card not found in database"))
  end.

(** An entry answers a request: a line rendered from that request, or a
    failure record that carries its name. *)
Definition corresponds (toUpperCase : jsstring -> jsstring)
           (request : ParsedInputCard.t) (e : entry) : Prop :=
  match e with
  | Succeeded line =>
      exists card,
        line = formatForMoxfield toUpperCase
                 (CardLookupResult.mk true (Some card)) request
  | Failed failure => Failure.name failure = ParsedInputCard.name request
  end.

(** A line that is nothing but a quantity: digits, optionally followed
    by [x] or [X]. *)
Definition quantity_only (line : jsstring) : Prop :=
  exists digits suffix,
    digits <> [] /\ forallb is_digit digits = true /\
    (suffix = [] \/ suffix = lit "x" \/ suffix = lit "X") /\
    line = digits ++ suffix.

(** A body that starts with a quantity prefix: digits, an optional [x],
    then white space. *)
Definition has_quantity_prefix (body : jsstring) : Prop :=
  exists digits x blank rest,
    digits <> [] /\ forallb is_digit digits = true /\
    (x = [] \/ x = lit "x" \/ x = lit "X") /\
    is_space blank = true /\
    body = digits ++ x ++ blank :: rest.

(** The matcher state after the longest run of [p] has been read. *)
Definition after_run (p : char -> bool) (st : state) : state :=
  mkState (dropWhile p (rest st))
          (pos st + length (takeWhile p (rest st)))
          (opened st) (group1 st).

(** A continuation that fails whenever the next character is in [p]. *)
Definition rejects {R} (p : char -> bool) (k : state -> option R) : Prop :=
  forall st c s', rest st = c :: s' -> p c = true -> k st = None.

(** What [quantityRe] finds at the start of [s], written with runs: the
    digits and the length of the whole match. *)
Definition opt_x (s : jsstring) : jsstring * jsstring :=
  match s with
  | c :: r => if is_x c then ([c], r) else ([], s)
  | [] => ([], [])
  end.

Definition quantity_prefix (s : jsstring) : option (jsstring * nat) :=
  let digits := takeWhile is_digit s in
  let '(x, r) := opt_x (dropWhile is_digit s) in
  let blanks := takeWhile is_space r in
  match digits, blanks with
  | _ :: _, _ :: _ => Some (digits, length digits + length x + length blanks)
  | _, _ => None
  end.

(** The rows a lookup chooses from: the exact matches of the name when
    there are any, otherwise the rows whose name contains its first
    word. *)
Definition candidates (order : sortOrder) (rows : list Card.t)
           (cardName : jsstring) : list Card.t :=
  match filter (Catalog.where_matches
                  (mkStatement NameEquals order cardName)) rows with
  | [] =>
      filter (Catalog.where_matches
                (mkStatement NameLike order
                   (lit "%" ++ firstWord cardName ++ lit "%"))) rows
  | exact => exact
  end.

(** A quantity in the range where the embedding of numbers is
    exact. *)
Definition safe_quantity (q : number) : Prop :=
  match q with
  | Int n => (n <= MAX_SAFE_INTEGER)%N
  | NaN => True
  end.

(** A collector number that is nothing but digits. *)
Definition purely_numeric (s : jsstring) : Prop :=
  s <> [] /\ forallb is_digit s = true.



(** A three-way comparison that orders its arguments totally, up to the
    ties it reports as [Eq]. *)
Record total_order {A} (cmp : A -> A -> comparison) : Prop := {
  cmp_opp : forall a b, cmp b a = CompOpp (cmp a b);
  cmp_lt_trans : forall a b c, cmp a b = Lt -> cmp b c = Lt -> cmp a c = Lt;
  cmp_eq_l : forall a b c, cmp a b = Eq -> cmp a c = cmp b c
}.

(** The matcher without backtracking: every repetition takes its
    longest run and an optional character is taken when it is there. *)
Fixpoint dexec (re : regex) (st : state) {struct re} : option state :=
  match re with
  | [] => Some st
  | Cls p :: re' =>
      match rest st with
      | c :: s' => if p c then dexec re' (advance st s') else None
      | [] => None
      end
  | Plus p :: re' =>
      match rest st with
      | c :: _ => if p c then dexec re' (after_run p st) else None
      | [] => None
      end
  | Star p :: re' => dexec re' (after_run p st)
  | Opt p :: re' =>
      match rest st with
      | c :: s' => if p c then dexec re' (advance st s') else dexec re' st
      | [] => dexec re' st
      end
  | Bos :: re' =>
      match pos st with O => dexec re' st | S _ => None end
  | Eos :: re' =>
      match rest st with [] => dexec re' st | _ :: _ => None end
  | GroupOpen :: re' =>
      dexec re' (mkState (rest st) (pos st) (rest st) (group1 st))
  | GroupClose :: re' =>
      dexec re'
        (mkState (rest st) (pos st) (opened st)
           (Some (firstn (length (opened st) - length (rest st))
                    (opened st))))
  end.

(** [re] cannot start by reading a character of [p]. *)
Fixpoint first_rejects (p : char -> bool) (re : regex) : Prop :=
  match re with
  | [] => False
  | Cls q :: _ | Plus q :: _ => forall c, p c = true -> q c = false
  | Star q :: re' | Opt q :: re' =>
      (forall c, p c = true -> q c = false) /\ first_rejects p re'
  | Eos :: _ => True
  | Bos :: re' | GroupOpen :: re' | GroupClose :: re' => first_rejects p re'
  end.

(** Every repetition of [re] is followed by something that cannot
    start inside the repeated class, or ends the pattern. *)
Fixpoint unambiguous (re : regex) : Prop :=
  match re with
  | [] => True
  | Plus p :: re' | Star p :: re' | Opt p :: re' =>
      (re' = [] \/ first_rejects p re') /\ unambiguous re'
  | _ :: re' => unambiguous re'
  end.

(** A text with at most one word: blanks, a run of other characters,
    blanks. *)
Definition one_word (s : jsstring) : Prop :=
  dropWhile is_space
    (dropWhile (is_not is_space) (dropWhile is_space s)) = [].

(** A text that starts, respectively ends, with a character that is not
    white space. *)
Definition starts_tight (s : jsstring) : Prop :=
  match s with c :: _ => is_space c = false | [] => False end.
Definition ends_tight (s : jsstring) : Prop := starts_tight (rev s).

(** A collector number that reads as a finish marker. *)
Definition is_finish_marker (s : jsstring) : bool :=
  match s with
  | [a; c; b] => is_chr "*" a && is_FE c && is_chr "*" b
  | _ => false
  end.

(** Every opening parenthesis is closed later in the text. *)
Fixpoint parens_closed (s : jsstring) : bool :=
  match s with
  | [] => true
  | c :: s' =>
      (if is_chr "(" c then existsb (is_chr ")") s' else true)
      && parens_closed s'
  end.

(** Neither the tag delimiter nor a line break. *)
Definition plain (c : char) : bool :=
  negb (is_chr "#" c) && negb (char_eqb c 10%N).

(** A catalog row whose fields survive being written into a line and
    read back: the name is trimmed, not empty, in the two-slash form and
    closes its parentheses; the upper-cased set code is not empty and
    has no closing parenthesis; the collector number is one word that is
    not a finish marker; none of them holds [#] or a line break. *)
Definition printable_row (toUpperCase : jsstring -> jsstring)
           (row : Card.t) : bool :=
  let name := Card.name row in
  let setCode := toUpperCase (Card.set_code row) in
  let number := Card.collector_number row in
  str_eqb (trim name) name && truthy name && forallb plain name
  && parens_closed name && str_eqb (normalizeSlash name) name
  && truthy setCode
  && forallb (fun c => plain c && is_not (is_chr ")") c) setCode
  && truthy number
  && forallb (fun c => plain c && is_not is_space c) number
  && negb (is_finish_marker number).

(** The text [formatForMoxfield] puts after the name. *)
Definition set_group (setCode number : jsstring) : jsstring :=
  32%N :: 40%N :: setCode ++ 41%N :: 32%N :: number.

(** [tagParts.map((tag) => '#' + tag.trim()).join(' ')]. *)
Definition tags_of_parts (tagParts : list jsstring) : jsstring :=
  join (lit " ") (List.map (fun tag => chr "#" :: trim tag) tagParts).

(** The two optional suffixes of a rendered line. *)
Definition finishSuffix (foilStatus : jsstring) : jsstring :=
  if truthy foilStatus then lit " *" ++ foilStatus ++ lit "*" else [].
Definition tagsSuffix (tags : jsstring) : jsstring :=
  if truthy tags then lit " " ++ tags else [].

(** A rendered line, grouped the way the parser takes it apart. *)
Definition rendered (n : N) (name setCode number finish tags : jsstring)
  : jsstring :=
  (numberToString (Int n)
     ++ 32%N :: (name ++ set_group setCode number) ++ finishSuffix finish)
    ++ tagsSuffix tags.

(** The text of the tags after their first [#]. *)
Fixpoint tags_tail (tagParts : list jsstring) : jsstring :=
  match tagParts with
  | [] => []
  | [tag] => trim tag
  | tag :: rest => trim tag ++ 32%N :: 35%N :: tags_tail rest
  end.

(** A text without the tag delimiter. *)
Definition no_hash (s : jsstring) : Prop :=
  forallb (fun c => negb (char_eqb c (chr "#"))) s = true.

(** A text without line break. *)
Definition no_newline (s : jsstring) : Prop :=
  forallb (fun c => negb (char_eqb c 10%N)) s = true.

Unset Implicit Arguments.

(* ================================================================== *)
(** * The rest of the repository

    The single-card endpoint [src/routes/api/cards/+server.ts] and the
    two versions of the page [src/routes/+page.svelte]: the one with
    the session cache and the one without. *)

(* ================================================================== *)
(** ** src/routes/api/cards/+server.ts: GET *)

(** What the handler answers: [json(body, { status })] or
    [error(status, message)]. *)
Inductive cardResponse :=
| CardJson (status : nat) (body : CardLookupResult.t)
| CardError (status : nat) (message : jsstring).

Section CardEndpoint.

Variable JSON_parse : jsstring -> outcome json.

(** The request handler: [nameParam] is
    [url.searchParams.get('name')], a string or [null]; [env] is
    [platform.env.MTG_CARDS_DB].  Both statements use the ORDER BY
    clause that [lookupCard] builds for ['oldest'], and the fallback
    binds the whole name between two [%]. *)
Definition GET (nameParam : option jsstring) (env : option D1Database)
  : cardResponse :=
  let name :=
    trim (match nameParam with Some v => or_else v [] | None => [] end) in
  if negb (truthy name)
  then CardError 400 (lit "Missing required query parameter: name")
  else
    match env with
    | None => CardError 500 (lit "D1 database not configured")
    | Some db =>
        try_catch
          (await result <- db (mkStatement NameEquals oldest name) ;;
           await result <-
             match result with
             | Some row => Return (Some row)
             | None =>
                 db (mkStatement NameLike oldest
                       (lit "%" ++ name ++ lit "%"))
             end ;;
           match result with
           | None =>
               Return (CardJson 404 (CardLookupResult.mk false None))
           | Some row =>
               Return (CardJson 200
                         (CardLookupResult.mk true
                            (Some (BatchResultCard.mk row
                                     (detectFoilStatus JSON_parse
                                        (Card.finishes row))))))
           end)
          (fun _ => CardError 500 (lit "Failed to query card database"))
    end.

End CardEndpoint.

(* ================================================================== *)
(** ** src/routes/+page.svelte: the session cache

    The component's variables are the fields of a record that every
    function takes and returns.  A [Map] with string keys is the list of
    its entries in insertion order. *)

Module JSMap.
Section Entries.
Context {V : Type}.

Definition t := list (jsstring * V).

(** [map.get(key)]: [None] is [undefined]. *)
Fixpoint get (key : jsstring) (map : t) : option V :=
  match map with
  | [] => None
  | (k, v) :: rest => if str_eqb k key then Some v else get key rest
  end.

(** [map.set(key, value)]: an existing entry keeps its place. *)
Fixpoint set (key : jsstring) (value : V) (map : t) : t :=
  match map with
  | [] => [(key, value)]
  | (k, v) :: rest =>
      if str_eqb k key then (k, value) :: rest
      else (k, v) :: set key value rest
  end.

Definition size (map : t) : nat := length map.

End Entries.
Arguments t : clear implicits.
End JSMap.

Module Page.

(** [{ found, result }]: what the cache keeps of a lookup result. *)
Record cached := mkCached {
  found : bool;
  result : option BatchResultCard.t
}.

(** [cardCache], [cacheHits] and [cacheMisses]. *)
Record session := mkSession {
  cardCache : JSMap.t cached;
  cacheHits : nat;
  cacheMisses : nat
}.

(** The locals of [batchLookup] that its first loop fills.
    [cardIndexMap] is set for the indices 0, 1, ... in turn, so it is
    the list of its values. *)
Record locals := mkLocals {
  cachedResults : list BatchResult.t;
  uncachedCards : list ParsedInputCard.t;
  cardIndexMap : list Z
}.

(** The value of [sortOrder] inside a template literal. *)
Definition sortOrderName (sortOrder : sortOrder) : jsstring :=
  match sortOrder with
  | oldest => lit "oldest"
  | newest => lit "newest"
  end.

Section Lookup.

(** [String.prototype.toLowerCase], applied to a requested name. *)
Variable toLowerCase : jsstring -> jsstring.
Variable JSON_parse : jsstring -> outcome json.

(** The endpoint behind [fetch('/api/cards/batch')]: its database
    binding. *)
Variable env : option D1Database.

(** [`${card.name.toLowerCase()}_${sortOrder}`]. *)
Definition cacheKey (card : ParsedInputCard.t) (sortOrder : sortOrder)
  : jsstring :=
  toLowerCase (ParsedInputCard.name card) ++ lit "_"
    ++ sortOrderName sortOrder.

(** Body of [cards.forEach((card, index) => ...)], "Check cache
    first". *)
Definition checkCache (sortOrder : sortOrder) (st : session * locals)
           (card : ParsedInputCard.t) : session * locals :=
  let '(s, l) := st in
  match JSMap.get (cacheKey card sortOrder) (cardCache s) with
  | Some cached =>
      let cachedResults' :=
        cachedResults l
          ++ [BatchResult.mk (found cached) card (result cached)] in
      (mkSession (cardCache s) (S (cacheHits s)) (cacheMisses s),
       mkLocals cachedResults' (uncachedCards l)
                (cardIndexMap l
                   ++ [(Z.of_nat (length cachedResults') - 1)%Z]))
  | None =>
      (mkSession (cardCache s) (cacheHits s) (S (cacheMisses s)),
       mkLocals (cachedResults l) (uncachedCards l ++ [card])
                (cardIndexMap l
                   ++ [(- Z.of_nat (length (uncachedCards l)) - 1)%Z]))
  end.

(** [data.results.forEach((result, idx) => ...)], "Cache the results":
    [uncachedCards[idx]] is [undefined] beyond the end of the array and
    reading its [name] throws a [TypeError], after the entries before
    it have been stored. *)
Fixpoint cacheResults (sortOrder : sortOrder)
         (uncachedCards : list ParsedInputCard.t) (idx : nat)
         (results : list BatchResult.t) (cache : JSMap.t cached)
  : JSMap.t cached * option thrown :=
  match results with
  | [] => (cache, None)
  | r :: rest =>
      match nth_error uncachedCards idx with
      | Some card =>
          cacheResults sortOrder uncachedCards (S idx) rest
            (JSMap.set (cacheKey card sortOrder)
               (mkCached (BatchResult.found r) (BatchResult.result r))
               cache)
      | None =>
          (cache,
           Some (ErrorInstance
                   (lit "Cannot read properties of undefined (reading 'name')")))
      end
  end.

(** "Merge cached and fresh results in original order": an element
    read beyond the end of an array is [undefined], here [None]. *)
Fixpoint mergeResults (cardIndexMap : list Z)
         (cachedResults fresh : list BatchResult.t) (uncachedIdx : nat)
  : list (option BatchResult.t) :=
  match cardIndexMap with
  | [] => []
  | mapValue :: rest =>
      if (0 <=? mapValue)%Z
      then nth_error cachedResults (Z.to_nat mapValue)
             :: mergeResults rest cachedResults fresh uncachedIdx
      else nth_error fresh uncachedIdx
             :: mergeResults rest cachedResults fresh (S uncachedIdx)
  end.

(** [batchLookup], for the value [sortOrder] has during the call.  The
    request is made only when some card is not in the cache; a response
    that is not [ok] becomes a thrown [Error]. *)
Definition batchLookup (sortOrder : sortOrder) (s : session)
           (cards : list ParsedInputCard.t)
  : session * outcome (list (option BatchResult.t)) :=
  let '(s1, l) :=
    fold_left (checkCache sortOrder) cards (s, mkLocals [] [] []) in
  if Nat.ltb 0 (length (uncachedCards l))
  then
    match POST JSON_parse env
            (JsonValue (Some (uncachedCards l)) (Some sortOrder)) with
    | HttpError _ _ | Uncaught _ =>
        (s1, Throw (ErrorInstance (lit "Failed to lookup cards")))
    | Json results =>
        match cacheResults sortOrder (uncachedCards l) 0 results
                (cardCache s1) with
        | (cache, Some err) =>
            (mkSession cache (cacheHits s1) (cacheMisses s1), Throw err)
        | (cache, None) =>
            (mkSession cache (cacheHits s1) (cacheMisses s1),
             Return (mergeResults (cardIndexMap l) (cachedResults l)
                       results 0))
        end
    end
  else (s1, Return (List.map Some (cachedResults l))).

(** [clearCache]. *)
Definition clearCache (s : session) : session := mkSession [] 0 0.

End Lookup.

(** [inputFile[0]]: its [name] and what [text()] resolves to. *)
Record file := mkFile {
  fileName : jsstring;
  fileText : outcome jsstring
}.

(** The variables of the component.  [inputFile] is [None] when no
    file list is bound or the list is empty. *)
Record component := mkComponent {
  inputText : jsstring;
  inputFile : option file;
  isProcessing : bool;
  processingStatus : jsstring;
  successCards : list jsstring;
  failedCards : list Failure.t;
  hasRun : bool;
  sortOrder_ : sortOrder;
  cache : session;
  lastProcessedInput : jsstring;
  lastProcessedFile : jsstring
}.

Definition getInputHash (c : component) : jsstring :=
  match inputFile c with
  | Some f => fileName f
  | None => inputText c
  end.

(** [currentInput !== lastProcessedInput || currentInput !==
    lastProcessedFile]. *)
Definition hasInputChanged (c : component) : bool :=
  let currentInput := getInputHash c in
  negb (str_eqb currentInput (lastProcessedInput c))
  || negb (str_eqb currentInput (lastProcessedFile c)).

(** The component when [handleProcess] returns after it has reset the
    lists: [isProcessing] is [false] again, [processingStatus] is
    [''] and [hasRun] is [true]. *)
Definition settled (c : component) (success : list jsstring)
           (failed : list Failure.t) (cache' : session)
           (lastInput lastFile : jsstring) : component :=
  mkComponent (inputText c) (inputFile c) false [] success failed true
              (sortOrder_ c) cache' lastInput lastFile.

Section Process.

Variable toUpperCase : jsstring -> jsstring.
Variable toLowerCase : jsstring -> jsstring.
Variable JSON_parse : jsstring -> outcome json.
Variable env : option D1Database.

(** The loop of [processBatch] over an array that may hold
    [undefined]: reading [result.found] of [undefined] throws a
    [TypeError] once the results before it have been pushed. *)
Fixpoint processResults (acc : Processed)
         (results : list (option BatchResult.t))
  : Processed * option thrown :=
  match results with
  | [] => (acc, None)
  | Some r :: rest => processResults (processResult toUpperCase acc r) rest
  | None :: _ =>
      (acc,
       Some (ErrorInstance
               (lit "Cannot read properties of undefined (reading 'found')")))
  end.

(** [processBatch(parsedCards, batchLookup)] for what the page's
    [batchLookup] did: the [catch] block goes on with the arrays the
    [try] block has filled. *)
Definition processLookup (parsedCards : list ParsedInputCard.t)
           (lookup : outcome (list (option BatchResult.t))) : Processed :=
  let start := mkProcessed [] [] in
  match lookup with
  | Return results =>
      match processResults start results with
      | (acc, None) => acc
      | (acc, Some err) => fold_left (processFailure err) parsedCards acc
      end
  | Throw err => fold_left (processFailure err) parsedCards start
  end.

(** [handleProcess], from the component before the call to the
    component after it.  [processingStatus] holds the text
    ['Looking up ...'] only while the lookup is awaited. *)
Definition handleProcess (c : component) : component :=
  if hasRun c && negb (hasInputChanged c)
  then
    mkComponent (inputText c) (inputFile c) (isProcessing c)
      (processingStatus c) (successCards c)
      [Failure.mk (lit "Input")
         (lit "No changes detected. Modify your card input or select a different file to process.")]
      (hasRun c) (sortOrder_ c) (cache c)
      (lastProcessedInput c) (lastProcessedFile c)
  else
    let unchanged failed :=
      settled c [] failed (cache c)
              (lastProcessedInput c) (lastProcessedFile c) in
    match
      match inputFile c with
      | Some f => fileText f
      | None => Return (inputText c)
      end
    with
    | Throw err =>
        unchanged [Failure.mk (lit "Processing") (errorReason err)]
    | Return text =>
        if negb (truthy (trim text))
        then unchanged [Failure.mk (lit "Input")
                          (lit "No card list provided")]
        else
          let parsedCards := parseCardInput text in
          if Nat.eqb (length parsedCards) 0
          then unchanged [Failure.mk (lit "Input")
                            (lit "No valid cards found in input")]
          else
            let '(cache', lookup) :=
              batchLookup toLowerCase JSON_parse env (sortOrder_ c)
                          (cache c) parsedCards in
            let results := processLookup parsedCards lookup in
            settled c (success results) (failed results) cache'
                    (inputText c)
                    (match inputFile c with
                     | Some f => fileName f
                     | None => []
                     end)
    end.

End Process.
End Page.

(* ================================================================== *)
(** ** src/routes/+page.svelte, the version without cache

    This version posts the cards without [sortOrder], keeps no cache
    and processes its input at every call. *)

Module FirstPage.

Record component := mkComponent {
  inputText : jsstring;
  inputFile : option Page.file;
  isProcessing : bool;
  processingStatus : jsstring;
  successCards : list jsstring;
  failedCards : list Failure.t;
  hasRun : bool
}.

Definition settled (c : component) (success : list jsstring)
           (failed : list Failure.t) : component :=
  mkComponent (inputText c) (inputFile c) false [] success failed true.

Section Process.

Variable toUpperCase : jsstring -> jsstring.
Variable JSON_parse : jsstring -> outcome json.
Variable env : option D1Database.

(** [batchLookup]: the body of the request is [{ cards }]. *)
Definition batchLookup (cards : list ParsedInputCard.t)
  : outcome (list BatchResult.t) :=
  match POST JSON_parse env (JsonValue (Some cards) None) with
  | Json results => Return results
  | HttpError _ _ | Uncaught _ =>
      Throw (ErrorInstance (lit "Failed to lookup cards"))
  end.

Definition handleProcess (c : component) : component :=
  match
    match inputFile c with
    | Some f => Page.fileText f
    | None => Return (inputText c)
    end
  with
  | Throw err =>
      settled c [] [Failure.mk (lit "Processing") (errorReason err)]
  | Return text =>
      if negb (truthy (trim text))
      then settled c [] [Failure.mk (lit "Input")
                           (lit "No card list provided")]
      else
        let parsedCards := parseCardInput text in
        if Nat.eqb (length parsedCards) 0
        then settled c [] [Failure.mk (lit "Input")
                             (lit "No valid cards found in input")]
        else
          let results := processBatch toUpperCase parsedCards batchLookup in
          settled c (success results) (failed results)
  end.

End Process.
End FirstPage.

(* ================================================================== *)
(** ** Vocabulary of the further statements *)

(** A text that is not empty and has no white space at either end. *)
Definition tight (s : jsstring) : Prop := starts_tight s /\ ends_tight s.

(** A text without the wildcards of LIKE. *)
Definition no_wildcard (s : jsstring) : bool :=
  forallb (fun c => negb (is_chr "%" c) && negb (is_chr "_" c)) s.

(** A cache entry that holds what the endpoint answers for a card. *)
Definition answers (JSON_parse : jsstring -> outcome json) (db : D1Database)
           (order : sortOrder) (card : ParsedInputCard.t)
           (v : Page.cached) : Prop :=
  Page.found v = BatchResult.found (lookupCard JSON_parse card db order)
  /\ Page.result v = BatchResult.result (lookupCard JSON_parse card db order).

(** A text of ASCII characters only, and a card with such a name. *)
Definition is_ascii (s : jsstring) : bool := forallb (fun c => c <? 128)%N s.
Definition ascii_name (card : ParsedInputCard.t) : Prop :=
  is_ascii (ParsedInputCard.name card) = true.

(** A cache in which every card with an ASCII name finds, under its
    key, nothing or what the endpoint answers for it. *)
Definition coherent (toLowerCase : jsstring -> jsstring)
           (JSON_parse : jsstring -> outcome json) (db : D1Database)
           (cache : JSMap.t Page.cached) : Prop :=
  forall card order v,
    ascii_name card ->
    JSMap.get (Page.cacheKey toLowerCase card order) cache = Some v ->
    answers JSON_parse db order card v.

(** The text [handleProcess] works on: the text area, or what reading
    the selected file gives. *)
Definition reading (c : Page.component) : outcome jsstring :=
  match Page.inputFile c with
  | Some f => Page.fileText f
  | None => Return (Page.inputText c)
  end.

(** Some closing parenthesis of the text is followed by white space. *)
Fixpoint closes_before_blank (s : jsstring) : bool :=
  match s with
  | c :: s' =>
      (is_chr ")" c
       && match s' with d :: _ => is_space d | [] => false end)
      || closes_before_blank s'
  | [] => false
  end.

(** A card name written on a line of its own comes out unchanged: it
    is tight, holds no [#], line break or asterisk, and none of its
    closing parentheses is followed by white space. *)
Definition simple_name (name : jsstring) : Prop :=
  tight name /\ forallb plain name = true
  /\ forallb (is_not (is_chr "*")) name = true
  /\ closes_before_blank name = false.

Set Implicit Arguments.

(* ================================================================== *)
(** ** Basic facts *)

Lemma truthy_app_cons (a b : jsstring) (c : char) :
  truthy (a ++ c :: b) = true.
Proof. destruct a; reflexivity. Qed.

Lemma truthy_nonempty (s : jsstring) : truthy s = true <-> s <> [].
Proof. destruct s; simpl; split; congruence. Qed.

Lemma or_else_nil_r (s : jsstring) : or_else s [] = s.
Proof. destruct s; reflexivity. Qed.

Lemma fold_left_snoc {A B} (f : A -> B) (l : list A) (acc : list B) :
  fold_left (fun acc x => acc ++ [f x]) l acc = acc ++ List.map f l.
Proof.
  revert acc; induction l as [|x l IH]; intros acc; simpl.
  - now rewrite app_nil_r.
  - rewrite IH, <- app_assoc. reflexivity.
Qed.

Section FormatterFacts.

Variable toUpperCase : jsstring -> jsstring.

Lemma formatForMoxfield_truthy card originalInput :
  truthy (formatForMoxfield toUpperCase
            (CardLookupResult.mk true (Some card)) originalInput) = true.
Proof.
  unfold formatForMoxfield.
  cbn [CardLookupResult.found CardLookupResult.card].
  change (lit " ") with [32%N].
  cbn [app]. apply truthy_app_cons.
Qed.

Lemma formatForMoxfield_found card originalInput :
  formatForMoxfield toUpperCase (CardLookupResult.mk true (Some card))
                    originalInput
  = numberToString (ParsedInputCard.quantity originalInput)
      ++ lit " " ++ Card.name (BatchResultCard.row card)
      ++ lit " (" ++ toUpperCase (Card.set_code (BatchResultCard.row card))
      ++ lit ") " ++ Card.collector_number (BatchResultCard.row card)
      ++ (let finish :=
            if truthy (ParsedInputCard.foilStatus originalInput)
            then ParsedInputCard.foilStatus originalInput
            else BatchResultCard.foilStatus card in
          if truthy finish then lit " *" ++ finish ++ lit "*" else [])
      ++ (if truthy (ParsedInputCard.tags originalInput)
          then lit " " ++ ParsedInputCard.tags originalInput else []).
Proof.
  unfold formatForMoxfield.
  cbn [CardLookupResult.found CardLookupResult.card].
  unfold BatchResultCard.name, BatchResultCard.set_code,
         BatchResultCard.collector_number.
  rewrite or_else_nil_r. unfold or_else.
  reflexivity.
Qed.

Lemma processResult_entry acc result :
  processResult toUpperCase acc result =
  mkProcessed
    (success acc ++ succeeded_lines [entry_of toUpperCase result])
    (failed acc ++ failed_records [entry_of toUpperCase result]).
Proof.
  unfold processResult, entry_of.
  destruct (BatchResult.found result); [destruct (BatchResult.result result)|];
    cbn [succeeded_lines failed_records flat_map app].
  - rewrite formatForMoxfield_truthy, !app_nil_r. reflexivity.
  - rewrite app_nil_r. reflexivity.
  - rewrite app_nil_r. reflexivity.
Qed.

Lemma fold_processResult results acc :
  fold_left (processResult toUpperCase) results acc =
  mkProcessed
    (success acc
       ++ succeeded_lines (List.map (entry_of toUpperCase) results))
    (failed acc
       ++ failed_records (List.map (entry_of toUpperCase) results)).
Proof.
  revert acc; induction results as [|r results IH]; intros acc.
  - simpl. rewrite !app_nil_r. now destruct acc.
  - cbn [fold_left]. rewrite IH, processResult_entry.
    cbn [success failed List.map succeeded_lines failed_records flat_map].
    rewrite !app_nil_r, <- !app_assoc. reflexivity.
Qed.

Lemma fold_processFailure err parsedCards acc :
  fold_left (processFailure err) parsedCards acc =
  mkProcessed (success acc)
    (failed acc
       ++ List.map (fun card =>
                      Failure.mk (ParsedInputCard.name card)
                                 (errorReason err)) parsedCards).
Proof.
  revert acc; induction parsedCards as [|c l IH]; intros acc.
  - simpl. rewrite app_nil_r. now destruct acc.
  - cbn [fold_left]. rewrite IH. unfold processFailure.
    cbn [success failed List.map]. rewrite <- app_assoc. reflexivity.
Qed.

Lemma entries_count (entries : list entry) :
  length (succeeded_lines entries) + length (failed_records entries)
  = length entries.
Proof.
  induction entries as [|[l|f] es IH]; simpl; lia.
Qed.

Lemma entry_of_corresponds result :
  corresponds toUpperCase (BatchResult.originalCard result)
              (entry_of toUpperCase result).
Proof.
  unfold entry_of.
  destruct (BatchResult.found result);
    [destruct (BatchResult.result result) as [card|]|]; simpl; eauto.
Qed.

End FormatterFacts.

(* ================================================================== *)
(** ** The matcher on runs of a class

    In the four patterns every repetition is followed by something that
    cannot start with a character of the repeated class (or by nothing
    at all), so a repetition always ends up taking its longest run. *)

Section RegexFacts.

Context {R : Type}.

Lemma takeWhile_dropWhile p (s : jsstring) :
  takeWhile p s ++ dropWhile p s = s.
Proof.
  induction s as [|c s IH]; simpl; [reflexivity|].
  destruct (p c); simpl; [now rewrite IH | reflexivity].
Qed.

Lemma after_run_advance p st c s' :
  rest st = c :: s' -> p c = true ->
  after_run p (advance st s') = after_run p st.
Proof.
  intros Hr Hp. unfold after_run, advance. cbn [rest pos opened group1].
  rewrite Hr. cbn [takeWhile dropWhile]. rewrite Hp. cbn [length].
  f_equal. lia.
Qed.

Lemma after_run_stop p st :
  match rest st with [] => True | c :: _ => p c = false end ->
  after_run p st = st.
Proof.
  destruct st as [s i o g]. unfold after_run. cbn [rest pos opened group1].
  destruct s as [|c s]; cbn [takeWhile dropWhile].
  - intros _. cbn [length]. f_equal. lia.
  - intros ->. cbn [length]. f_equal. lia.
Qed.

Lemma star_longest p (k : state -> option R) :
  rejects p k ->
  forall s st, rest st = s -> star p k s st = k (after_run p st).
Proof.
  intros Hk. induction s as [|c s' IH]; intros st Hs; simpl.
  - rewrite after_run_stop; [reflexivity | now rewrite Hs].
  - destruct (p c) eqn:Hp.
    + rewrite (Hk st c s' Hs Hp).
      rewrite IH by reflexivity.
      rewrite (after_run_advance p st Hs Hp).
      now destruct (k (after_run p st)).
    + rewrite after_run_stop; [reflexivity | now rewrite Hs].
Qed.

Lemma star_first p (k : state -> option R) r :
  forall s st, rest st = s ->
    k (after_run p st) = Some r -> star p k s st = Some r.
Proof.
  induction s as [|c s' IH]; intros st Hs Hk; simpl.
  - rewrite after_run_stop in Hk; [assumption | now rewrite Hs].
  - destruct (p c) eqn:Hp.
    + rewrite (IH (advance st s')); [reflexivity | reflexivity |].
      now rewrite (after_run_advance p st Hs Hp).
    + rewrite after_run_stop in Hk; [assumption | now rewrite Hs].
Qed.

Lemma exec_Star p re (k : state -> option R) st :
  rejects p (exec re k) ->
  exec (Star p :: re) k st = exec re k (after_run p st).
Proof. intros H. simpl. now apply star_longest. Qed.

Lemma exec_Plus p re (k : state -> option R) st :
  rejects p (exec re k) ->
  exec (Plus p :: re) k st =
  match rest st with
  | c :: _ => if p c then exec re k (after_run p st) else None
  | [] => None
  end.
Proof.
  intros H. simpl. destruct (rest st) as [|c s'] eqn:Hs; [reflexivity|].
  destruct (p c) eqn:Hp; [|reflexivity].
  rewrite star_longest by (assumption || reflexivity).
  now rewrite (after_run_advance p st Hs Hp).
Qed.

Lemma exec_Plus_last p (k : state -> option R) st :
  (forall st', k st' <> None) ->
  exec [Plus p] k st =
  match rest st with
  | c :: _ => if p c then k (after_run p st) else None
  | [] => None
  end.
Proof.
  intros H. simpl. destruct (rest st) as [|c s'] eqn:Hs; [reflexivity|].
  destruct (p c) eqn:Hp; [|reflexivity].
  destruct (k (after_run p st)) as [r|] eqn:Hk; [|now apply H in Hk].
  apply star_first; [reflexivity|].
  now rewrite (after_run_advance p st Hs Hp).
Qed.

Lemma exec_Opt p re (k : state -> option R) st :
  rejects p (exec re k) ->
  exec (Opt p :: re) k st =
  match rest st with
  | c :: s' => if p c then exec re k (advance st s') else exec re k st
  | [] => exec re k st
  end.
Proof.
  intros H. simpl. destruct (rest st) as [|c s'] eqn:Hs; [reflexivity|].
  destruct (p c) eqn:Hp; [|reflexivity].
  rewrite (H st c s' Hs Hp).
  now destruct (exec re k (advance st s')).
Qed.

(** What rejects what. *)

Lemma rejects_Cls p q re (k : state -> option R) :
  (forall c, p c = true -> q c = false) -> rejects p (exec (Cls q :: re) k).
Proof.
  intros D st c s' Hs Hp. simpl. rewrite Hs, (D c Hp). reflexivity.
Qed.

Lemma rejects_Plus p q re (k : state -> option R) :
  (forall c, p c = true -> q c = false) -> rejects p (exec (Plus q :: re) k).
Proof.
  intros D st c s' Hs Hp. simpl. rewrite Hs, (D c Hp). reflexivity.
Qed.

Lemma rejects_Star_Eos p q re (k : state -> option R) :
  (forall c, p c = true -> q c = false) ->
  rejects p (exec (Star q :: Eos :: re) k).
Proof.
  intros D st c s' Hs Hp. simpl. rewrite Hs. simpl. rewrite (D c Hp).
  now rewrite Hs.
Qed.

Lemma rejects_GroupClose p re (k : state -> option R) :
  rejects p (exec re k) -> rejects p (exec (GroupClose :: re) k).
Proof. intros H st c s' Hs Hp. simpl. eapply H; simpl; eauto. Qed.

Lemma rejects_Opt p q re (k : state -> option R) :
  (forall c, p c = true -> q c = false) ->
  rejects p (exec re k) -> rejects p (exec (Opt q :: re) k).
Proof.
  intros D H st c s' Hs Hp. simpl. rewrite Hs, (D c Hp). eapply H; eauto.
Qed.

End RegexFacts.

(* ================================================================== *)
(** ** Character classes *)

Ltac chars :=
  unfold is_FE, is_x, is_not, is_chr, is_word_end, is_digit, is_space,
         SQL.is_sql_space, char_eqb, chr in *;
  cbn [N_of_ascii N_of_digits] in *;
  repeat match goal with
         | H : negb _ = true |- _ => apply negb_true_iff in H
         | H : negb _ = false |- _ => apply negb_false_iff in H
         | |- negb _ = true => apply negb_true_iff
         | |- negb _ = false => apply negb_false_iff
         end;
  rewrite ?orb_true_iff, ?andb_true_iff, ?orb_false_iff, ?andb_false_iff,
          ?N.leb_le, ?N.eqb_eq, ?N.leb_gt, ?N.eqb_neq in *;
  try lia.

Lemma digit_not_x c : is_digit c = true -> is_x c = false.
Proof. intros H. chars. Qed.

Lemma digit_not_space c : is_digit c = true -> is_space c = false.
Proof. intros H. chars. Qed.

Lemma x_not_space c : is_x c = true -> is_space c = false.
Proof. intros H. chars. Qed.

Lemma x_not_digit c : is_x c = true -> is_digit c = false.
Proof. intros H. chars. Qed.

Lemma space_not_chr a c :
  is_space (chr a) = false -> is_space c = true -> is_chr a c = false.
Proof.
  intros Ha Hc. unfold is_chr, char_eqb.
  destruct (N.eqb_spec c (chr a)) as [->|]; congruence.
Qed.

Lemma space_not_nonspace c : is_space c = true -> is_not is_space c = false.
Proof. intros H. unfold is_not. now rewrite H. Qed.

Lemma nonspace_not_space c : is_not is_space c = true -> is_space c = false.
Proof. unfold is_not. now destruct (is_space c). Qed.

Lemma not_chr_not a c : is_not (is_chr a) c = true -> is_chr a c = false.
Proof. unfold is_not. now destruct (is_chr a c). Qed.

(* ================================================================== *)
(** ** Runs *)

Lemma length_takeWhile_dropWhile p (s : jsstring) :
  length (takeWhile p s) + length (dropWhile p s) = length s.
Proof.
  rewrite <- length_app, takeWhile_dropWhile. reflexivity.
Qed.

Lemma firstn_takeWhile p (s : jsstring) :
  firstn (length s - length (dropWhile p s)) s = takeWhile p s.
Proof.
  pose proof (length_takeWhile_dropWhile p s) as H.
  replace (length s - length (dropWhile p s)) with (length (takeWhile p s))
    by lia.
  rewrite <- (takeWhile_dropWhile p s) at 2.
  rewrite firstn_app, Nat.sub_diag, firstn_all. simpl.
  now rewrite app_nil_r.
Qed.

Lemma skipn_takeWhile p (s : jsstring) :
  skipn (length (takeWhile p s)) s = dropWhile p s.
Proof.
  rewrite <- (takeWhile_dropWhile p s) at 2.
  rewrite skipn_app, Nat.sub_diag, skipn_all. reflexivity.
Qed.

Lemma takeWhile_all p (s : jsstring) :
  forallb p s = true -> takeWhile p s = s.
Proof.
  induction s as [|c s IH]; simpl; [reflexivity|].
  destruct (p c); simpl; [intros H; now rewrite IH | discriminate].
Qed.

Lemma takeWhile_app p (a b : jsstring) :
  forallb p a = true -> takeWhile p (a ++ b) = a ++ takeWhile p b.
Proof.
  induction a as [|c a IH]; simpl; [reflexivity|].
  destruct (p c); simpl; [intros H; now rewrite IH | discriminate].
Qed.

Lemma dropWhile_app p (a b : jsstring) :
  forallb p a = true -> dropWhile p (a ++ b) = dropWhile p b.
Proof.
  induction a as [|c a IH]; simpl; [reflexivity|].
  destruct (p c); simpl; [intros H; now rewrite IH | discriminate].
Qed.

Lemma takeWhile_forallb p (s : jsstring) : forallb p (takeWhile p s) = true.
Proof.
  induction s as [|c s IH]; simpl; [reflexivity|].
  destruct (p c) eqn:E; simpl; [now rewrite E | reflexivity].
Qed.

Lemma dropWhile_head p (s : jsstring) :
  match dropWhile p s with [] => True | c :: _ => p c = false end.
Proof.
  induction s as [|c s IH]; simpl; [exact I|].
  destruct (p c) eqn:E; [exact IH | exact E].
Qed.

Lemma dropWhile_stop p (s : jsstring) :
  match s with [] => True | c :: _ => p c = false end -> dropWhile p s = s.
Proof. destruct s as [|c s]; simpl; [reflexivity | now intros ->]. Qed.

Lemma takeWhile_stop p (s : jsstring) :
  match s with [] => True | c :: _ => p c = false end -> takeWhile p s = [].
Proof. destruct s as [|c s]; simpl; [reflexivity | now intros ->]. Qed.

(* ================================================================== *)
(** ** Unfolding the matcher one node at a time *)

Section ExecSteps.
Context {R : Type}.
Variable k : state -> option R.

Lemma exec_nil st : exec [] k st = k st.
Proof. reflexivity. Qed.

Lemma exec_Cls p re st :
  exec (Cls p :: re) k st =
  match rest st with
  | c :: s' => if p c then exec re k (advance st s') else None
  | [] => None
  end.
Proof. reflexivity. Qed.

Lemma exec_Bos re st :
  exec (Bos :: re) k st =
  match pos st with O => exec re k st | S _ => None end.
Proof. reflexivity. Qed.

Lemma exec_Eos re st :
  exec (Eos :: re) k st =
  match rest st with [] => exec re k st | _ :: _ => None end.
Proof. reflexivity. Qed.

Lemma exec_GroupOpen re st :
  exec (GroupOpen :: re) k st =
  exec re k (mkState (rest st) (pos st) (rest st) (group1 st)).
Proof. reflexivity. Qed.

Lemma exec_GroupClose re st :
  exec (GroupClose :: re) k st =
  exec re k
    (mkState (rest st) (pos st) (opened st)
       (Some (firstn (length (opened st) - length (rest st))
                (opened st)))).
Proof. reflexivity. Qed.

End ExecSteps.

(** A pattern that contains [p+] finds nothing in a text without any
    character of [p]. *)
Lemma star_no_p {R} (p q : char -> bool) (K : state -> option R) :
  (forall st, forallb (is_not p) (rest st) = true -> K st = None) ->
  forall s st, rest st = s -> forallb (is_not p) s = true ->
               star q K s st = None.
Proof.
  intros HK. induction s as [|c s' IH]; intros st Hs Hall; simpl.
  - apply HK. now rewrite Hs.
  - assert (K st = None) as HKst by (apply HK; now rewrite Hs).
    destruct (q c); [|exact HKst].
    rewrite IH, HKst; [reflexivity | reflexivity |].
    simpl in Hall. now apply andb_true_iff in Hall.
Qed.

Lemma exec_needs {R} (p : char -> bool) (re : regex) :
  In (Plus p) re ->
  forall (k : state -> option R) st,
    forallb (is_not p) (rest st) = true -> exec re k st = None.
Proof.
  induction re as [|a re IH]; intros Hin k st Hall; [destruct Hin|].
  destruct Hin as [-> | Hin].
  - simpl. destruct (rest st) as [|c s']; [reflexivity|].
    simpl in Hall. unfold is_not at 1 in Hall.
    destruct (p c); [discriminate | reflexivity].
  - specialize (IH Hin).
    assert (Htail : forall c s', rest st = c :: s' ->
                                 forallb (is_not p) s' = true).
    { intros c s' Hs. rewrite Hs in Hall. simpl in Hall.
      now apply andb_true_iff in Hall. }
    destruct a as [q|q|q|q| | | |]; simpl.
    + destruct (rest st) as [|c s'] eqn:Hs; [reflexivity|].
      destruct (q c); [|reflexivity]. apply IH. simpl. eauto.
    + destruct (rest st) as [|c s'] eqn:Hs; [reflexivity|].
      destruct (q c); [|reflexivity].
      apply (star_no_p p); [intros; now apply IH | reflexivity | eauto].
    + apply (star_no_p p); [intros; now apply IH | reflexivity | assumption].
    + destruct (rest st) as [|c s'] eqn:Hs.
      * apply IH. now rewrite Hs.
      * assert (exec re k st = None) as -> by (apply IH; now rewrite Hs).
        destruct (q c); [|reflexivity].
        rewrite IH; [reflexivity | simpl; eauto].
    + destruct (pos st); [now apply IH | reflexivity].
    + destruct (rest st) as [|c s'] eqn:Hs; [|reflexivity].
      apply IH. now rewrite Hs.
    + apply IH. assumption.
    + apply IH. assumption.
Qed.

Lemma search_needs (p : char -> bool) (re : regex) :
  In (Plus p) re ->
  forall s i, forallb (is_not p) s = true -> search_from re s i = None.
Proof.
  intros Hin. induction s as [|c s IH]; intros i Hall; simpl.
  - unfold match_at. now rewrite (exec_needs p re Hin).
  - unfold match_at. rewrite (exec_needs p re Hin) by assumption.
    apply IH. simpl in Hall. now apply andb_true_iff in Hall.
Qed.

Lemma replace_all_needs (p : char -> bool) (re : regex) by_ :
  In (Plus p) re ->
  forall s, forallb (is_not p) s = true -> replace_all re by_ s = s.
Proof.
  intros Hin. unfold replace_all.
  induction s as [|c s IH]; intros Hall; simpl; [reflexivity|].
  unfold match_at. rewrite (exec_needs p re Hin) by assumption.
  rewrite IH; [reflexivity|].
  simpl in Hall. now apply andb_true_iff in Hall.
Qed.

(* ================================================================== *)
(** ** The quantity pattern *)

Lemma takeWhile_nil_iff p (s : jsstring) :
  takeWhile p s = [] <-> match s with [] => True | c :: _ => p c = false end.
Proof.
  destruct s as [|c s]; simpl; [tauto|].
  destruct (p c); split; congruence.
Qed.

Lemma match_at_quantityRe s :
  match_at quantityRe s 0 =
  match quantity_prefix s with
  | Some (digits, n) => Some (mkMatch 0 (firstn n s) digits)
  | None => None
  end.
Proof.
  unfold match_at, quantityRe.
  rewrite exec_Bos; cbn [pos].
  rewrite exec_GroupOpen; cbn [rest pos opened group1].
  rewrite exec_Plus
    by (apply rejects_GroupClose, rejects_Opt;
        [exact digit_not_x | apply rejects_Plus, digit_not_space]).
  rewrite exec_GroupClose, exec_Opt by (apply rejects_Plus, x_not_space).
  unfold quantity_prefix, opt_x, after_run.
  cbn [rest pos opened group1].
  rewrite firstn_takeWhile.
  destruct (takeWhile is_digit s) as [|d ds] eqn:Hds.
  - apply takeWhile_nil_iff in Hds.
    destruct s as [|c s]; [reflexivity|]. rewrite Hds.
    now destruct (dropWhile is_digit (c :: s)) as [|c0 r]; [|destruct (is_x c0)].
  - destruct s as [|c s]; [discriminate|].
    assert (is_digit c = true) as ->
        by (simpl in Hds; destruct (is_digit c); [reflexivity|discriminate]).
    set (digits := d :: ds) in *.
    assert (Hne : match digits with [] => False | _ :: _ => True end)
      by exact I.
    clearbody digits. clear Hds.
    set (r1 := dropWhile is_digit (c :: s)).
    assert (Hx : forall (x r : jsstring) (K := fun st : state =>
               Some (mkMatch 0 (firstn (pos st - 0) (c :: s))
                       (match group1 st with Some g => g | None => [] end))),
      exec [Plus is_space] K
        (mkState r (0 + length digits + length x) (c :: s) (Some digits)) =
      match takeWhile is_space r with
      | [] => None
      | _ :: _ =>
          Some (mkMatch 0
                  (firstn (length digits + length x
                           + length (takeWhile is_space r)) (c :: s))
                  digits)
      end).
    { intros x r K. rewrite exec_Plus_last by discriminate.
      unfold after_run, K. cbn [rest pos opened group1].
      destruct r as [|b r']; [reflexivity|]. cbn [takeWhile].
      destruct (is_space b); [|reflexivity].
      do 2 f_equal. f_equal. lia. }
    destruct r1 as [|c0 r] eqn:Hr1.
    + specialize (Hx [] []). cbn [length] in Hx.
      rewrite Nat.add_0_r in Hx. rewrite Hx. cbn [takeWhile].
      destruct digits; [destruct Hne | reflexivity].
    + destruct (is_x c0) eqn:Hc0.
      * unfold advance. cbn [rest pos opened group1].
        specialize (Hx [c0] r). cbn [length] in Hx.
        replace (S (0 + length digits)) with (0 + length digits + 1) by lia.
        rewrite Hx. destruct digits; [destruct Hne |].
        now destruct (takeWhile is_space r).
      * specialize (Hx [] (c0 :: r)). cbn [length] in Hx.
        rewrite Nat.add_0_r in Hx. rewrite Hx.
        destruct digits; [destruct Hne |].
        now destruct (takeWhile is_space (c0 :: r)).
Qed.

Lemma search_Bos re s i : search_from (Bos :: re) s (S i) = None.
Proof.
  revert i. induction s as [|c s IH]; intros i; simpl; [reflexivity|].
  apply IH.
Qed.

Lemma str_match_quantityRe s :
  str_match quantityRe s =
  match quantity_prefix s with
  | Some (digits, n) => Some (mkMatch 0 (firstn n s) digits)
  | None => None
  end.
Proof.
  unfold str_match. destruct s as [|c s].
  - reflexivity.
  - cbn [search_from]. rewrite match_at_quantityRe.
    destruct (quantity_prefix (c :: s)) as [[digits n]|]; [reflexivity|].
    apply search_Bos.
Qed.

Lemma quantity_prefix_length s digits n :
  quantity_prefix s = Some (digits, n) -> n <= length s.
Proof.
  unfold quantity_prefix, opt_x.
  pose proof (length_takeWhile_dropWhile is_digit s) as H1.
  destruct (dropWhile is_digit s) as [|c r] eqn:Hr.
  - destruct (takeWhile is_digit s); discriminate.
  - destruct (is_x c).
    + pose proof (length_takeWhile_dropWhile is_space r) as H2.
      destruct (takeWhile is_digit s); [discriminate|].
      destruct (takeWhile is_space r); [discriminate|].
      intros [= <- <-]. simpl in *. lia.
    + pose proof (length_takeWhile_dropWhile is_space (c :: r)) as H2.
      destruct (takeWhile is_digit s); [discriminate|].
      destruct (takeWhile is_space (c :: r)); [discriminate|].
      intros [= <- <-]. simpl in *. lia.
Qed.

Lemma extractQuantity_spec s :
  extractQuantity s =
  match quantity_prefix s with
  | Some (digits, n) => (parseInt10 digits, trim (skipn n s))
  | None => (Int 1, s)
  end.
Proof.
  unfold extractQuantity. rewrite str_match_quantityRe.
  destruct (quantity_prefix s) as [[digits n]|] eqn:H; [|reflexivity].
  cbn [group matched]. unfold substring_from.
  rewrite length_firstn, Nat.min_l; [reflexivity|].
  eapply quantity_prefix_length; eauto.
Qed.

Lemma quantity_prefix_some s digits n :
  quantity_prefix s = Some (digits, n) ->
  digits <> [] /\ forallb is_digit digits = true /\ has_quantity_prefix s.
Proof.
  unfold quantity_prefix. intros H.
  pose proof (takeWhile_dropWhile is_digit s) as Hs.
  pose proof (takeWhile_forallb is_digit s) as Hd.
  destruct (opt_x (dropWhile is_digit s)) as [x r] eqn:Hx.
  pose proof (takeWhile_dropWhile is_space r) as Hr.
  pose proof (takeWhile_forallb is_space r) as Hb.
  destruct (takeWhile is_digit s) as [|d ds] eqn:Hds; [discriminate|].
  destruct (takeWhile is_space r) as [|b bs] eqn:Hbs; [discriminate|].
  injection H as <- <-.
  split; [discriminate|]. split; [assumption|].
  exists (d :: ds), x, b, (bs ++ dropWhile is_space r).
  split; [discriminate|]. split; [assumption|].
  assert (Hx' : (x = [] \/ x = lit "x" \/ x = lit "X")
                /\ dropWhile is_digit s = x ++ r).
  { unfold opt_x in Hx. destruct (dropWhile is_digit s) as [|c r'].
    - injection Hx as <- <-. auto.
    - destruct (is_x c) eqn:Hc; injection Hx as <- <-; [|auto].
      split; [|reflexivity]. right.
      unfold is_x, is_chr, char_eqb in Hc. apply orb_true_iff in Hc.
      destruct Hc as [Hc|Hc]; apply N.eqb_eq in Hc; subst c; auto. }
  destruct Hx' as [Hx1 Hx2]. split; [assumption|].
  split; [simpl in Hb; now apply andb_true_iff in Hb|].
  rewrite <- Hs at 1. rewrite Hx2, <- Hr at 1. reflexivity.
Qed.


Lemma parseInt10_digits digits :
  digits <> [] -> forallb is_digit digits = true ->
  parseInt10 digits = Int (parseInt_digits 0 digits).
Proof.
  destruct digits as [|c ds]; [congruence|]. intros _ H.
  simpl in H. apply andb_true_iff in H as [Hc _].
  unfold parseInt10. now rewrite Hc.
Qed.

(* ================================================================== *)
(** ** Lines *)

Lemma parseCardInput_lines input :
  parseCardInput input =
  flat_map (fun line => match parseLine line with
                        | Some card => [card]
                        | None => []
                        end) (inputLines input).
Proof.
  unfold parseCardInput.
  assert (H : forall lines acc,
             fold_left (fun cards line =>
                          match parseLine line with
                          | Some card => cards ++ [card]
                          | None => cards
                          end) lines acc =
             acc ++ flat_map (fun line => match parseLine line with
                                          | Some card => [card]
                                          | None => []
                                          end) lines).
  { induction lines as [|l lines IH]; intros acc; simpl.
    - now rewrite app_nil_r.
    - rewrite IH. destruct (parseLine l); simpl.
      + now rewrite <- app_assoc.
      + reflexivity. }
  apply H.
Qed.

Lemma parseLine_steps line :
  parseLine line =
  let body := trim (fst (extractTags line)) in
  let afterQuantity := extractQuantity body in
  let afterFoil := extractFoil (snd afterQuantity) in
  let cardName := normalizeSlash (stripSetCode (snd afterFoil)) in
  if truthy cardName
  then Some (ParsedInputCard.mk cardName (fst afterQuantity)
               (fst afterFoil) (snd (extractTags line)))
  else None.
Proof.
  unfold parseLine.
  destruct (extractTags line) as [body tags]. cbn [fst snd].
  destruct (extractQuantity (trim body)) as [q r]. cbn [fst snd].
  destruct (extractFoil r) as [f r']. reflexivity.
Qed.

Lemma split_no_sep sep (s : jsstring) :
  forallb (fun c => negb (char_eqb c sep)) s = true -> split sep s = [s].
Proof.
  induction s as [|c s IH]; simpl; [reflexivity|].
  intros H. apply andb_true_iff in H as [Hc Hs].
  apply negb_true_iff in Hc. rewrite Hc, (IH Hs). reflexivity.
Qed.

Lemma dropWhile_none p (s : jsstring) :
  forallb (is_not p) s = true -> dropWhile p s = s.
Proof.
  destruct s as [|c s]; simpl; [reflexivity|]. unfold is_not at 1.
  destruct (p c); [discriminate | reflexivity].
Qed.

Lemma forallb_rev {A} (p : A -> bool) (l : list A) :
  forallb p (rev l) = forallb p l.
Proof.
  induction l as [|a l IH]; simpl; [reflexivity|].
  rewrite forallb_app, IH. simpl. rewrite andb_true_r. apply andb_comm.
Qed.

Lemma trim_no_space s : forallb (is_not is_space) s = true -> trim s = s.
Proof.
  intros H. unfold trim. rewrite (dropWhile_none is_space s H).
  rewrite dropWhile_none by now rewrite forallb_rev.
  apply rev_involutive.
Qed.

Lemma forallb_weaken {A} (p q : A -> bool) (l : list A) :
  (forall a, p a = true -> q a = true) ->
  forallb p l = true -> forallb q l = true.
Proof.
  intros Hpq. induction l as [|a l IH]; simpl; [reflexivity|].
  intros H. apply andb_true_iff in H as [Ha Hl].
  now rewrite (Hpq a Ha), IH.
Qed.

(* ================================================================== *)
(** ** The batch endpoint *)

Lemma str_eqb_eq (a b : jsstring) : str_eqb a b = true <-> a = b.
Proof.
  revert b; induction a as [|x a IH]; intros [|y b]; simpl;
    try (split; congruence).
  rewrite andb_true_iff. unfold char_eqb. rewrite N.eqb_eq, IH.
  split; [intros [-> ->]; reflexivity | intros [= -> ->]; auto].
Qed.

Lemma existsb_json_is_string needle items :
  existsb (json_is_string needle) items = true <->
  In (JString needle) items.
Proof.
  rewrite existsb_exists. split.
  - intros [v [Hin Hv]]. destruct v; try discriminate.
    simpl in Hv. apply str_eqb_eq in Hv. now subst.
  - intros Hin. exists (JString needle). split; [assumption|].
    simpl. now apply str_eqb_eq.
Qed.

Section ServerFacts.

Variable JSON_parse : jsstring -> outcome json.

Lemma detectFoilStatus_array column items :
  JSON_parse (or_else column (lit "[]")) = Return (JArray items) ->
  detectFoilStatus JSON_parse column =
  if existsb (json_is_string (lit "foil")) items then lit "F"
  else if existsb (json_is_string (lit "etched")) items then lit "E"
       else [].
Proof.
  intros H. unfold detectFoilStatus. rewrite H.
  cbn [bind includes try_catch].
  destruct (existsb (json_is_string (lit "foil")) items); [reflexivity|].
  cbn [bind includes try_catch].
  now destruct (existsb (json_is_string (lit "etched")) items).
Qed.

Lemma lookupCard_originalCard inputCard db order :
  BatchResult.originalCard (lookupCard JSON_parse inputCard db order)
  = inputCard.
Proof.
  unfold lookupCard.
  destruct (truthy (trim (ParsedInputCard.name inputCard)));
    [|reflexivity].
  cbn [negb].
  destruct (db _) as [[row|]|err]; cbn [bind try_catch]; try reflexivity.
  destruct (db _) as [[row|]|err]; reflexivity.
Qed.

Lemma lookupCard_found inputCard db order :
  BatchResult.found (lookupCard JSON_parse inputCard db order) = true ->
  exists row,
    lookupCard JSON_parse inputCard db order =
    BatchResult.mk true inputCard
      (Some (BatchResultCard.mk row
               (detectFoilStatus JSON_parse (Card.finishes row)))).
Proof.
  unfold lookupCard.
  destruct (truthy (trim (ParsedInputCard.name inputCard)));
    [|discriminate].
  cbn [negb].
  destruct (db _) as [[row|]|err]; cbn [bind try_catch];
    try discriminate; eauto.
  destruct (db _) as [[row|]|err]; cbn [bind try_catch];
    try discriminate; eauto.
Qed.

Lemma POST_loop_map db order cards :
  forall fuel i results,
    length cards - i <= fuel ->
    POST_loop JSON_parse fuel db order cards i results =
    results ++ List.map (fun card => lookupCard JSON_parse card db order)
                        (skipn i cards).
Proof.
  induction fuel as [|fuel IH]; intros i results Hfuel; cbn [POST_loop].
  - rewrite skipn_all2 by lia. now rewrite app_nil_r.
  - destruct (Nat.ltb_spec i (length cards)) as [Hlt|Hge].
    + assert (Hb : batchSize = 50) by reflexivity.
      assert (Hstep : length cards - (i + batchSize) <= fuel) by lia.
      rewrite IH by exact Hstep.
      rewrite <- app_assoc, <- map_app. do 2 f_equal.
      unfold slice.
      replace (i + batchSize - i) with batchSize by lia.
      rewrite Nat.add_comm, <- skipn_skipn.
      apply firstn_skipn.
    + rewrite skipn_all2 by lia. now rewrite app_nil_r.
Qed.

Lemma POST_results db order cards :
  cards <> [] ->
  POST JSON_parse (Some db) (JsonValue (Some cards) (Some order)) =
  Json (List.map (fun card => lookupCard JSON_parse card db order) cards).
Proof.
  intros Hne. unfold POST.
  destruct cards as [|c cards]; [congruence|].
  cbn [length Nat.eqb].
  rewrite POST_loop_map by (cbn [length]; lia). reflexivity.
Qed.

End ServerFacts.

Lemma in_succeeded_lines line entries :
  In (Succeeded line) entries -> In line (succeeded_lines entries).
Proof.
  intros H. unfold succeeded_lines. apply in_flat_map.
  exists (Succeeded line). simpl. auto.
Qed.

(* ================================================================== *)
(** ** Orders built from comparisons *)

Section TotalOrders.

Context {A : Type}.

Lemma total_refl (cmp : A -> A -> comparison) a :
  total_order cmp -> cmp a a = Eq.
Proof.
  intros T. pose proof (cmp_opp T a a) as H.
  destruct (cmp a a); simpl in H; congruence.
Qed.

Lemma total_le_trans (cmp : A -> A -> comparison) a b c :
  total_order cmp -> cmp a b <> Gt -> cmp b c <> Gt -> cmp a c <> Gt.
Proof.
  intros T Hab Hbc.
  destruct (cmp a b) eqn:Eab; [| |congruence].
  - now rewrite (cmp_eq_l T a b c Eab).
  - destruct (cmp b c) eqn:Ebc; [| |congruence].
    + assert (Ecb : cmp c b = Eq) by (rewrite (cmp_opp T b c), Ebc; reflexivity).
      pose proof (cmp_eq_l T c b a Ecb) as H.
      rewrite (cmp_opp T c a), H, (cmp_opp T a b), Eab. simpl. congruence.
    + rewrite (cmp_lt_trans T a b c Eab Ebc). congruence.
Qed.

Lemma total_le_total (cmp : A -> A -> comparison) a b :
  total_order cmp -> cmp a b = Gt -> cmp b a <> Gt.
Proof.
  intros T H. rewrite (cmp_opp T a b), H. simpl. congruence.
Qed.

Lemma total_lex (c1 c2 : A -> A -> comparison) :
  total_order c1 -> total_order c2 ->
  total_order (fun a b => Catalog.then_by (c1 a b) (c2 a b)).
Proof.
  intros T1 T2. split.
  - intros a b. rewrite (cmp_opp T1 a b), (cmp_opp T2 a b).
    now destruct (c1 a b).
  - intros a b c. unfold Catalog.then_by.
    destruct (c1 a b) eqn:Eab; try discriminate.
    + rewrite (cmp_eq_l T1 a b c Eab).
      destruct (c1 b c); try discriminate; [|reflexivity].
      apply (cmp_lt_trans T2).
    + destruct (c1 b c) eqn:Ebc; try discriminate.
      * assert (Ecb : c1 c b = Eq)
          by (rewrite (cmp_opp T1 b c), Ebc; reflexivity).
        pose proof (cmp_eq_l T1 c b a Ecb) as H.
        rewrite (cmp_opp T1 c a), H, (cmp_opp T1 a b), Eab. reflexivity.
      * now rewrite (cmp_lt_trans T1 a b c Eab Ebc).
  - intros a b c. unfold Catalog.then_by.
    destruct (c1 a b) eqn:Eab; try discriminate.
    intros E2. rewrite (cmp_eq_l T1 a b c Eab), (cmp_eq_l T2 a b c E2).
    reflexivity.
Qed.

Lemma total_direction (cmp : A -> A -> comparison) (o : sortOrder) :
  total_order cmp -> total_order (fun a b => Catalog.direction o (cmp a b)).
Proof.
  intros T. destruct o; simpl.
  - destruct T; split; assumption.
  - split.
    + intros a b. now rewrite (cmp_opp T a b).
    + intros a b c Hab Hbc.
      assert (Hba : cmp b a = Lt)
        by (rewrite (cmp_opp T a b); destruct (cmp a b); simpl in *; congruence).
      assert (Hcb : cmp c b = Lt)
        by (rewrite (cmp_opp T b c); destruct (cmp b c); simpl in *; congruence).
      rewrite (cmp_opp T c a), (cmp_lt_trans T c b a Hcb Hba). reflexivity.
    + intros a b c Hab.
      assert (E : cmp a b = Eq) by (destruct (cmp a b); simpl in *; congruence).
      now rewrite (cmp_eq_l T a b c E).
Qed.

Lemma total_key {B} (cmp : B -> B -> comparison) (key : A -> B) :
  total_order cmp -> total_order (fun a b => cmp (key a) (key b)).
Proof.
  intros T. split; intros; [apply (cmp_opp T) | eapply (cmp_lt_trans T); eauto
                            | now apply (cmp_eq_l T)].
Qed.

End TotalOrders.

Lemma total_Z : total_order Z.compare.
Proof.
  split.
  - intros a b. apply Z.compare_antisym.
  - intros a b c. rewrite !Z.compare_lt_iff. lia.
  - intros a b c H. apply Z.compare_eq in H. now subst.
Qed.

Lemma bytes_compare_eq a b : SQL.bytes_compare a b = Eq -> a = b.
Proof.
  revert b; induction a as [|x a IH]; intros [|y b]; simpl;
    try discriminate; [reflexivity|].
  destruct (N.compare_spec x y); try discriminate.
  subst. intros H. now rewrite (IH b H).
Qed.

Lemma bytes_compare_refl a : SQL.bytes_compare a a = Eq.
Proof.
  induction a as [|x a IH]; simpl; [reflexivity|].
  now rewrite N.compare_refl.
Qed.

Lemma total_bytes : total_order SQL.bytes_compare.
Proof.
  split.
  - induction a as [|x a IH]; intros [|y b]; simpl; try reflexivity.
    rewrite (N.compare_antisym x y), IH.
    now destruct (N.compare x y).
  - induction a as [|x a IH]; intros [|y b] [|z c]; simpl;
      try discriminate; try reflexivity.
    destruct (N.compare_spec x y), (N.compare_spec y z);
      try discriminate; subst.
    + rewrite N.compare_refl. apply IH.
    + intros _ _. now rewrite (proj2 (N.compare_lt_iff _ _) H0).
    + intros _ _. now rewrite (proj2 (N.compare_lt_iff _ _) H).
    + intros _ _.
      now rewrite (proj2 (N.compare_lt_iff _ _) (N.lt_trans _ _ _ H H0)).
  - intros a b c H. apply bytes_compare_eq in H. now subst.
Qed.

Lemma text_compare_refl a : SQL.text_compare a a = Eq.
Proof. apply bytes_compare_refl. Qed.

Lemma total_text : total_order SQL.text_compare.
Proof.
  apply (@total_key _ _ SQL.bytes_compare SQL.utf8). exact total_bytes.
Qed.

Lemma total_nullable : total_order SQL.nullable_compare.
Proof.
  split.
  - intros [a|] [b|]; simpl; try reflexivity. apply (cmp_opp total_text).
  - intros [a|] [b|] [c|]; simpl; try discriminate; try reflexivity.
    apply (cmp_lt_trans total_text).
  - intros [a|] [b|] [c|]; simpl; try discriminate; try reflexivity.
    apply (cmp_eq_l total_text).
Qed.

Lemma total_order_compare o : total_order (Catalog.order_compare o).
Proof.
  unfold Catalog.order_compare.
  apply (@total_lex _
           (fun a b => Z.compare (SQL.is_null (Card.released_at a))
                                 (SQL.is_null (Card.released_at b)))
           (fun a b =>
              Catalog.then_by
                (Catalog.direction o
                   (SQL.nullable_compare (Card.released_at a)
                                         (Card.released_at b)))
                (Catalog.direction o
                   (Z.compare (SQL.cast_integer (Card.collector_number a))
                              (SQL.cast_integer (Card.collector_number b)))))).
  - apply (@total_key _ _ Z.compare
             (fun a => SQL.is_null (Card.released_at a))).
    exact total_Z.
  - apply (@total_lex _
             (fun a b => Catalog.direction o
                           (SQL.nullable_compare (Card.released_at a)
                                                 (Card.released_at b)))
             (fun a b => Catalog.direction o
                           (Z.compare
                              (SQL.cast_integer (Card.collector_number a))
                              (SQL.cast_integer (Card.collector_number b))))).
    + apply (@total_direction _
               (fun a b => SQL.nullable_compare (Card.released_at a)
                                                (Card.released_at b)) o).
      apply (@total_key _ _ SQL.nullable_compare Card.released_at).
      exact total_nullable.
    + apply (@total_direction _
               (fun a b => Z.compare
                             (SQL.cast_integer (Card.collector_number a))
                             (SQL.cast_integer (Card.collector_number b))) o).
      apply (@total_key _ _ Z.compare
               (fun a => SQL.cast_integer (Card.collector_number a))).
      exact total_Z.
Qed.

(* ================================================================== *)
(** ** ORDER BY .. LIMIT 1 *)

Lemma precedes_refl o a : Catalog.precedes o a a = true.
Proof.
  unfold Catalog.precedes.
  now rewrite (@total_refl _ _ a (total_order_compare o)).
Qed.

Lemma precedes_trans o a b c :
  Catalog.precedes o a b = true -> Catalog.precedes o b c = true ->
  Catalog.precedes o a c = true.
Proof.
  unfold Catalog.precedes. intros Hab Hbc.
  pose proof (@total_le_trans _ (Catalog.order_compare o) a b c
                (total_order_compare o)) as H.
  destruct (Catalog.order_compare o a b) eqn:E1;
    destruct (Catalog.order_compare o b c) eqn:E2;
    destruct (Catalog.order_compare o a c) eqn:E3;
    try reflexivity; try discriminate;
    exfalso; apply H; congruence.
Qed.

Lemma precedes_total o a b :
  Catalog.precedes o a b = false -> Catalog.precedes o b a = true.
Proof.
  unfold Catalog.precedes. intros Hab.
  destruct (Catalog.order_compare o a b) eqn:E; try discriminate.
  pose proof (@total_le_total _ _ a b (total_order_compare o) E) as H.
  destruct (Catalog.order_compare o b a); congruence.
Qed.

Lemma insert_head o a sorted :
  hd_error (Catalog.insert o a sorted) =
  Some (match sorted with
        | [] => a
        | b :: _ => if Catalog.precedes o a b then a else b
        end).
Proof.
  destruct sorted as [|b rest]; simpl; [reflexivity|].
  now destruct (Catalog.precedes o a b).
Qed.

Lemma order_by_nil o rows : Catalog.order_by o rows = [] -> rows = [].
Proof.
  destruct rows as [|a rest]; simpl; [reflexivity|].
  intros H. pose proof (insert_head o a (Catalog.order_by o rest)) as E.
  rewrite H in E. discriminate.
Qed.

Lemma order_by_first o rows selected :
  hd_error (Catalog.order_by o rows) = Some selected ->
  In selected rows
  /\ forall other, In other rows -> Catalog.precedes o selected other = true.
Proof.
  revert selected. induction rows as [|a rest IH]; intros selected;
    [discriminate|].
  cbn [Catalog.order_by]. rewrite insert_head.
  destruct (Catalog.order_by o rest) as [|b sorted] eqn:Hsorted.
  - apply order_by_nil in Hsorted. subst rest. intros [= <-].
    split; [now left|]. intros other [<-|[]]. apply precedes_refl.
  - destruct (IH b eq_refl) as [Hin Hmin].
    destruct (Catalog.precedes o a b) eqn:Hab; intros [= <-].
    + split; [now left|]. intros other [<-|Hother].
      * apply precedes_refl.
      * eapply precedes_trans; eauto.
    + split; [now right|]. intros other [<-|Hother].
      * now apply precedes_total.
      * now apply Hmin.
Qed.

Lemma select_first st rows :
  hd_error (Catalog.select st rows) =
  hd_error (Catalog.order_by (orderClause st)
              (filter (Catalog.where_matches st) rows)).
Proof.
  unfold Catalog.select.
  now destruct (Catalog.order_by _ _).
Qed.

Lemma select_none st rows :
  hd_error (Catalog.select st rows) = None <->
  filter (Catalog.where_matches st) rows = [].
Proof.
  rewrite select_first. split.
  - intros H. apply (order_by_nil (orderClause st)).
    now destruct (Catalog.order_by _ _).
  - now intros ->.
Qed.


Lemma cast_integer_numeric s :
  purely_numeric s ->
  SQL.cast_integer s
  = Z.min (Z.of_N (parseInt_digits 0 s)) SQL.INT64_MAX.
Proof.
  intros [Hne Hd]. unfold SQL.cast_integer.
  destruct s as [|c s']; [congruence|].
  pose proof Hd as Hd'. simpl in Hd'. apply andb_true_iff in Hd' as [Hc _].
  assert (Hsp : SQL.is_sql_space c = false) by chars.
  cbn [dropWhile]. rewrite Hsp.
  assert (Hminus : char_eqb c (chr "-") = false) by chars.
  assert (Hplus : char_eqb c (chr "+") = false) by chars.
  rewrite Hminus, Hplus.
  rewrite (takeWhile_all _ _ Hd).
  unfold SQL.INT64_MIN, SQL.INT64_MAX. lia.
Qed.



Lemma lookupCard_catalog (JSON_parse : jsstring -> outcome json)
      inputCard rows order :
  lookupCard JSON_parse inputCard (Catalog.database rows) order =
  let cardName := trim (ParsedInputCard.name inputCard) in
  if truthy cardName then
    match hd_error (Catalog.order_by order (candidates order rows cardName))
    with
    | Some row =>
        BatchResult.mk true inputCard
          (Some (BatchResultCard.mk row
                   (detectFoilStatus JSON_parse (Card.finishes row))))
    | None => notFound inputCard
    end
  else notFound inputCard.
Proof.
  cbv zeta. unfold lookupCard, Catalog.database, candidates.
  destruct (truthy (trim (ParsedInputCard.name inputCard))); [|reflexivity].
  cbn [negb bind]. rewrite !select_first. cbn [orderClause].
  destruct (filter _ rows) as [|a exact] eqn:Hexact.
  - cbn [Catalog.order_by hd_error bind try_catch].
    now destruct (hd_error _).
  - cbn [Catalog.order_by]. rewrite insert_head.
    cbn [bind try_catch]. reflexivity.
Qed.

Unset Implicit Arguments.

(* ================================================================== *)
(** ** Unambiguous patterns need no backtracking *)

Lemma first_rejects_sound {R} p re :
  first_rejects p re -> forall k : state -> option R, rejects p (exec re k).
Proof.
  induction re as [|a re IH]; [intros []|].
  destruct a as [q|q|q|q| | | |]; cbn [first_rejects]; intros H k.
  - now apply rejects_Cls.
  - now apply rejects_Plus.
  - destruct H as [D H]. intros st c s' Hs Hp. simpl. rewrite Hs. simpl.
    rewrite (D c Hp). eapply IH; eauto.
  - destruct H as [D H]. apply rejects_Opt; auto.
  - intros st c s' Hs Hp. simpl. destruct (pos st); [|reflexivity].
    eapply IH; eauto.
  - intros st c s' Hs Hp. simpl. now rewrite Hs.
  - intros st c s' Hs Hp. simpl. eapply IH; simpl; eauto.
  - apply rejects_GroupClose. auto.
Qed.

Lemma exec_dexec {R} re :
  unambiguous re ->
  forall k : state -> option R, (forall st, k st <> None) ->
  forall st,
    exec re k st =
    match dexec re st with Some st' => k st' | None => None end.
Proof.
  induction re as [|a re IH]; intros U k Hk st; [reflexivity|].
  destruct a as [q|q|q|q| | | |]; cbn [unambiguous] in U.
  - rewrite exec_Cls. cbn [dexec].
    destruct (rest st) as [|c s']; [reflexivity|].
    destruct (q c); [now apply IH | reflexivity].
  - destruct U as [[-> | F] U].
    + rewrite exec_Plus_last by assumption. cbn [dexec].
      destruct (rest st) as [|c s']; [reflexivity|].
      now destruct (q c).
    + rewrite exec_Plus by now apply first_rejects_sound.
      cbn [dexec]. destruct (rest st) as [|c s']; [reflexivity|].
      destruct (q c); [now apply IH | reflexivity].
  - destruct U as [[-> | F] U].
    + cbn [exec dexec].
      destruct (k (after_run q st)) as [r|] eqn:E; [|now apply Hk in E].
      now apply star_first.
    + rewrite exec_Star by now apply first_rejects_sound.
      cbn [dexec]. now apply IH.
  - destruct U as [[-> | F] U].
    + cbn [exec dexec]. destruct (rest st) as [|c s']; [reflexivity|].
      destruct (q c); [|reflexivity].
      destruct (k (advance st s')) as [r|] eqn:E; [reflexivity|].
      now apply Hk in E.
    + rewrite exec_Opt by now apply first_rejects_sound.
      cbn [dexec]. destruct (rest st) as [|c s']; [now apply IH|].
      destruct (q c); now apply IH.
  - cbn [exec dexec]. destruct (pos st); [now apply IH | reflexivity].
  - cbn [exec dexec]. destruct (rest st); [now apply IH | reflexivity].
  - cbn [exec dexec]. now apply IH.
  - cbn [exec dexec]. now apply IH.
Qed.

Lemma match_at_dexec re s i :
  unambiguous re ->
  match_at re s i =
  match dexec re (mkState s i s None) with
  | Some st =>
      Some (mkMatch i (firstn (pos st - i) s)
              (match group1 st with Some g => g | None => [] end))
  | None => None
  end.
Proof.
  intros U. unfold match_at. now rewrite exec_dexec by (assumption || discriminate).
Qed.

Lemma unambiguous_foilRe : unambiguous foilRe.
Proof.
  cbn. split; [right; intros c H; chars|].
  split; [right; exact I | exact I].
Qed.

Lemma unambiguous_setRe : unambiguous setRe.
Proof.
  cbn. split; [right; intros c H; chars|].
  split; [right; intros c H; chars|].
  split; [right; intros c H; chars|].
  split; [right; split; [intros c H; chars | exact I]|].
  split; [right; exact I | exact I].
Qed.

Lemma unambiguous_slashRe : unambiguous slashRe.
Proof.
  cbn. split; [right; intros c H; chars|].
  split; [now left | exact I].
Qed.

(* ================================================================== *)
(** ** Decimal numerals *)

Lemma parseInt_digits_app acc (a b : jsstring) :
  forallb is_digit a = true ->
  parseInt_digits acc (a ++ b) = parseInt_digits (parseInt_digits acc a) b.
Proof.
  revert acc. induction a as [|c a IH]; intros acc H; simpl; [reflexivity|].
  simpl in H. apply andb_true_iff in H as [Hc Ha]. rewrite Hc. now apply IH.
Qed.

Lemma digit_char_is_digit (d : N) :
  (d < 10)%N -> is_digit (48 + d)%N = true.
Proof. intros H. unfold is_digit. apply andb_true_iff. split; apply N.leb_le; lia. Qed.

Lemma digits_pos_spec fuel :
  forall n acc,
    (n < 2 ^ N.of_nat (S fuel))%N ->
    exists digits,
      digits_pos (S fuel) n acc = digits ++ acc
      /\ digits <> [] /\ forallb is_digit digits = true
      /\ parseInt_digits 0 digits = n.
Proof.
  assert (Hsmall : forall f n acc,
             (n < 10)%N ->
             exists digits,
               digits_pos (S f) n acc = digits ++ acc
               /\ digits <> [] /\ forallb is_digit digits = true
               /\ parseInt_digits 0 digits = n).
  { intros f n acc Hlt. exists [(48 + n mod 10)%N].
    cbn [digits_pos]. rewrite (proj2 (N.ltb_lt n 10) Hlt).
    rewrite N.mod_small by assumption.
    split; [reflexivity|]. split; [discriminate|].
    cbn [forallb parseInt_digits].
    rewrite digit_char_is_digit by assumption.
    split; [reflexivity|]. unfold digit_val. lia. }
  induction fuel as [|fuel IH]; intros n acc Hn.
  - apply Hsmall. cbn in Hn. lia.
  - destruct (N.ltb_spec n 10) as [Hlt|Hge]; [now apply Hsmall|].
    assert (Hmod : (n mod 10 < 10)%N) by (apply N.mod_lt; lia).
    assert (Hdiv : (n / 10 < 2 ^ N.of_nat (S fuel))%N).
    { apply N.Div0.div_lt_upper_bound.
      rewrite (Nat2N.inj_succ (S fuel)), N.pow_succ_r' in Hn. lia. }
    destruct (IH (n / 10)%N ((48 + n mod 10)%N :: acc) Hdiv)
      as (digits & Heq & Hne & Hd & Hval).
    exists (digits ++ [(48 + n mod 10)%N]).
    change (digits_pos (S (S fuel)) n acc)
      with (if (n <? 10)%N then (48 + n mod 10)%N :: acc
            else digits_pos (S fuel) (n / 10)%N ((48 + n mod 10)%N :: acc)).
    rewrite (proj2 (N.ltb_ge n 10) Hge), Heq, <- app_assoc.
    split; [reflexivity|].
    split; [destruct digits; discriminate|]. split.
    + rewrite forallb_app, Hd. cbn [forallb].
      now rewrite digit_char_is_digit.
    + rewrite parseInt_digits_app by assumption. rewrite Hval.
      cbn [parseInt_digits].
      rewrite digit_char_is_digit by assumption. unfold digit_val.
      rewrite (N.div_mod n 10) at 3 by lia.
      clear. generalize (n / 10)%N (n mod 10)%N. intros a b. lia.
Qed.

Lemma numberToString_Int n :
  exists digits,
    numberToString (Int n) = digits
    /\ digits <> [] /\ forallb is_digit digits = true
    /\ parseInt_digits 0 digits = n.
Proof.
  unfold numberToString.
  destruct (digits_pos_spec (N.to_nat (N.log2 n)) n [])
    as (digits & Heq & H).
  - rewrite Nat2N.inj_succ, N2Nat.id.
    destruct (N.eq_dec n 0) as [->|Hpos]; [reflexivity|].
    apply N.log2_spec. lia.
  - exists digits. rewrite Heq, app_nil_r. auto.
Qed.

(* ================================================================== *)
(** ** White space at the ends *)

Lemma trim_tight s : starts_tight s -> ends_tight s -> trim s = s.
Proof.
  unfold ends_tight, starts_tight, trim. intros Hs He.
  rewrite (dropWhile_stop is_space s) by (destruct s; [exact I | exact Hs]).
  rewrite (dropWhile_stop is_space (rev s))
    by (destruct (rev s); [exact I | exact He]).
  apply rev_involutive.
Qed.

Lemma trim_tight_blanks s blanks :
  starts_tight s -> ends_tight s -> forallb is_space blanks = true ->
  trim (s ++ blanks) = s.
Proof.
  unfold ends_tight, starts_tight, trim. intros Hs He Hb.
  rewrite (dropWhile_stop is_space (s ++ blanks))
    by (destruct s; [destruct Hs | exact Hs]).
  rewrite rev_app_distr, dropWhile_app by now rewrite forallb_rev.
  rewrite (dropWhile_stop is_space (rev s))
    by (destruct (rev s); [exact I | exact He]).
  apply rev_involutive.
Qed.

Lemma starts_tight_app a b : starts_tight a -> starts_tight (a ++ b).
Proof. destruct a; [intros [] | simpl; auto]. Qed.

Lemma ends_tight_app a b : ends_tight b -> ends_tight (a ++ b).
Proof.
  unfold ends_tight. rewrite rev_app_distr. apply starts_tight_app.
Qed.

Lemma ends_tight_cons a b : ends_tight b -> ends_tight (a :: b).
Proof. apply (ends_tight_app [a]). Qed.

Lemma ends_tight_last a : is_space a = false -> ends_tight [a].
Proof. unfold ends_tight. simpl. auto. Qed.

Lemma ends_tight_nonspace s :
  s <> [] -> forallb (is_not is_space) s = true -> ends_tight s.
Proof.
  intros Hne H. unfold ends_tight, starts_tight.
  rewrite <- forallb_rev in H.
  destruct (rev s) as [|c r] eqn:E.
  - apply (f_equal (@rev _)) in E. rewrite rev_involutive in E. contradiction.
  - simpl in H. apply andb_true_iff in H as [Hc _].
    now apply nonspace_not_space.
Qed.

Lemma starts_tight_nonspace s :
  s <> [] -> forallb (is_not is_space) s = true -> starts_tight s.
Proof.
  destruct s as [|c s]; [congruence|]. intros _ H. simpl in *.
  apply andb_true_iff in H as [Hc _]. now apply nonspace_not_space.
Qed.

Lemma dropWhile_blanks s : forallb is_space s = true -> dropWhile is_space s = [].
Proof.
  induction s as [|c s IH]; simpl; [reflexivity|].
  intros H. apply andb_true_iff in H as [-> Hs]. auto.
Qed.

Lemma dropWhile_suffix p (s : jsstring) :
  exists prefix, s = prefix ++ dropWhile p s /\ forallb p prefix = true.
Proof.
  exists (takeWhile p s). split.
  - symmetry. apply takeWhile_dropWhile.
  - apply takeWhile_forallb.
Qed.

(** [trim] returns nothing or a tight text. *)
Lemma trim_result s : trim s = [] \/ (starts_tight (trim s) /\ ends_tight (trim s)).
Proof.
  unfold trim.
  set (u := dropWhile is_space s).
  assert (Hu : match u with [] => True | c :: _ => is_space c = false end)
    by apply dropWhile_head.
  set (v := dropWhile is_space (rev u)).
  assert (Hv : match v with [] => True | c :: _ => is_space c = false end)
    by apply dropWhile_head.
  destruct v as [|b v'] eqn:Ev; [now left|]. right. split.
  - destruct (dropWhile_suffix is_space (rev u)) as (w & Hw & _).
    fold v in Hw. rewrite Ev in Hw.
    apply (f_equal (@rev _)) in Hw.
    rewrite rev_involutive, rev_app_distr in Hw.
    destruct (rev (b :: v')) as [|c r] eqn:Er.
    + apply (f_equal (@rev _)) in Er. rewrite rev_involutive in Er.
      discriminate.
    + rewrite Hw in Hu. exact Hu.
  - unfold ends_tight. rewrite rev_involutive. exact Hv.
Qed.

Lemma trim_nil_blanks blanks : forallb is_space blanks = true -> trim blanks = [].
Proof.
  intros H. unfold trim. now rewrite (dropWhile_blanks _ H).
Qed.

Lemma trim_trim_blanks s blanks :
  forallb is_space blanks = true -> trim (trim s ++ blanks) = trim s.
Proof.
  intros Hb. destruct (trim_result s) as [E | [Hs He]].
  - rewrite E. simpl. now apply trim_nil_blanks.
  - now apply trim_tight_blanks.
Qed.

(* ================================================================== *)
(** ** What a match reads *)

Lemma after_run_reads p st :
  rest st = takeWhile p (rest st) ++ rest (after_run p st)
  /\ pos (after_run p st) = pos st + length (takeWhile p (rest st)).
Proof.
  unfold after_run. cbn [rest pos]. split; [|reflexivity].
  symmetry. apply takeWhile_dropWhile.
Qed.

Lemma dexec_reads re :
  forall st st',
    dexec re st = Some st' ->
    exists read,
      rest st = read ++ rest st' /\ pos st' = pos st + length read.
Proof.
  induction re as [|a re IH]; intros st st' H.
  - injection H as <-. exists []. split; [reflexivity | cbn; lia].
  - destruct a as [q|q|q|q| | | |]; cbn [dexec] in H.
    + destruct (rest st) as [|c s'] eqn:Hs; [discriminate|].
      destruct (q c); [|discriminate].
      destruct (IH _ _ H) as (read & Hr & Hp). cbn [advance rest pos] in *.
      exists (c :: read). rewrite Hr. split; [reflexivity | cbn [length]; lia].
    + destruct (rest st) as [|c s'] eqn:Hs; [discriminate|].
      destruct (q c); [|discriminate].
      destruct (IH _ _ H) as (read & Hr & Hp).
      destruct (after_run_reads q st) as [Hr' Hp'].
      rewrite <- Hs.
      exists (takeWhile q (rest st) ++ read).
      rewrite <- app_assoc, <- Hr, length_app. split; [exact Hr' | lia].
    + destruct (IH _ _ H) as (read & Hr & Hp).
      destruct (after_run_reads q st) as [Hr' Hp'].
      exists (takeWhile q (rest st) ++ read).
      rewrite <- app_assoc, <- Hr, length_app. split; [exact Hr' | lia].
    + assert (Hskip : dexec re st = Some st' ->
                      exists read, rest st = read ++ rest st'
                                   /\ pos st' = pos st + length read)
        by apply IH.
      destruct (rest st) as [|c s'] eqn:Hs; [rewrite <- Hs; auto|].
      destruct (q c); [|rewrite <- Hs; auto].
      destruct (IH _ _ H) as (read & Hr & Hp). cbn [advance rest pos] in *.
      exists (c :: read). rewrite Hr. split; [reflexivity | cbn [length]; lia].
    + destruct (pos st) eqn:Hpos; [|discriminate].
      rewrite <- Hpos. now apply IH.
    + destruct (rest st) eqn:Hs; [|discriminate].
      rewrite <- Hs. now apply IH.
    + destruct (IH _ _ H) as (read & Hr & Hp). cbn [rest pos] in *. eauto.
    + destruct (IH _ _ H) as (read & Hr & Hp). cbn [rest pos] in *. eauto.
Qed.

Lemma dexec_to_end re :
  forall st st', dexec (re ++ [Eos]) st = Some st' -> rest st' = [].
Proof.
  induction re as [|a re IH]; intros st st' H.
  - cbn [app dexec] in H. destruct (rest st) eqn:Hs; [|discriminate].
    injection H as <-. exact Hs.
  - destruct a as [q|q|q|q| | | |]; cbn [app dexec] in H;
      try (eapply IH; eassumption).
    + destruct (rest st) as [|c s']; [discriminate|].
      destruct (q c); [eapply IH; eassumption | discriminate].
    + destruct (rest st) as [|c s']; [discriminate|].
      destruct (q c); [eapply IH; eassumption | discriminate].
    + destruct (rest st) as [|c s']; [eapply IH; eassumption|].
      destruct (q c); eapply IH; eassumption.
    + destruct (pos st); [eapply IH; eassumption | discriminate].
    + destruct (rest st); [eapply IH; eassumption | discriminate].
Qed.

(** A match of a pattern that ends with [$] is the whole text from its
    index on. *)
Lemma match_at_to_end re s i :
  unambiguous (re ++ [Eos]) ->
  match_at (re ++ [Eos]) s i =
  match dexec (re ++ [Eos]) (mkState s i s None) with
  | Some st =>
      Some (mkMatch i s (match group1 st with Some g => g | None => [] end))
  | None => None
  end.
Proof.
  intros U. rewrite match_at_dexec by assumption.
  destruct (dexec (re ++ [Eos]) (mkState s i s None)) as [st|] eqn:H;
    [|reflexivity].
  destruct (dexec_reads _ _ _ H) as (read & Hr & Hp).
  rewrite (dexec_to_end _ _ _ H), app_nil_r in Hr.
  cbn [rest pos] in *. subst read. rewrite Hp.
  replace (i + length s - i) with (length s) by lia.
  now rewrite firstn_all.
Qed.

(* ================================================================== *)
(** ** Words *)

Lemma dropWhile_app_stop p (a : jsstring) c r :
  p c = false -> dropWhile p (a ++ c :: r) = dropWhile p a ++ c :: r.
Proof.
  intros Hc. induction a as [|x a IH]; simpl; [now rewrite Hc|].
  destruct (p x); [exact IH | reflexivity].
Qed.

Lemma takeWhile_app_stop p (a : jsstring) c r :
  p c = false -> takeWhile p (a ++ c :: r) = takeWhile p a.
Proof.
  intros Hc. induction a as [|x a IH]; simpl; [now rewrite Hc|].
  destruct (p x); [now rewrite IH | reflexivity].
Qed.

Lemma dropWhile_has p (s : jsstring) :
  existsb (is_not p) s = true -> dropWhile p s <> [].
Proof.
  induction s as [|c s IH]; simpl; [discriminate|].
  unfold is_not at 1. destruct (p c); simpl; [exact IH | discriminate].
Qed.

Lemma second_word_left a w t :
  forall b,
    is_space w = true -> existsb (is_not is_space) t = true ->
    dropWhile is_space (dropWhile (is_not is_space) (b ++ a :: w :: t)) <> [].
Proof.
  intros b Hw Ht. induction b as [|c b IH].
  - cbn [app dropWhile]. destruct (is_not is_space a).
    + cbn [dropWhile]. unfold is_not at 1. rewrite Hw. cbn [negb dropWhile].
      rewrite Hw. now apply dropWhile_has.
    + apply dropWhile_has. cbn [existsb]. rewrite Ht.
      now rewrite !orb_true_r.
  - cbn [app dropWhile]. destruct (is_not is_space c); [exact IH|].
    apply dropWhile_has. cbn [existsb]. rewrite existsb_app. cbn [existsb].
    rewrite Ht. now rewrite !orb_true_r.
Qed.

(** A text in which a word is followed by white space and another word
    is not a single word. *)
Lemma two_words b a w t :
  is_space a = false -> is_space w = true ->
  existsb (is_not is_space) t = true ->
  ~ one_word (b ++ a :: w :: t).
Proof.
  intros Ha Hw Ht. unfold one_word.
  rewrite dropWhile_app_stop by assumption.
  now apply second_word_left.
Qed.

Lemma one_word_blanks_word blanks word :
  forallb is_space blanks = true ->
  forallb (is_not is_space) word = true ->
  one_word (blanks ++ word).
Proof.
  intros Hb Hw. unfold one_word.
  rewrite dropWhile_app by assumption.
  assert (E : dropWhile is_space word = word).
  { destruct word as [|c word']; [reflexivity|]. simpl in *.
    apply andb_true_iff in Hw as [Hc _].
    apply nonspace_not_space in Hc. now rewrite Hc. }
  rewrite E.
  assert (E' : dropWhile (is_not is_space) word = []).
  { clear E. induction word as [|c word IH]; [reflexivity|].
    simpl in *. apply andb_true_iff in Hw as [-> Hw]. auto. }
  now rewrite E'.
Qed.

Lemma nonspace_exists s :
  s <> [] -> forallb (is_not is_space) s = true ->
  existsb (is_not is_space) s = true.
Proof.
  destruct s as [|c s]; [congruence|]. intros _ H. simpl in *.
  apply andb_true_iff in H as [-> _]. reflexivity.
Qed.

(* ================================================================== *)
(** ** Leftmost matches *)

Lemma search_hit re s i m :
  match_at re s i = Some m -> search_from re s i = Some m.
Proof. intros H. destruct s; simpl; now rewrite H. Qed.

Lemma search_skip re (a : jsstring) :
  forall m i,
    (forall a1 a2, a = a1 ++ a2 -> a2 <> [] ->
                   match_at re (a2 ++ m) (i + length a1) = None) ->
    search_from re (a ++ m) i = search_from re m (i + length a).
Proof.
  induction a as [|c a IH]; intros m i H.
  - cbn [app length]. now rewrite Nat.add_0_r.
  - cbn [app search_from].
    pose proof (H [] (c :: a) eq_refl) as H0.
    cbn [length app] in H0. rewrite Nat.add_0_r in H0.
    rewrite H0 by discriminate.
    rewrite IH.
    + cbn [length]. f_equal. lia.
    + intros a1 a2 Ha Hne.
      specialize (H (c :: a1) a2). cbn [length app] in H.
      replace (S i + length a1) with (i + S (length a1)) by lia.
      apply H; [now rewrite Ha | exact Hne].
Qed.

Lemma suffix_keeps_last (a a1 a2 : jsstring) b :
  a ++ [b] = a1 ++ a2 -> a2 <> [] -> exists a2', a2 = a2' ++ [b].
Proof.
  intros H Hne.
  destruct (exists_last Hne) as (a2' & b' & ->).
  rewrite app_assoc in H. apply app_inj_tail in H as [_ ->]. eauto.
Qed.

Lemma ends_tight_last_char s :
  ends_tight s -> exists s' b, s = s' ++ [b] /\ is_space b = false.
Proof.
  unfold ends_tight, starts_tight. intros H.
  destruct (rev s) as [|b r] eqn:E; [destruct H|].
  exists (rev r), b. split; [|exact H].
  rewrite <- (rev_involutive s), E. reflexivity.
Qed.

(* ================================================================== *)
(** ** The finish pattern *)

Lemma dropWhile_nil_all p (s : jsstring) :
  dropWhile p s = [] -> forallb p s = true.
Proof.
  induction s as [|c s IH]; simpl; [reflexivity|].
  destruct (p c); [exact IH | discriminate].
Qed.

Lemma foilRe_to_end :
  foilRe = [Plus is_space; Cls (is_chr "*"); GroupOpen; Cls is_FE;
            GroupClose; Cls (is_chr "*"); Star is_space] ++ [Eos].
Proof. reflexivity. Qed.

Lemma setRe_to_end :
  setRe = [Plus is_space; Cls (is_chr "("); Plus (is_not (is_chr ")"));
           Cls (is_chr ")"); Plus is_space; Plus (is_not is_space);
           Star is_space] ++ [Eos].
Proof. reflexivity. Qed.

Lemma chr_nonspace a c :
  is_space (chr a) = false -> is_chr a c = true -> is_not is_space c = true.
Proof.
  intros Ha Hc. unfold is_chr, char_eqb in Hc. apply N.eqb_eq in Hc. subst.
  unfold is_not. now rewrite Ha.
Qed.

Lemma FE_nonspace c : is_FE c = true -> is_not is_space c = true.
Proof. intros H. unfold is_not. apply negb_true_iff. chars. Qed.

(** A match of the finish pattern is a single word. *)
Lemma foilRe_one_word s i o g st' :
  dexec foilRe (mkState s i o g) = Some st' ->
  one_word s /\ exists c, is_FE c = true /\ group1 st' = Some [c].
Proof.
  unfold foilRe. cbn [dexec rest pos opened group1 after_run advance].
  destruct s as [|w s0]; [discriminate|].
  destruct (is_space w) eqn:Hw; [|discriminate].
  destruct (dropWhile is_space (w :: s0)) as [|a s2] eqn:E1; [discriminate|].
  destruct (is_chr "*" a) eqn:Ha; [|discriminate].
  destruct s2 as [|c s3]; [discriminate|].
  destruct (is_FE c) eqn:Hc; [|discriminate].
  destruct s3 as [|b s4]; [discriminate|].
  destruct (is_chr "*" b) eqn:Hb; [|discriminate].
  destruct (dropWhile is_space s4) eqn:E4; [|discriminate].
  intros [= <-]. split.
  - unfold one_word. rewrite E1. cbn [dropWhile].
    rewrite (chr_nonspace "*" a eq_refl Ha), (FE_nonspace c Hc),
            (chr_nonspace "*" b eq_refl Hb).
    apply dropWhile_nil_all in E4.
    assert (E : dropWhile (is_not is_space) s4 = s4).
    { destruct s4 as [|d s5]; [reflexivity|]. simpl in *.
      apply andb_true_iff in E4 as [Hd _]. unfold is_not. now rewrite Hd. }
    rewrite E. now apply dropWhile_blanks.
  - exists c. split; [exact Hc|].
    unfold after_run, advance. cbn [group1 opened rest].
    assert (E : forall n, match n with 0 => S n | S l => n - l end = 1)
      by (intros [|n]; [reflexivity | lia]).
    rewrite E. reflexivity.
Qed.

Lemma foilRe_marker f i :
  f = lit "F" \/ f = lit "E" ->
  match_at foilRe (lit " *" ++ f ++ lit "*") i
  = Some (mkMatch i (lit " *" ++ f ++ lit "*") f).
Proof.
  intros [-> | ->]; rewrite foilRe_to_end, match_at_to_end
    by (rewrite <- foilRe_to_end; exact unambiguous_foilRe);
    reflexivity.
Qed.

Lemma foilRe_not_marker number i o g :
  forallb (is_not is_space) number = true ->
  is_finish_marker number = false ->
  dexec foilRe (mkState (32%N :: number) i o g) = None.
Proof.
  intros Hn Hm.
  unfold foilRe. cbn [dexec rest pos opened group1 after_run advance].
  change (is_space 32%N) with true. cbn [dropWhile].
  change (is_space 32%N) with true. cbv iota.
  assert (E : dropWhile is_space number = number).
  { destruct number as [|c r]; [reflexivity|]. simpl in *.
    apply andb_true_iff in Hn as [Hc _].
    apply nonspace_not_space in Hc. now rewrite Hc. }
  rewrite E.
  destruct number as [|a [|c [|b r]]]; try reflexivity;
    try (destruct (is_chr "*" a); [|reflexivity];
         try (destruct (is_FE c); reflexivity); reflexivity).
  destruct (is_chr "*" a) eqn:Ha; [|reflexivity].
  destruct (is_FE c) eqn:Hc; [|reflexivity].
  destruct (is_chr "*" b) eqn:Hb; [|reflexivity].
  destruct r as [|d r].
  - cbn in Hm. rewrite Ha, Hc, Hb in Hm. discriminate.
  - simpl in Hn. rewrite !andb_true_iff in Hn.
    destruct Hn as (_ & _ & _ & Hd & _).
    apply nonspace_not_space in Hd. cbn [dropWhile]. now rewrite Hd.
Qed.

(* ================================================================== *)
(** ** The set pattern *)

Lemma setRe_hit setCode number i :
  setCode <> [] -> forallb (is_not (is_chr ")")) setCode = true ->
  number <> [] -> forallb (is_not is_space) number = true ->
  match_at setRe (set_group setCode number) i
  = Some (mkMatch i (set_group setCode number) []).
Proof.
  intros Hs Hs' Hn Hn'.
  rewrite setRe_to_end, match_at_to_end
    by (rewrite <- setRe_to_end; exact unambiguous_setRe).
  rewrite <- setRe_to_end. unfold setRe, set_group.
  cbn [dexec rest pos opened group1 after_run advance].
  change (is_space 32%N) with true. cbn [dropWhile].
  change (is_space 32%N) with true. change (is_space 40%N) with false.
  change (is_chr "(" 40%N) with true. cbv iota.
  destruct setCode as [|x setCode']; [congruence|].
  cbn [app]. pose proof Hs' as Hx. simpl in Hx.
  apply andb_true_iff in Hx as [Hx _]. rewrite Hx.
  change (x :: setCode' ++ 41%N :: 32%N :: number)
    with ((x :: setCode') ++ 41%N :: 32%N :: number).
  rewrite dropWhile_app by assumption.
  cbn [dropWhile]. change (is_not (is_chr ")") 41%N) with false.
  change (is_chr "(" 40%N) with true. change (is_chr ")" 41%N) with true.
  cbv iota.
  destruct number as [|y number']; [congruence|].
  pose proof Hn' as Hy. simpl in Hy.
  apply andb_true_iff in Hy as [Hy _].
  pose proof (nonspace_not_space y Hy) as Hy'.
  assert (E0 : dropWhile is_space (32%N :: y :: number') = y :: number').
  { cbn [dropWhile]. change (is_space 32%N) with true. cbv iota.
    now rewrite Hy'. }
  rewrite E0, Hy.
  assert (E : dropWhile (is_not is_space) (y :: number') = []).
  { clear - Hn'. induction (y :: number') as [|c l IH]; [reflexivity|].
    simpl in *. apply andb_true_iff in Hn' as [-> Hl]. auto. }
  rewrite E. reflexivity.
Qed.

Lemma parens_closed_split name before after :
  parens_closed name = true -> name = before ++ 40%N :: after ->
  existsb (is_chr ")") after = true.
Proof.
  revert name. induction before as [|c before IH]; intros name H ->.
  - cbn [app parens_closed] in H. change (is_chr "(" 40%N) with true in H.
    now apply andb_true_iff in H.
  - cbn [app parens_closed] in H. apply andb_true_iff in H as [_ H].
    eapply IH; [exact H | reflexivity].
Qed.

Lemma takeWhile_not_has p (s : jsstring) :
  existsb p s = true ->
  exists c after, dropWhile (is_not p) s = c :: after /\ p c = true.
Proof.
  induction s as [|x s IH]; simpl; [discriminate|].
  unfold is_not at 1. destruct (p x) eqn:Hx; simpl; eauto.
Qed.

(** Inside a name that closes its parentheses the set pattern finds
    nothing that reaches the end of the line. *)
Lemma setRe_miss name1 name2 setCode number i o g :
  parens_closed (name1 ++ name2) = true ->
  ends_tight name2 ->
  number <> [] -> forallb (is_not is_space) number = true ->
  dexec setRe (mkState (name2 ++ set_group setCode number) i o g) = None.
Proof.
  intros Hclosed Htight Hn Hn'.
  destruct (dexec setRe _) as [st'|] eqn:H; [exfalso|reflexivity].
  destruct (ends_tight_last_char _ Htight) as (name2' & b & -> & Hb).
  revert H. unfold setRe.
  cbn [dexec rest pos opened group1 after_run advance].
  rewrite <- app_assoc. cbn [app].
  rewrite dropWhile_app_stop by assumption.
  remember (set_group setCode number) as group eqn:Hgroup.
  destruct (name2' ++ b :: group) as [|w s0] eqn:Es; [discriminate|].
  destruct (is_space w); [|discriminate].
  destruct (dropWhile is_space name2' ++ b :: group) as [|c0 s'] eqn:E1;
    [discriminate|].
  destruct (is_chr "(" c0) eqn:Hc0; [|discriminate].
  (* the opening parenthesis lies in the name, and so does its closing one *)
  assert (Hc0' : c0 = 40%N)
    by (unfold is_chr, char_eqb in Hc0; now apply N.eqb_eq in Hc0).
  subst c0.
  destruct (dropWhile_suffix is_space name2') as (blanks & Hblanks & _).
  assert (Hin : exists inner, dropWhile is_space name2' ++ [b]
                              = 40%N :: inner /\ s' = inner ++ group).
  { destruct (dropWhile is_space name2') as [|x inner'].
    - cbn [app] in E1. injection E1 as Eb Eg. subst b s'.
      exists []. split; reflexivity.
    - cbn [app] in E1. injection E1 as Ex Eg. subst x s'.
      exists (inner' ++ [b]). split; [reflexivity|].
      now rewrite <- app_assoc. }
  destruct Hin as (inner & Hinner & Hs'). subst s'.
  assert (Hexists : existsb (is_chr ")") inner = true).
  { apply (parens_closed_split (name1 ++ name2' ++ [b])
             (name1 ++ blanks)); [exact Hclosed|].
    rewrite Hblanks at 1. rewrite <- !app_assoc. do 2 f_equal.
    exact Hinner. }
  destruct (takeWhile_not_has (is_chr ")") inner Hexists)
    as (c2 & after & Hdrop & Hc2).
  destruct (dropWhile_suffix (is_not (is_chr ")")) inner)
    as (open & Hopen & Hopen').
  rewrite Hdrop in Hopen.
  destruct (inner ++ group) as [|c1 s1] eqn:Ei; [discriminate|].
  destruct (is_not (is_chr ")") c1); [|discriminate].
  rewrite <- Ei, Hopen, <- app_assoc. cbn [app].
  rewrite dropWhile_app by assumption.
  cbn [dropWhile]. unfold is_not at 1. rewrite Hc2. cbn [negb]. rewrite Hc2.
  (* what follows the closing parenthesis has two words *)
  intros H.
  assert (Hone : one_word (after ++ group)).
  { unfold one_word.
    destruct (after ++ group) as [|c3 s3] eqn:E3; [reflexivity|].
    rewrite <- E3 in *.
    destruct (is_space c3); [|discriminate].
    destruct (dropWhile is_space (after ++ group)) as [|c4 s4] eqn:E4;
      [reflexivity|].
    rewrite <- E4 in *.
    destruct (is_not is_space c4); [|discriminate].
    destruct (dropWhile is_space
                (dropWhile (is_not is_space)
                   (dropWhile is_space (after ++ group)))); [reflexivity|].
    discriminate. }
  revert Hone. rewrite Hgroup. unfold set_group.
  change (after ++ 32%N :: 40%N :: setCode ++ 41%N :: 32%N :: number)
    with (after ++ [32%N; 40%N] ++ setCode ++ 41%N :: 32%N :: number).
  rewrite !app_assoc.
  apply two_words; [reflexivity | reflexivity|].
  now apply nonspace_exists.
Qed.

(* ================================================================== *)
(** ** The steps of the parser on a rendered line *)

Lemma ends_tight_suffix a1 a2 :
  ends_tight (a1 ++ a2) -> a2 <> [] -> ends_tight a2.
Proof.
  unfold ends_tight, starts_tight. rewrite rev_app_distr. intros H Hne.
  destruct (rev a2) as [|c r] eqn:E; [|exact H].
  apply (f_equal (@rev _)) in E. rewrite rev_involutive in E. contradiction.
Qed.

Lemma set_group_ends_tight setCode number :
  number <> [] -> forallb (is_not is_space) number = true ->
  ends_tight (set_group setCode number).
Proof.
  intros Hn Hn'. unfold set_group.
  change (32%N :: 40%N :: setCode ++ 41%N :: 32%N :: number)
    with ([32%N; 40%N] ++ setCode ++ [41%N; 32%N] ++ number).
  do 3 apply ends_tight_app. now apply ends_tight_nonspace.
Qed.

Lemma stripSetCode_rendered name setCode number :
  starts_tight name -> ends_tight name -> parens_closed name = true ->
  setCode <> [] -> forallb (is_not (is_chr ")")) setCode = true ->
  number <> [] -> forallb (is_not is_space) number = true ->
  stripSetCode (name ++ set_group setCode number) = name.
Proof.
  intros Hs He Hclosed Hc Hc' Hn Hn'.
  unfold stripSetCode, replace_first, str_match.
  rewrite search_skip.
  - cbn [Nat.add].
    rewrite (search_hit _ _ _ _ (setRe_hit setCode number _ Hc Hc' Hn Hn')).
    cbn [Regex.index matched app].
    rewrite firstn_app, Nat.sub_diag, firstn_all. cbn [firstn].
    rewrite app_nil_r, skipn_all2 by (rewrite length_app; lia).
    rewrite app_nil_r. now apply trim_tight.
  - intros a1 a2 Hname Hne.
    rewrite match_at_dexec by exact unambiguous_setRe.
    rewrite (setRe_miss a1 a2); [reflexivity | | | assumption | assumption].
    + now rewrite <- Hname.
    + rewrite Hname in He. now apply (ends_tight_suffix a1).
Qed.

Lemma foilRe_miss_two_words b a w t i :
  is_space a = false -> is_space w = true ->
  existsb (is_not is_space) t = true ->
  match_at foilRe (b ++ a :: w :: t) i = None.
Proof.
  intros Ha Hw Ht. rewrite match_at_dexec by exact unambiguous_foilRe.
  destruct (dexec foilRe _) as [st'|] eqn:H; [|reflexivity].
  apply foilRe_one_word in H as [H _].
  now apply two_words in H.
Qed.

Lemma extractFoil_marked body f :
  starts_tight body -> ends_tight body ->
  f = lit "F" \/ f = lit "E" ->
  extractFoil (body ++ lit " *" ++ f ++ lit "*") = (f, body).
Proof.
  intros Hs He Hf. unfold extractFoil, str_match.
  rewrite search_skip.
  - cbn [Nat.add].
    rewrite (search_hit _ _ _ _ (foilRe_marker f _ Hf)).
    cbn [Regex.index group]. unfold substring_to.
    rewrite firstn_app, Nat.sub_diag, firstn_all. cbn [firstn].
    rewrite app_nil_r, trim_tight by assumption.
    now destruct Hf as [-> | ->].
  - intros a1 a2 Hbody Hne.
    rewrite Hbody in He. apply (ends_tight_suffix a1) in He; [|exact Hne].
    destruct (ends_tight_last_char _ He) as (a2' & b & -> & Hb).
    rewrite <- app_assoc. cbn [app].
    change (lit " *" ++ f ++ lit "*")
      with (32%N :: 42%N :: f ++ lit "*").
    apply foilRe_miss_two_words; [assumption | reflexivity | reflexivity].
Qed.

Lemma extractFoil_unmarked name setCode number :
  number <> [] -> forallb (is_not is_space) number = true ->
  is_finish_marker number = false ->
  extractFoil (name ++ set_group setCode number)
  = ([], name ++ set_group setCode number).
Proof.
  intros Hn Hn' Hm. unfold extractFoil, str_match.
  assert (E : search_from foilRe (name ++ set_group setCode number) 0 = None).
  { unfold set_group.
    change (name ++ 32%N :: 40%N :: setCode ++ 41%N :: 32%N :: number)
      with (name ++ [32%N; 40%N] ++ setCode ++ [41%N] ++ 32%N :: number).
    rewrite !app_assoc. rewrite search_skip.
    - cbn [search_from].
      rewrite match_at_dexec by exact unambiguous_foilRe.
      rewrite foilRe_not_marker by assumption.
      apply (search_needs is_space); [simpl; auto 10 | assumption].
    - intros a1 a2 Ha Hne.
      destruct (suffix_keeps_last _ _ _ _ Ha Hne) as (a2' & ->).
      rewrite <- app_assoc. cbn [app].
      apply foilRe_miss_two_words; [reflexivity | reflexivity|].
      now apply nonspace_exists. }
  now rewrite E.
Qed.

Lemma extractQuantity_rendered n remaining :
  starts_tight remaining -> ends_tight remaining ->
  extractQuantity (numberToString (Int n) ++ 32%N :: remaining)
  = (Int n, remaining).
Proof.
  intros Hs He.
  destruct (numberToString_Int n) as (digits & -> & Hne & Hd & Hval).
  rewrite extractQuantity_spec.
  assert (Hq : quantity_prefix (digits ++ 32%N :: remaining)
               = Some (digits, length digits + 0 + 1)).
  { unfold quantity_prefix.
    rewrite takeWhile_app, dropWhile_app by assumption.
    cbn [takeWhile dropWhile]. change (is_digit 32%N) with false.
    cbv iota. rewrite app_nil_r.
    cbn [opt_x]. change (is_x 32%N) with false. cbv iota.
    cbn [takeWhile]. change (is_space 32%N) with true. cbv iota.
    rewrite takeWhile_stop
      by (destruct remaining; [exact I | exact Hs]).
    destruct digits; [congruence | reflexivity]. }
  rewrite Hq. rewrite parseInt10_digits, Hval by assumption.
  f_equal.
  replace (length digits + 0 + 1) with (length (digits ++ [32%N]))
    by (rewrite length_app; cbn [length]; lia).
  change (digits ++ 32%N :: remaining) with (digits ++ [32%N] ++ remaining).
  rewrite app_assoc, skipn_app, Nat.sub_diag, skipn_all. cbn [skipn app].
  now apply trim_tight.
Qed.

(* ================================================================== *)
(** ** Tags and lines *)

Lemma forallb_dropWhile (q p : char -> bool) (s : jsstring) :
  forallb q s = true -> forallb q (dropWhile p s) = true.
Proof.
  induction s as [|c s IH]; [reflexivity|].
  intros H. pose proof H as H'. cbn [forallb] in H'.
  apply andb_true_iff in H' as [_ Hs]. cbn [dropWhile].
  destruct (p c); [now apply IH | exact H].
Qed.

Lemma forallb_trim q s : forallb q s = true -> forallb q (trim s) = true.
Proof.
  intros H. unfold trim. rewrite forallb_rev.
  apply (forallb_dropWhile q is_space). rewrite forallb_rev.
  now apply (forallb_dropWhile q is_space).
Qed.

Lemma split_app_sep sep (a b : jsstring) :
  forallb (fun c => negb (char_eqb c sep)) a = true ->
  split sep (a ++ sep :: b) = a :: split sep b.
Proof.
  induction a as [|c a IH]; intros H.
  - cbn [app split]. unfold char_eqb. now rewrite N.eqb_refl.
  - cbn [forallb] in H. apply andb_true_iff in H as [Hc Ha].
    apply negb_true_iff in Hc. cbn [app split]. rewrite Hc, (IH Ha).
    reflexivity.
Qed.

Lemma split_parts sep q (s : jsstring) :
  forallb q s = true ->
  Forall (fun part => forallb q part = true
                      /\ forallb (fun c => negb (char_eqb c sep)) part = true)
         (split sep s).
Proof.
  induction s as [|c s IH]; intros H.
  - repeat constructor.
  - cbn [forallb] in H. apply andb_true_iff in H as [Hc Hs].
    specialize (IH Hs). cbn [split].
    destruct (char_eqb c sep) eqn:E.
    + constructor; [split; reflexivity | exact IH].
    + destruct (split sep s) as [|h t]; [repeat constructor; simpl;
                                         now rewrite ?Hc, ?E|].
      inversion IH as [|? ? [Hq Hn] Ht]; subst.
      constructor; [|exact Ht]. cbn [forallb]. now rewrite Hc, Hq, E, Hn.
Qed.

Lemma tags_of_parts_tail tag rest :
  tags_of_parts (tag :: rest) = 35%N :: tags_tail (tag :: rest).
Proof.
  revert tag. induction rest as [|tag' rest IH]; intros tag; [reflexivity|].
  change (tags_of_parts (tag :: tag' :: rest))
    with ((chr "#" :: trim tag) ++ lit " " ++ tags_of_parts (tag' :: rest)).
  rewrite IH. reflexivity.
Qed.

Lemma split_tags_tail parts :
  Forall no_hash parts -> parts <> [] ->
  List.map trim (split (chr "#") (tags_tail parts)) = List.map trim parts.
Proof.
  induction parts as [|tag rest IH]; [congruence|]. intros H _.
  inversion H as [|? ? Htag Hrest]; subst.
  destruct rest as [|tag' rest'].
  - cbn [tags_tail]. rewrite split_no_sep by now apply forallb_trim.
    cbn [List.map]. f_equal.
    rewrite <- (app_nil_r (trim tag)) at 1. now apply trim_trim_blanks.
  - change (tags_tail (tag :: tag' :: rest'))
      with (trim tag ++ 32%N :: 35%N :: tags_tail (tag' :: rest')).
    change (trim tag ++ 32%N :: 35%N :: tags_tail (tag' :: rest'))
      with (trim tag ++ [32%N] ++ chr "#" :: tags_tail (tag' :: rest')).
    rewrite app_assoc, split_app_sep.
    + cbn [List.map]. rewrite IH by (assumption || discriminate).
      f_equal. now apply trim_trim_blanks.
    + rewrite forallb_app. apply andb_true_iff. split; [|reflexivity].
      now apply forallb_trim.
Qed.

Lemma extractTags_rendered body parts :
  no_hash body -> Forall no_hash parts -> parts <> [] ->
  extractTags (body ++ 32%N :: tags_of_parts parts)
  = (body ++ [32%N], tags_of_parts parts).
Proof.
  intros Hb Hp Hne. destruct parts as [|tag rest]; [congruence|].
  rewrite tags_of_parts_tail at 1. unfold extractTags.
  change (body ++ 32%N :: 35%N :: tags_tail (tag :: rest))
    with (body ++ [32%N] ++ chr "#" :: tags_tail (tag :: rest)).
  rewrite app_assoc, split_app_sep.
  - cbn [hd tl]. f_equal. unfold tags_of_parts.
    rewrite <- (map_map trim (fun t => chr "#" :: t)).
    rewrite split_tags_tail by (assumption || discriminate).
    now rewrite map_map.
  - rewrite forallb_app. apply andb_true_iff. split; [exact Hb | reflexivity].
Qed.

Lemma extractTags_plain body :
  no_hash body -> extractTags body = (body, []).
Proof.
  intros H. unfold extractTags. now rewrite split_no_sep.
Qed.

Lemma inputLines_single line :
  forallb (fun c => negb (char_eqb c 10%N)) line = true ->
  starts_tight line -> ends_tight line ->
  inputLines line = [line].
Proof.
  intros Hnl Hs He. unfold inputLines.
  rewrite split_no_sep by assumption. cbn [List.map].
  rewrite trim_tight by assumption. cbn [filter].
  destruct line; [destruct Hs | reflexivity].
Qed.

Lemma forallb_and {A} (p q : A -> bool) (l : list A) :
  forallb (fun a => p a && q a) l = true ->
  forallb p l = true /\ forallb q l = true.
Proof.
  induction l as [|a l IH]; [split; reflexivity|].
  cbn [forallb]. rewrite !andb_true_iff. intros [[Hp Hq] Hl].
  destruct (IH Hl). auto.
Qed.

Lemma plain_no_hash s : forallb plain s = true -> no_hash s.
Proof. intros H. now apply (forallb_and _ _ s) in H as [H _]. Qed.

Lemma plain_no_newline s : forallb plain s = true -> no_newline s.
Proof. intros H. now apply (forallb_and _ _ s) in H as [_ H]. Qed.

Lemma digits_plain s : forallb is_digit s = true -> forallb plain s = true.
Proof.
  apply forallb_weaken. intros c H. unfold plain.
  apply andb_true_iff. split; apply negb_true_iff; chars.
Qed.

Lemma finishSuffix_cases f :
  f = [] \/ f = lit "F" \/ f = lit "E" ->
  (f = [] /\ finishSuffix f = [])
  \/ ((f = lit "F" \/ f = lit "E")
      /\ finishSuffix f = lit " *" ++ f ++ lit "*").
Proof. intros [->|[->| ->]]; [left | right | right]; auto. Qed.

Lemma tags_tail_no_newline parts :
  Forall no_newline parts -> no_newline (tags_tail parts).
Proof.
  induction parts as [|tag rest IH]; intros H; [reflexivity|].
  inversion H as [|? ? Htag Hrest]; subst.
  destruct rest as [|tag' rest'].
  - cbn [tags_tail]. now apply forallb_trim.
  - change (tags_tail (tag :: tag' :: rest'))
      with (trim tag ++ [32%N; 35%N] ++ tags_tail (tag' :: rest')).
    unfold no_newline. rewrite !forallb_app.
    rewrite (forallb_trim _ _ Htag). cbn [forallb andb].
    change (negb (char_eqb 32%N 10%N)) with true.
    change (negb (char_eqb 35%N 10%N)) with true. cbn [andb].
    now apply IH.
Qed.

Lemma tags_tail_ends_tight parts :
  parts <> [] -> ends_tight (35%N :: tags_tail parts).
Proof.
  induction parts as [|tag rest IH]; [congruence|]. intros _.
  destruct rest as [|tag' rest'].
  - cbn [tags_tail]. destruct (trim_result tag) as [-> | [_ He]].
    + now apply ends_tight_last.
    + now apply ends_tight_cons.
  - change (35%N :: tags_tail (tag :: tag' :: rest'))
      with ([35%N] ++ trim tag ++ [32%N]
              ++ 35%N :: tags_tail (tag' :: rest')).
    rewrite !app_assoc.
    apply ends_tight_app. apply IH. discriminate.
Qed.

Lemma tagsSuffix_parts parts :
  (parts = [] /\ tagsSuffix (tags_of_parts parts) = [])
  \/ (parts <> []
      /\ tagsSuffix (tags_of_parts parts) = 32%N :: tags_of_parts parts).
Proof.
  destruct parts as [|tag rest]; [left; auto|]. right.
  split; [discriminate|]. now rewrite tags_of_parts_tail.
Qed.

Lemma parseCardInput_rendered n name setCode number f parts :
  starts_tight name -> ends_tight name -> forallb plain name = true ->
  parens_closed name = true -> normalizeSlash name = name ->
  setCode <> [] ->
  forallb (fun c => plain c && is_not (is_chr ")") c) setCode = true ->
  number <> [] ->
  forallb (fun c => plain c && is_not is_space c) number = true ->
  is_finish_marker number = false ->
  f = [] \/ f = lit "F" \/ f = lit "E" ->
  Forall (fun part => forallb plain part = true) parts ->
  parseCardInput
    (rendered n name setCode number f (tags_of_parts parts))
  = [ParsedInputCard.mk name (Int n) f (tags_of_parts parts)].
Proof.
  intros Hns Hne Hnp Hnc Hnn Hs Hs' Hc Hc' Hm Hf Hparts.
  apply forallb_and in Hs' as [Hsp Hsc].
  apply forallb_and in Hc' as [Hcp Hcs].
  destruct (numberToString_Int n) as (digits & Hdigits & Hdne & Hdd & _).
  set (group := set_group setCode number).
  set (body := (numberToString (Int n)
                  ++ 32%N :: (name ++ group) ++ finishSuffix f)).
  assert (Hgt : ends_tight group) by now apply set_group_ends_tight.
  assert (Hgp : forallb plain group = true).
  { unfold group, set_group. cbn [forallb]. rewrite forallb_app.
    cbn [forallb]. rewrite Hsp, Hcp. reflexivity. }
  assert (Hfp : forallb plain (finishSuffix f) = true)
    by (destruct Hf as [->|[->| ->]]; reflexivity).
  assert (Hrest_s : starts_tight ((name ++ group) ++ finishSuffix f))
    by (do 2 apply starts_tight_app; exact Hns).
  assert (Hrest_e : ends_tight ((name ++ group) ++ finishSuffix f)).
  { destruct (finishSuffix_cases f Hf) as [[_ ->] | [Hf' ->]].
    - rewrite app_nil_r. now apply ends_tight_app.
    - apply ends_tight_app. destruct Hf' as [-> | ->]; reflexivity. }
  assert (Hbody_p : forallb plain body = true).
  { unfold body. rewrite Hdigits. rewrite forallb_app. cbn [forallb].
    rewrite !forallb_app, (digits_plain _ Hdd), Hnp, Hgp, Hfp. reflexivity. }
  assert (Hbody_s : starts_tight body).
  { unfold body. rewrite Hdigits. apply starts_tight_app.
    apply starts_tight_nonspace; [assumption|].
    eapply forallb_weaken; [|exact Hdd].
    intros c H. unfold is_not. now rewrite (digit_not_space c H). }
  assert (Hbody_e : ends_tight body).
  { unfold body. apply ends_tight_app. now apply ends_tight_cons. }
  assert (Hparts_h : Forall no_hash parts)
    by (eapply Forall_impl; [|exact Hparts]; apply plain_no_hash).
  assert (Hparts_n : Forall no_newline parts)
    by (eapply Forall_impl; [|exact Hparts]; apply plain_no_newline).
  (* the line as a whole *)
  assert (Hline : parseLine (rendered n name setCode number f
                               (tags_of_parts parts))
                  = Some (ParsedInputCard.mk name (Int n) f
                            (tags_of_parts parts))).
  { rewrite parseLine_steps. cbv zeta. unfold rendered. fold group body.
    assert (Htags : extractTags (body ++ tagsSuffix (tags_of_parts parts))
                    = (body ++ match parts with [] => [] | _ => [32%N] end,
                       tags_of_parts parts)).
    { destruct (tagsSuffix_parts parts) as [[-> ->] | [Hne' ->]].
      - rewrite app_nil_r. now apply extractTags_plain, plain_no_hash.
      - rewrite extractTags_rendered
          by (assumption || now apply plain_no_hash).
        destruct parts; [now destruct Hne' | reflexivity]. }
    rewrite Htags. cbn [fst snd].
    rewrite trim_tight_blanks
      by (assumption || now destruct parts).
    unfold body. rewrite extractQuantity_rendered by assumption.
    cbn [fst snd].
    assert (Hfoil : extractFoil ((name ++ group) ++ finishSuffix f)
                    = (f, name ++ group)).
    { destruct (finishSuffix_cases f Hf) as [[-> ->] | [Hf' ->]].
      - rewrite app_nil_r. now apply extractFoil_unmarked.
      - apply extractFoil_marked; [|now apply ends_tight_app|assumption].
        now apply starts_tight_app. }
    rewrite Hfoil. cbn [fst snd]. unfold group.
    rewrite stripSetCode_rendered by assumption.
    rewrite Hnn.
    destruct name; [destruct Hns | reflexivity]. }
  rewrite parseCardInput_lines, inputLines_single.
  - cbn [flat_map]. now rewrite Hline.
  - unfold rendered. fold group body. unfold no_newline.
    rewrite forallb_app. apply andb_true_iff. split.
    + now apply plain_no_newline.
    + destruct (tagsSuffix_parts parts) as [[_ ->] | [Hne' ->]];
        [reflexivity|].
      destruct parts as [|tag rest]; [now destruct Hne'|].
      rewrite tags_of_parts_tail. cbn [forallb].
      now apply tags_tail_no_newline.
  - unfold rendered. now apply starts_tight_app.
  - unfold rendered. fold group body.
    destruct (tagsSuffix_parts parts) as [[_ ->] | [Hne' ->]].
    + now rewrite app_nil_r.
    + apply ends_tight_app, ends_tight_cons.
      destruct parts as [|tag rest]; [now destruct Hne'|].
      rewrite tags_of_parts_tail. now apply tags_tail_ends_tight.
Qed.

(* ================================================================== *)
(** ** Requests the parser produces *)

Lemma search_from_some re s :
  forall i m, search_from re s i = Some m ->
              exists s' j, match_at re s' j = Some m.
Proof.
  induction s as [|c s IH]; intros i m; simpl.
  - destruct (match_at re [] i) eqn:E; [|discriminate].
    intros [= <-]. eauto.
  - destruct (match_at re (c :: s) i) eqn:E.
    + intros [= <-]. eauto.
    + apply IH.
Qed.

Lemma FE_upper c :
  is_FE c = true ->
  toUpperCase_ascii [c] = lit "F" \/ toUpperCase_ascii [c] = lit "E".
Proof.
  unfold is_FE, is_chr, char_eqb. rewrite !orb_true_iff, !N.eqb_eq.
  intros [[[-> | ->] | ->] | ->]; auto.
Qed.

Lemma extractFoil_values s :
  fst (extractFoil s) = []
  \/ fst (extractFoil s) = lit "F" \/ fst (extractFoil s) = lit "E".
Proof.
  unfold extractFoil. destruct (str_match foilRe s) as [m|] eqn:E; [|now left].
  right. cbn [fst]. unfold str_match in E.
  apply search_from_some in E as (s' & j & E).
  rewrite match_at_dexec in E by exact unambiguous_foilRe.
  destruct (dexec foilRe _) as [st'|] eqn:D; [|discriminate].
  apply foilRe_one_word in D as (_ & c & Hc & Hg).
  injection E as <-. cbn [group]. rewrite Hg. now apply FE_upper.
Qed.

Lemma extractQuantity_values s : exists n, fst (extractQuantity s) = Int n.
Proof.
  rewrite extractQuantity_spec.
  destruct (quantity_prefix s) as [[digits m]|] eqn:E; [|now exists 1%N].
  destruct (quantity_prefix_some _ E) as (Hne & Hd & _).
  exists (parseInt_digits 0 digits). cbn [fst]. now apply parseInt10_digits.
Qed.

Lemma inputLines_no_newline input line :
  In line (inputLines input) -> no_newline line.
Proof.
  unfold inputLines. intros H. apply filter_In in H as [H _].
  apply in_map_iff in H as (part & <- & Hin).
  assert (Htrue : forallb (fun _ : char => true) input = true)
    by (clear; induction input as [|c s IH]; [reflexivity | exact IH]).
  pose proof (split_parts 10%N (fun _ => true) input Htrue) as Hparts.
  rewrite Forall_forall in Hparts.
  destruct (Hparts part Hin) as [_ Hn].
  now apply forallb_trim.
Qed.

Lemma forallb_and_intro {A} (p q : A -> bool) (l : list A) :
  forallb p l = true -> forallb q l = true ->
  forallb (fun a => p a && q a) l = true.
Proof.
  induction l as [|a l IH]; [reflexivity|]. cbn [forallb].
  rewrite !andb_true_iff. intros [Hp Hl] [Hq Hl']. auto.
Qed.

Lemma parsed_request_shape input request :
  In request (parseCardInput input) ->
  (exists n, ParsedInputCard.quantity request = Int n)
  /\ (ParsedInputCard.foilStatus request = []
      \/ ParsedInputCard.foilStatus request = lit "F"
      \/ ParsedInputCard.foilStatus request = lit "E")
  /\ exists parts,
      Forall (fun part => forallb plain part = true) parts
      /\ ParsedInputCard.tags request = tags_of_parts parts.
Proof.
  intros Hin. rewrite parseCardInput_lines in Hin.
  apply in_flat_map in Hin as (line & Hline & Hcard).
  destruct (parseLine line) as [card|] eqn:Hparse; [|destruct Hcard].
  destruct Hcard as [->|[]].
  rewrite parseLine_steps in Hparse. cbv zeta in Hparse.
  destruct (truthy _) in Hparse; [|discriminate].
  injection Hparse as <-.
  cbn [ParsedInputCard.quantity ParsedInputCard.foilStatus
       ParsedInputCard.tags].
  split; [apply extractQuantity_values|].
  split; [apply extractFoil_values|].
  exists (tl (split (chr "#") line)). split; [|reflexivity].
  pose proof (split_parts (chr "#") (fun c => negb (char_eqb c 10%N)) line
                (inputLines_no_newline input line Hline)) as Hparts.
  destruct (split (chr "#") line) as [|first parts]; [constructor|].
  inversion Hparts as [|? ? _ Hrest]; subst. cbn [tl].
  eapply Forall_impl; [|exact Hrest].
  intros part [Hn Hh]. unfold plain. now apply forallb_and_intro.
Qed.

(* ================================================================== *)
(** ** Looking the selected printing up again *)

Lemma filter_filter_implies {A} (f g : A -> bool) (l : list A) :
  (forall x, f x = true -> g x = true) ->
  filter f (filter g l) = filter f l.
Proof.
  intros H. induction l as [|a l IH]; [reflexivity|]. cbn [filter].
  destruct (g a) eqn:Hg; cbn [filter].
  - now rewrite IH.
  - destruct (f a) eqn:Hf; [|exact IH].
    apply H in Hf. congruence.
Qed.

Lemma order_by_first_filter o (f : Card.t -> bool) rows selected :
  hd_error (Catalog.order_by o rows) = Some selected ->
  f selected = true ->
  hd_error (Catalog.order_by o (filter f rows)) = Some selected.
Proof.
  revert selected. induction rows as [|a rest IH]; intros selected;
    [discriminate|].
  cbn [Catalog.order_by]. rewrite insert_head.
  destruct (Catalog.order_by o rest) as [|b sorted] eqn:Hsorted.
  - apply order_by_nil in Hsorted. subst rest. intros [= <-] Hf.
    cbn [filter]. rewrite Hf. reflexivity.
  - assert (Hb : hd_error (Catalog.order_by o rest) = Some b)
      by now rewrite Hsorted.
    destruct (@order_by_first o rest b Hb) as [_ Hmin].
    cbn [filter].
    destruct (Catalog.precedes o a b) eqn:Hab; intros [= <-] Hf.
    + rewrite Hf. cbn [Catalog.order_by]. rewrite insert_head.
      destruct (Catalog.order_by o (filter f rest)) as [|b' sorted']
        eqn:Hsorted'; [reflexivity|].
      assert (Hb' : hd_error (Catalog.order_by o (filter f rest)) = Some b')
        by now rewrite Hsorted'.
      destruct (@order_by_first o (filter f rest) b' Hb') as [Hin' _].
      apply filter_In in Hin' as [Hin' _].
      now rewrite (@precedes_trans o a b b' Hab (Hmin b' Hin')).
    + specialize (IH b eq_refl Hf).
      destruct (f a) eqn:Hfa; [|exact IH].
      cbn [Catalog.order_by]. rewrite insert_head.
      destruct (Catalog.order_by o (filter f rest)) as [|b' sorted'];
        [discriminate|].
      injection IH as ->. now rewrite Hab.
Qed.

Lemma candidates_filter order rows cardName :
  exists g,
    candidates order rows cardName = filter g rows
    /\ forall x y,
        SQL.lower (Card.name x) = SQL.lower (Card.name y) -> g x = g y.
Proof.
  unfold candidates.
  destruct (filter (Catalog.where_matches
                      (mkStatement NameEquals order cardName)) rows)
    as [|a exact] eqn:E.
  - eexists. split; [reflexivity|]. intros x y H.
    unfold Catalog.where_matches. cbn [where_ bound]. now rewrite H.
  - eexists. split; [symmetry; exact E|]. intros x y H.
    unfold Catalog.where_matches. cbn [where_ bound]. now rewrite H.
Qed.

Lemma str_eqb_refl s : str_eqb s s = true.
Proof. now apply str_eqb_eq. Qed.

Lemma relookup order rows cardName selected :
  hd_error (Catalog.order_by order (candidates order rows cardName))
  = Some selected ->
  hd_error (Catalog.order_by order
              (candidates order rows (Card.name selected)))
  = Some selected.
Proof.
  intros Hsel.
  destruct (candidates_filter order rows cardName) as (g & Hg & Hname).
  destruct (@order_by_first order _ selected Hsel) as [Hin _].
  rewrite Hg in Hin. apply filter_In in Hin as [Hrows Hgs].
  set (e := Catalog.where_matches
              (mkStatement NameEquals order (Card.name selected))).
  assert (He : e selected = true)
    by (unfold e, Catalog.where_matches; cbn [where_ bound];
        apply str_eqb_refl).
  assert (Hcand : candidates order rows (Card.name selected)
                  = filter e rows).
  { unfold candidates. fold e.
    destruct (filter e rows) as [|a l] eqn:E; [|reflexivity].
    exfalso. assert (Hx : In selected (filter e rows))
      by (apply filter_In; auto).
    rewrite E in Hx. destruct Hx. }
  rewrite Hcand.
  rewrite <- (filter_filter_implies e g).
  - rewrite <- Hg. now apply order_by_first_filter.
  - intros x Hx. rewrite <- Hgs. apply Hname.
    unfold e, Catalog.where_matches in Hx. cbn [where_ bound] in Hx.
    now apply str_eqb_eq in Hx.
Qed.

Lemma detectFoilStatus_values (JSON_parse : jsstring -> outcome json) column :
  detectFoilStatus JSON_parse column = []
  \/ detectFoilStatus JSON_parse column = lit "F"
  \/ detectFoilStatus JSON_parse column = lit "E".
Proof.
  unfold detectFoilStatus.
  destruct (JSON_parse _) as [finishes|err]; [|now left].
  cbn [bind].
  destruct (includes finishes (lit "foil")) as [[|]|err]; cbn [bind try_catch];
    auto.
  destruct (includes finishes (lit "etched")) as [[|]|err];
    cbn [bind try_catch]; auto.
Qed.

Lemma resolve_single toUpperCase JSON_parse db order request :
  resolve toUpperCase JSON_parse (Some db) order [request]
  = processResult toUpperCase (mkProcessed [] [])
      (lookupCard JSON_parse request db order).
Proof.
  unfold resolve, processBatch, batchLookup.
  rewrite POST_results by discriminate. reflexivity.
Qed.

Lemma formatForMoxfield_rendered toUpperCase row default request n :
  ParsedInputCard.quantity request = Int n ->
  formatForMoxfield toUpperCase
    (CardLookupResult.mk true (Some (BatchResultCard.mk row default)))
    request
  = rendered n (Card.name row) (toUpperCase (Card.set_code row))
      (Card.collector_number row)
      (or_else (ParsedInputCard.foilStatus request) default)
      (ParsedInputCard.tags request).
Proof.
  intros Hq. unfold formatForMoxfield, rendered, set_group, finishSuffix,
                    tagsSuffix.
  cbn [CardLookupResult.found CardLookupResult.card].
  unfold BatchResultCard.name, BatchResultCard.set_code,
         BatchResultCard.collector_number.
  cbn [BatchResultCard.row BatchResultCard.foilStatus].
  rewrite Hq, or_else_nil_r.
  change (lit " (") with [32%N; 40%N]. change (lit ") ") with [41%N; 32%N].
  change (lit " ") with [32%N].
  repeat (rewrite <- app_assoc || rewrite <- app_comm_cons).
  reflexivity.
Qed.

Lemma printable_row_facts toUpperCase row :
  printable_row toUpperCase row = true ->
  let name := Card.name row in
  let setCode := toUpperCase (Card.set_code row) in
  let number := Card.collector_number row in
  trim name = name /\ truthy name = true
  /\ starts_tight name /\ ends_tight name /\ forallb plain name = true
  /\ parens_closed name = true /\ normalizeSlash name = name
  /\ setCode <> []
  /\ forallb (fun c => plain c && is_not (is_chr ")") c) setCode = true
  /\ number <> []
  /\ forallb (fun c => plain c && is_not is_space c) number = true
  /\ is_finish_marker number = false.
Proof.
  unfold printable_row. cbv zeta. rewrite !andb_true_iff.
  intros (((((((((H1 & H2) & H3) & H4) & H5) & H6) & H7) & H8) & H9) & H10).
  apply str_eqb_eq in H1, H5. apply truthy_nonempty in H6, H8.
  apply negb_true_iff in H10.
  assert (Htight : starts_tight (Card.name row) /\ ends_tight (Card.name row)).
  { destruct (trim_result (Card.name row)) as [E | E].
    - rewrite H1 in E. rewrite E in H2. discriminate.
    - now rewrite H1 in E. }
  destruct Htight. repeat split; assumption.
Qed.

(** The line rendered from the row a lookup selected, read back and
    looked up again: when that row is printable, the line parses to one
    request, which selects the same row and renders the same line. *)
Lemma selected_line_round_trip toUpperCase JSON_parse rows order input
      request printing default :
  In request (parseCardInput input) ->
  lookupCard JSON_parse request (Catalog.database rows) order
  = BatchResult.mk true request
      (Some (BatchResultCard.mk printing default)) ->
  printable_row toUpperCase printing = true ->
  let found :=
    CardLookupResult.mk true (Some (BatchResultCard.mk printing default)) in
  exists finish,
    let again :=
      ParsedInputCard.mk (Card.name printing)
        (ParsedInputCard.quantity request) finish
        (ParsedInputCard.tags request) in
    In printing rows
    /\ parseCardInput (formatForMoxfield toUpperCase found request) = [again]
    /\ lookupCard JSON_parse again (Catalog.database rows) order
       = BatchResult.mk true again
           (Some (BatchResultCard.mk printing default))
    /\ formatForMoxfield toUpperCase found again
       = formatForMoxfield toUpperCase found request.
Proof.
  intros Hparsed Hlookup Hprintable found. unfold found.
  destruct (parsed_request_shape input request Hparsed)
    as ((n & Hq) & Hf & parts & Hparts & Ht).
  rewrite lookupCard_catalog in Hlookup. cbv zeta in Hlookup.
  destruct (truthy (trim (ParsedInputCard.name request)));
    [|discriminate].
  destruct (hd_error (Catalog.order_by order
                        (candidates order rows
                           (trim (ParsedInputCard.name request)))))
    as [selected|] eqn:Hsel; [|discriminate].
  injection Hlookup as Hselected Hdefault. subst selected.
  set (finish := or_else (ParsedInputCard.foilStatus request) default).
  assert (Hin : In printing rows).
  { destruct (@order_by_first order _ printing Hsel) as [Hin _].
    destruct (candidates_filter order rows
                (trim (ParsedInputCard.name request))) as (g & Hg & _).
    rewrite Hg in Hin. now apply filter_In in Hin. }
  destruct (printable_row_facts _ _ Hprintable)
    as (Htrim & Htruthy & Hns & Hne & Hnp & Hnc & Hnn & Hs & Hs' & Hc
        & Hc' & Hm).
  assert (Hfinish : finish = [] \/ finish = lit "F" \/ finish = lit "E").
  { unfold finish, or_else.
    destruct Hf as [->|[->| ->]]; cbn [truthy]; auto.
    rewrite <- Hdefault. apply detectFoilStatus_values. }
  assert (Hagain : or_else finish default = finish).
  { unfold finish, or_else.
    destruct (ParsedInputCard.foilStatus request) as [|c r];
      cbn [truthy]; [|reflexivity].
    now destruct default. }
  exists finish. cbv zeta.
  rewrite (formatForMoxfield_rendered _ _ _ _ n Hq).
  fold finish. rewrite Ht, Hq.
  split; [exact Hin|]. split; [now apply parseCardInput_rendered|]. split.
  - rewrite lookupCard_catalog. cbv zeta. cbn [ParsedInputCard.name].
    rewrite Htrim, Htruthy, (relookup _ _ _ _ Hsel), Hdefault.
    reflexivity.
  - rewrite (formatForMoxfield_rendered _ _ _ _ n) by reflexivity.
    cbn [ParsedInputCard.foilStatus ParsedInputCard.tags].
    now rewrite Hagain.
Qed.

(* ================================================================== *)
(** ** The rendered line *)

(** C1.  For a lookup result that is found and carries a printing, the
    rendered line is exactly
    [<quantity> <name> (<SET CODE, upper case>) <collector number>],
    then [ *<finish>*] only when the effective finish is not empty, then
    [ <tags>] only when the tags are not empty.  Quantity and tags are
    those of the request; name, set code and collector number are those
    of the catalog row; the finish is the requested one when there is
    one and the row's otherwise. *)
Theorem formatForMoxfield_line (toUpperCase : jsstring -> jsstring) :
  forall (card : BatchResultCard.t) (originalInput : ParsedInputCard.t),
    let finish :=
      if truthy (ParsedInputCard.foilStatus originalInput)
      then ParsedInputCard.foilStatus originalInput
      else BatchResultCard.foilStatus card in
    let tags := ParsedInputCard.tags originalInput in
    formatForMoxfield toUpperCase (CardLookupResult.mk true (Some card))
                      originalInput
    = numberToString (ParsedInputCard.quantity originalInput)
        ++ lit " " ++ Card.name (BatchResultCard.row card)
        ++ lit " (" ++ toUpperCase (Card.set_code (BatchResultCard.row card))
        ++ lit ") " ++ Card.collector_number (BatchResultCard.row card)
        ++ (if truthy finish then lit " *" ++ finish ++ lit "*" else [])
        ++ (if truthy tags then lit " " ++ tags else []).
Proof.
  intros card originalInput. unfold formatForMoxfield.
  cbn [CardLookupResult.found CardLookupResult.card].
  unfold BatchResultCard.name, BatchResultCard.set_code,
         BatchResultCard.collector_number.
  rewrite or_else_nil_r. unfold or_else.
  reflexivity.
Qed.

(* ================================================================== *)
(** ** The effective finish *)

(** C3.  For a matched request the finish that is rendered is the
    requested finish when that is not empty, and otherwise the default
    the endpoint derives from the row's [finishes]: [F] when they
    include [foil], else [E] when they include [etched], else nothing.
    A request for [F] therefore renders [*F*] whatever the row
    offers. *)
Theorem effective_finish_rendered
        (toUpperCase : jsstring -> jsstring)
        (JSON_parse : jsstring -> outcome json) :
  forall (inputCard : ParsedInputCard.t) (db : D1Database)
         (order : sortOrder),
    BatchResult.found (lookupCard JSON_parse inputCard db order) = true ->
    exists (row : Card.t) (default : jsstring),
      lookupCard JSON_parse inputCard db order
      = BatchResult.mk true inputCard
          (Some (BatchResultCard.mk row default))
      /\ (forall items,
             JSON_parse (or_else (Card.finishes row) (lit "[]"))
             = Return (JArray items) ->
             (In (JString (lit "foil")) items -> default = lit "F")
             /\ (~ In (JString (lit "foil")) items ->
                 In (JString (lit "etched")) items -> default = lit "E")
             /\ (~ In (JString (lit "foil")) items ->
                 ~ In (JString (lit "etched")) items -> default = []))
      /\ (let requested := ParsedInputCard.foilStatus inputCard in
          let tags := ParsedInputCard.tags inputCard in
          let finish := if truthy requested then requested else default in
          success
            (processBatch toUpperCase [inputCard]
               (fun cards =>
                  Return (List.map
                            (fun card => lookupCard JSON_parse card db order)
                            cards)))
          = [numberToString (ParsedInputCard.quantity inputCard)
               ++ lit " " ++ Card.name row
               ++ lit " (" ++ toUpperCase (Card.set_code row)
               ++ lit ") " ++ Card.collector_number row
               ++ (if truthy finish then lit " *" ++ finish ++ lit "*"
                   else [])
               ++ (if truthy tags then lit " " ++ tags else [])]
          /\ (requested = lit "F" -> finish = lit "F")).
Proof.
  intros inputCard db order Hfound.
  destruct (lookupCard_found JSON_parse inputCard db order Hfound)
    as [row Hrow].
  exists row, (detectFoilStatus JSON_parse (Card.finishes row)).
  split; [exact Hrow|]. split.
  - intros items Hparse.
    rewrite (detectFoilStatus_array JSON_parse _ Hparse).
    destruct (existsb (json_is_string (lit "foil")) items) eqn:Hfoil.
    + apply existsb_json_is_string in Hfoil. tauto.
    + assert (~ In (JString (lit "foil")) items) as Hno.
      { intros Hin. apply existsb_json_is_string in Hin. congruence. }
      destruct (existsb (json_is_string (lit "etched")) items) eqn:Het.
      * apply existsb_json_is_string in Het. tauto.
      * assert (~ In (JString (lit "etched")) items).
        { intros Hin. apply existsb_json_is_string in Hin. congruence. }
        tauto.
  - cbv zeta. split.
    + unfold processBatch. cbn [bind try_catch List.map].
      rewrite fold_processResult, Hrow.
      cbn [List.map entry_of BatchResult.found BatchResult.result
           BatchResult.originalCard succeeded_lines flat_map app success].
      rewrite formatForMoxfield_found. reflexivity.
    + intros ->. reflexivity.
Qed.

(* ================================================================== *)
(** ** Every request is answered once *)

(** C5.  When the lookup resolves with one result per request, the
    requests are answered by a list of entries, one per request and in
    the same order, each of which is either a line of [success] or a
    record of [failed]: nothing is dropped and nothing is in both
    lists. *)
Theorem processBatch_partition (toUpperCase : jsstring -> jsstring) :
  forall parsedCards batchLookupFn results,
    batchLookupFn parsedCards = Return results ->
    List.map BatchResult.originalCard results = parsedCards ->
    let out := processBatch toUpperCase parsedCards batchLookupFn in
    exists entries : list entry,
      Forall2 (corresponds toUpperCase) parsedCards entries
      /\ success out = succeeded_lines entries
      /\ failed out = failed_records entries
      /\ length (success out) + length (failed out) = length parsedCards.
Proof.
  intros parsedCards batchLookupFn results Hlookup Hecho out.
  exists (List.map (entry_of toUpperCase) results).
  assert (Hout : out = mkProcessed
                   (succeeded_lines (List.map (entry_of toUpperCase) results))
                   (failed_records (List.map (entry_of toUpperCase) results))).
  { unfold out, processBatch. rewrite Hlookup. cbn [bind try_catch].
    now rewrite fold_processResult. }
  rewrite Hout. cbn [success failed].
  repeat split.
  - rewrite <- Hecho. clear.
    induction results as [|r results IH]; simpl; constructor;
      [apply entry_of_corresponds | exact IH].
  - rewrite entries_count, length_map, <- Hecho, length_map. reflexivity.
Qed.

(* ================================================================== *)
(** ** A lookup that fails *)

(** C6, as the code has it.  When the batch lookup rejects, every
    request of the list [processBatch] was called with is put in
    [failed], in order, and [success] receives nothing.  The reason is
    the [message] of the thrown value when that is an [Error] instance,
    also when the message is empty, and ['Unknown error'] for every
    other thrown value.  This holds for a list of any length:
    [processBatch] makes one lookup call for the whole list and has no
    sub-batches that could succeed apart from it. *)
Theorem batch_failure_reported (toUpperCase : jsstring -> jsstring) :
  forall parsedCards batchLookupFn err,
    batchLookupFn parsedCards = Throw err ->
    let out := processBatch toUpperCase parsedCards batchLookupFn in
    let reason :=
      match err with
      | ErrorInstance message => message
      | NonError _ => lit "Unknown error"
      end in
    success out = []
    /\ failed out
       = List.map (fun card => Failure.mk (ParsedInputCard.name card) reason)
                  parsedCards
    /\ length (failed out) = length parsedCards.
Proof.
  intros parsedCards batchLookupFn err Hthrow out reason.
  assert (Hout : out = mkProcessed []
                   (List.map (fun card =>
                                Failure.mk (ParsedInputCard.name card) reason)
                             parsedCards)).
  { unfold out, processBatch. rewrite Hthrow. cbn [bind try_catch].
    now rewrite fold_processFailure. }
  rewrite Hout. cbn [success failed].
  split; [reflexivity|]. split; [reflexivity|]. apply length_map.
Qed.

(** C6, as the specification words it, fails.  The lookup below
    answers every list that does not ask for [Storm]; fifty requests
    for [Island] are resolved when they are looked up alone.  With one
    request for [Storm] after them the single lookup call rejects and
    all fifty-one requests fail: the first fifty are not resolved as a
    sub-batch of their own.  And an [Error] thrown without message text
    is reported with the empty reason, not with ['Unknown error']. *)
Lemma rejection_fails_the_whole_list :
  let fifty := repeat Examples.island_request 50 in
  let cards := fifty ++ [Examples.storm_request] in
  processBatch toUpperCase_ascii fifty Examples.stormy_lookup
  = mkProcessed (repeat (lit "1 Island (LEA) 288") 50) []
  /\ Examples.stormy_lookup cards
     = Throw (ErrorInstance (lit "Storm is not available"))
  /\ success (processBatch toUpperCase_ascii cards Examples.stormy_lookup)
     = []
  /\ failed (processBatch toUpperCase_ascii cards Examples.stormy_lookup)
     = repeat (Failure.mk (lit "Island") (lit "Storm is not available")) 50
       ++ [Failure.mk (lit "Storm") (lit "Storm is not available")]
  /\ failed (processBatch toUpperCase_ascii [Examples.forest_request]
               (fun _ => Throw (ErrorInstance [])))
     = [Failure.mk (lit "Forest") []].
Proof.
  cbv zeta. repeat split; vm_compute; reflexivity.
Qed.

(* ================================================================== *)
(** ** A lookup that throws inside the endpoint *)

(** C10.  When a statement of [lookupCard] rejects (a database error),
    the error is caught: the result is [found: false] with no printing,
    the same value a lookup in a catalog without any matching row
    gives, and [processBatch] reports the request with the reason
    ['Card not found in database'].  The error itself is not part of
    the result. *)
Theorem lookup_error_is_not_found
        (toUpperCase : jsstring -> jsstring)
        (JSON_parse : jsstring -> outcome json) :
  forall (inputCard : ParsedInputCard.t) (db : D1Database)
         (order : sortOrder) (err : thrown),
    let cardName := trim (ParsedInputCard.name inputCard) in
    db (mkStatement NameEquals order cardName) = Throw err
    \/ (db (mkStatement NameEquals order cardName) = Return None
        /\ db (mkStatement NameLike order
                 (lit "%" ++ firstWord cardName ++ lit "%")) = Throw err) ->
    lookupCard JSON_parse inputCard db order
    = BatchResult.mk false inputCard None
    /\ lookupCard JSON_parse inputCard db order
       = lookupCard JSON_parse inputCard (Catalog.database []) order
    /\ processBatch toUpperCase [inputCard]
         (fun cards =>
            Return (List.map (fun card => lookupCard JSON_parse card db order)
                             cards))
       = mkProcessed []
           [Failure.mk (ParsedInputCard.name inputCard)
                       (lit "Card not found in database")].
Proof.
  intros inputCard db order err cardName Hdb.
  assert (Hnot : lookupCard JSON_parse inputCard db order
                 = BatchResult.mk false inputCard None).
  { unfold lookupCard. fold cardName.
    destruct (truthy cardName); [|reflexivity]. cbn [negb].
    destruct Hdb as [-> | [-> ->]]; reflexivity. }
  split; [exact Hnot|]. split.
  - rewrite Hnot. unfold lookupCard. fold cardName.
    destruct (truthy cardName); reflexivity.
  - unfold processBatch. cbn [bind try_catch List.map fold_left].
    rewrite Hnot. reflexivity.
Qed.

(* ================================================================== *)
(** ** The parser on the format of the output *)

(** C7.  The line [1 Aetherflux Reservoir (KHM) 311 *F* #ComboPiece]
    parses to one request: quantity 1, name [Aetherflux Reservoir],
    finish [F], tags [#ComboPiece].  The steps run in the order tags,
    quantity, finish marker, set and collector number (shown on the
    line and, as an equation, for every line), and the parenthesised
    group does not reach the name.  The order matters: before the
    finish marker is removed, the set group is not at the end of the
    text and is left alone. *)
Theorem parse_moxfield_line :
  let line := lit "1 Aetherflux Reservoir (KHM) 311 *F* #ComboPiece" in
  parseCardInput line
  = [ParsedInputCard.mk (lit "Aetherflux Reservoir") (Int 1) (lit "F")
                        (lit "#ComboPiece")]
  /\ extractTags line
     = (lit "1 Aetherflux Reservoir (KHM) 311 *F* ", lit "#ComboPiece")
  /\ extractQuantity (lit "1 Aetherflux Reservoir (KHM) 311 *F*")
     = (Int 1, lit "Aetherflux Reservoir (KHM) 311 *F*")
  /\ extractFoil (lit "Aetherflux Reservoir (KHM) 311 *F*")
     = (lit "F", lit "Aetherflux Reservoir (KHM) 311")
  /\ stripSetCode (lit "Aetherflux Reservoir (KHM) 311")
     = lit "Aetherflux Reservoir"
  /\ stripSetCode (lit "Aetherflux Reservoir (KHM) 311 *F*")
     = lit "Aetherflux Reservoir (KHM) 311 *F*"
  /\ forall anyLine,
       parseLine anyLine
       = let body := trim (fst (extractTags anyLine)) in
         let afterQuantity := extractQuantity body in
         let afterFoil := extractFoil (snd afterQuantity) in
         let cardName := normalizeSlash (stripSetCode (snd afterFoil)) in
         if truthy cardName
         then Some (ParsedInputCard.mk cardName (fst afterQuantity)
                      (fst afterFoil) (snd (extractTags anyLine)))
         else None.
Proof.
  cbv zeta. repeat split; try (vm_compute; reflexivity).
  apply parseLine_steps.
Qed.

(* ================================================================== *)
(** ** Lines that are only a quantity *)

Lemma quantity_only_chars line :
  quantity_only line ->
  line <> [] /\ forallb (fun c => is_digit c || is_x c) line = true.
Proof.
  intros (digits & suffix & Hne & Hd & Hs & ->). split.
  - destruct digits; [congruence | discriminate].
  - rewrite forallb_app. apply andb_true_iff. split.
    + eapply forallb_weaken; [|exact Hd]. intros a ->. reflexivity.
    + destruct Hs as [->|[->| ->]]; reflexivity.
Qed.

Lemma digit_or_x_not_space c :
  is_digit c || is_x c = true -> is_not is_space c = true.
Proof.
  intros H. apply orb_true_iff in H. unfold is_not.
  destruct H as [H|H]; [apply digit_not_space in H | apply x_not_space in H];
    now rewrite H.
Qed.

Lemma digit_or_x_not_chr c (sep : char) :
  is_digit sep = false -> is_x sep = false ->
  is_digit c || is_x c = true -> negb (char_eqb c sep) = true.
Proof.
  intros Hd Hx H. unfold char_eqb.
  destruct (N.eqb_spec c sep) as [->|]; [|reflexivity].
  rewrite Hd, Hx in H. discriminate.
Qed.

(** C8, as the code has it.  A line that is only a quantity (digits,
    optionally followed by [x]) is not discarded: the quantity pattern
    asks for white space after the digits, so the text is kept as the
    name of a request with quantity 1. *)
Theorem quantity_only_line_is_kept :
  forall line,
    quantity_only line ->
    parseCardInput line = [ParsedInputCard.mk line (Int 1) [] []].
Proof.
  intros line Hq.
  destruct (quantity_only_chars line Hq) as [Hne Hchars].
  assert (Hsp : forallb (is_not is_space) line = true)
    by (eapply forallb_weaken; [apply digit_or_x_not_space | exact Hchars]).
  assert (Hnl : forallb (fun c => negb (char_eqb c 10%N)) line = true)
    by (eapply forallb_weaken; [|exact Hchars];
        intros a; now apply digit_or_x_not_chr).
  assert (Hhash : forallb (fun c => negb (char_eqb c (chr "#"))) line = true)
    by (eapply forallb_weaken; [|exact Hchars];
        intros a; now apply digit_or_x_not_chr).
  rewrite parseCardInput_lines. unfold inputLines.
  rewrite (split_no_sep _ _ Hnl). cbn [List.map].
  rewrite (trim_no_space _ Hsp). cbn [filter].
  destruct line as [|c line']; [congruence|]. cbn [length Nat.ltb Nat.leb].
  cbn [flat_map]. rewrite app_nil_r.
  set (line := c :: line') in *.
  rewrite parseLine_steps. unfold extractTags.
  rewrite (split_no_sep _ _ Hhash). cbn [hd tl List.map join fst snd].
  rewrite (trim_no_space _ Hsp).
  unfold extractQuantity, str_match.
  rewrite (search_needs is_space quantityRe) by (simpl; auto 10 || exact Hsp).
  cbn [fst snd]. unfold extractFoil, str_match.
  rewrite (search_needs is_space foilRe) by (simpl; auto 10 || exact Hsp).
  cbn [fst snd]. unfold stripSetCode, replace_first, str_match.
  rewrite (search_needs is_space setRe) by (simpl; auto 10 || exact Hsp).
  rewrite (trim_no_space _ Hsp).
  unfold normalizeSlash.
  rewrite (replace_all_needs is_space slashRe) by (simpl; auto 10 || exact Hsp).
  reflexivity.
Qed.

Lemma quantity_only_line_is_kept_witness :
  quantity_only (lit "12x")
  /\ parseCardInput (lit "12x")
     = [ParsedInputCard.mk (lit "12x") (Int 1) [] []].
Proof.
  assert (H : quantity_only (lit "12x")).
  { exists (lit "12"), (lit "x"). repeat split; try discriminate; auto. }
  split; [exact H | exact (quantity_only_line_is_kept (lit "12x") H)].
Defined.

(** C8, as the specification words it, fails: the line [4] is only a
    quantity and yields a request. *)
Lemma quantity_only_line_not_discarded :
  quantity_only (lit "4")
  /\ parseCardInput (lit "4")
     = [ParsedInputCard.mk (lit "4") (Int 1) [] []]
  /\ parseCardInput (lit "4") <> [].
Proof.
  split; [|split; [vm_compute; reflexivity | vm_compute; discriminate]].
  exists (lit "4"), []. repeat split; try discriminate; auto.
Qed.

(* ================================================================== *)
(** ** The quantity of a request *)




(* ================================================================== *)
(** ** The theorems above on concrete requests *)

Lemma effective_finish_rendered_witness :
  BatchResult.found
    (lookupCard Examples.JSON_parse_string_array
       Examples.foil_island_request
       (Catalog.database Examples.islands) oldest) = true
  /\ success
       (processBatch toUpperCase_ascii [Examples.foil_island_request]
          (fun cards =>
             Return (List.map
                       (fun card =>
                          lookupCard Examples.JSON_parse_string_array card
                            (Catalog.database Examples.islands) oldest)
                       cards)))
     = [lit "2 Island (LEA) 288 *F* #Land"].
Proof.
  assert (H : BatchResult.found
                (lookupCard Examples.JSON_parse_string_array
                   Examples.foil_island_request
                   (Catalog.database Examples.islands) oldest) = true)
    by (vm_compute; reflexivity).
  split; [exact H|].
  destruct (effective_finish_rendered toUpperCase_ascii
              Examples.JSON_parse_string_array
              Examples.foil_island_request
              (Catalog.database Examples.islands) oldest H)
    as (row & default & Hrow & _ & Hline & _).
  rewrite Hline. vm_compute in Hrow. injection Hrow as <- <-.
  vm_compute. reflexivity.
Defined.

Lemma processBatch_partition_witness :
  let cards := [Examples.foil_island_request; Examples.forest_request] in
  let lookup := batchLookup Examples.JSON_parse_string_array
                  (Some (Catalog.database Examples.islands)) oldest in
  exists entries : list entry,
    Forall2 (corresponds toUpperCase_ascii) cards entries
    /\ success (processBatch toUpperCase_ascii cards lookup)
       = succeeded_lines entries
    /\ failed (processBatch toUpperCase_ascii cards lookup)
       = failed_records entries
    /\ length (success (processBatch toUpperCase_ascii cards lookup))
       + length (failed (processBatch toUpperCase_ascii cards lookup))
       = length cards.
Proof.
  cbv zeta.
  refine (processBatch_partition toUpperCase_ascii
            [Examples.foil_island_request; Examples.forest_request]
            (batchLookup Examples.JSON_parse_string_array
               (Some (Catalog.database Examples.islands)) oldest)
            (List.map
               (fun card =>
                  lookupCard Examples.JSON_parse_string_array card
                    (Catalog.database Examples.islands) oldest)
               [Examples.foil_island_request; Examples.forest_request])
            _ _).
  - vm_compute. reflexivity.
  - vm_compute. reflexivity.
Defined.

Lemma batch_failure_reported_witness :
  let cards := [Examples.foil_island_request; Examples.forest_request] in
  let lookup := batchLookup Examples.JSON_parse_string_array None oldest in
  lookup cards = Throw (ErrorInstance (lit "Failed to lookup cards"))
  /\ success (processBatch toUpperCase_ascii cards lookup) = []
  /\ failed (processBatch toUpperCase_ascii cards lookup)
     = [Failure.mk (lit "Island") (lit "Failed to lookup cards");
        Failure.mk (lit "Forest") (lit "Failed to lookup cards")].
Proof.
  cbv zeta.
  assert (H : batchLookup Examples.JSON_parse_string_array None oldest
                [Examples.foil_island_request; Examples.forest_request]
              = Throw (ErrorInstance (lit "Failed to lookup cards")))
    by reflexivity.
  split; [exact H|].
  destruct (batch_failure_reported toUpperCase_ascii _ _ _ H)
    as (Hs & Hf & _).
  split; [exact Hs | exact Hf].
Defined.

Lemma lookup_error_is_not_found_witness :
  Examples.broken_database
    (mkStatement NameEquals oldest
       (trim (ParsedInputCard.name Examples.forest_request)))
  = Throw (ErrorInstance (lit "D1_ERROR: no such table: cards"))
  /\ processBatch toUpperCase_ascii [Examples.forest_request]
       (fun cards =>
          Return (List.map
                    (fun card =>
                       lookupCard Examples.JSON_parse_string_array card
                         Examples.broken_database oldest)
                    cards))
     = mkProcessed []
         [Failure.mk (lit "Forest") (lit "Card not found in database")].
Proof.
  split; [reflexivity|].
  apply (lookup_error_is_not_found toUpperCase_ascii
           Examples.JSON_parse_string_array Examples.forest_request
           Examples.broken_database oldest
           (ErrorInstance (lit "D1_ERROR: no such table: cards"))).
  left. reflexivity.
Defined.

(* ================================================================== *)
(** ** Which printing is selected *)




(* ================================================================== *)
(** ** Feeding a rendered line back *)

(** C4, as the code has it.  Take a request the parser produced, with
    a quantity that is a safe integer, and let its lookup select a
    printing that is printable: name trimmed, not empty, in the
    two-slash form and with its parentheses closed; upper-cased set
    code not empty and without closing parenthesis; collector number of
    one word that is not a finish marker; no [#] and no line break in
    any of them.  Then the request is resolved to one line; that line
    parses back to one request with the same quantity and tags, the
    printing's name and the finish that was rendered; and resolving it
    against the same catalog with the same sort order renders the same
    line again and nothing else. *)
Theorem rendered_line_round_trip
        (toUpperCase : jsstring -> jsstring)
        (JSON_parse : jsstring -> outcome json) :
  forall (rows : list Card.t) (order : sortOrder) (input : jsstring)
         (request : ParsedInputCard.t) (printing : Card.t)
         (default : jsstring),
    let env := Some (Catalog.database rows) in
    let line :=
      formatForMoxfield toUpperCase
        (CardLookupResult.mk true
           (Some (BatchResultCard.mk printing default))) request in
    In request (parseCardInput input) ->
    safe_quantity (ParsedInputCard.quantity request) ->
    lookupCard JSON_parse request (Catalog.database rows) order
    = BatchResult.mk true request
        (Some (BatchResultCard.mk printing default)) ->
    printable_row toUpperCase printing = true ->
    resolve toUpperCase JSON_parse env order [request]
    = mkProcessed [line] []
    /\ In printing rows
    /\ (exists finish,
          parseCardInput line
          = [ParsedInputCard.mk (Card.name printing)
               (ParsedInputCard.quantity request) finish
               (ParsedInputCard.tags request)])
    /\ resolve toUpperCase JSON_parse env order (parseCardInput line)
       = mkProcessed [line] [].
Proof.
  intros rows order input request printing default env line
         Hparsed _ Hlookup Hprintable.
  destruct (selected_line_round_trip toUpperCase JSON_parse rows order input
              request printing default Hparsed Hlookup Hprintable)
    as (finish & Hin & Hparse & Hagain & Hsame).
  assert (Hline : truthy line = true) by apply formatForMoxfield_truthy.
  unfold env. split; [|split; [exact Hin|split]].
  - rewrite resolve_single, Hlookup. unfold processResult.
    cbn [BatchResult.found BatchResult.result BatchResult.originalCard].
    fold line. rewrite Hline. reflexivity.
  - exists finish. exact Hparse.
  - unfold line at 1. rewrite Hparse, resolve_single, Hagain.
    unfold processResult.
    cbn [BatchResult.found BatchResult.result BatchResult.originalCard].
    rewrite Hsame. fold line. rewrite Hline. reflexivity.
Qed.

Lemma rendered_line_round_trip_witness :
  In (ParsedInputCard.mk (lit "island") (Int 2) (lit "F") (lit "#Land"))
     (parseCardInput (lit "2 island *F* #Land"))
  /\ resolve toUpperCase_ascii Examples.JSON_parse_string_array
       (Some (Catalog.database Examples.islands)) oldest
       [ParsedInputCard.mk (lit "island") (Int 2) (lit "F") (lit "#Land")]
     = mkProcessed [lit "2 Island (LEA) 288 *F* #Land"] []
  /\ resolve toUpperCase_ascii Examples.JSON_parse_string_array
       (Some (Catalog.database Examples.islands)) oldest
       (parseCardInput (lit "2 Island (LEA) 288 *F* #Land"))
     = mkProcessed [lit "2 Island (LEA) 288 *F* #Land"] [].
Proof.
  assert (H1 : In (ParsedInputCard.mk (lit "island") (Int 2) (lit "F")
                                      (lit "#Land"))
                  (parseCardInput (lit "2 island *F* #Land")))
    by (vm_compute; left; reflexivity).
  assert (H2 : safe_quantity (Int 2)) by (vm_compute; discriminate).
  assert (H3 : lookupCard Examples.JSON_parse_string_array
                 (ParsedInputCard.mk (lit "island") (Int 2) (lit "F")
                                     (lit "#Land"))
                 (Catalog.database Examples.islands) oldest
               = BatchResult.mk true
                   (ParsedInputCard.mk (lit "island") (Int 2) (lit "F")
                                       (lit "#Land"))
                   (Some (BatchResultCard.mk Examples.island_lea [])))
    by (vm_compute; reflexivity).
  assert (H4 : printable_row toUpperCase_ascii Examples.island_lea = true)
    by (vm_compute; reflexivity).
  split; [exact H1|].
  destruct (rendered_line_round_trip toUpperCase_ascii
              Examples.JSON_parse_string_array Examples.islands oldest
              (lit "2 island *F* #Land") _ _ _ H1 H2 H3 H4)
    as (Hfirst & _ & _ & Hsecond).
  split; [exact Hfirst | exact Hsecond].
Defined.

(** C4, as the specification words it, fails.  In a catalog that holds
    a "Forest" without collector number and a later "Forest Cave", the
    line rendered for [Forest] under [newest] ends after the set group;
    read back, the group is not stripped, the name [Forest (M21)]
    matches no row exactly, and the first-word search selects the other
    card. *)
Lemma rendered_line_not_reproduced :
  let rows := [Examples.forest_blank; Examples.forest_cave] in
  let resolveAll :=
    resolve toUpperCase_ascii Examples.JSON_parse_string_array
            (Some (Catalog.database rows)) newest in
  parseCardInput (lit "Forest") = [Examples.forest_request]
  /\ resolveAll [Examples.forest_request]
     = mkProcessed [lit "1 Forest (M21) "] []
  /\ parseCardInput (lit "1 Forest (M21) ")
     = [ParsedInputCard.mk (lit "Forest (M21)") (Int 1) [] []]
  /\ resolveAll (parseCardInput (lit "1 Forest (M21) "))
     = mkProcessed [lit "1 Forest Cave (ZNR) 9"] []
  /\ success (resolveAll (parseCardInput (lit "1 Forest (M21) ")))
     <> [lit "1 Forest (M21) "].
Proof.
  cbv zeta. repeat split; try (vm_compute; reflexivity).
  vm_compute. discriminate.
Qed.
(* ================================================================== *)
(** * Further properties of the code

    The parser line by line, the two endpoints side by side and the
    page with its session cache. *)

(* ================================================================== *)
(** ** Lines are parsed one by one *)

Lemma split_nonempty sep (s : jsstring) : split sep s <> [].
Proof.
  destruct s as [|c s]; cbn [split]; [discriminate|].
  destruct (char_eqb c sep); [discriminate|].
  destruct (split sep s); discriminate.
Qed.

Lemma split_app sep (a b : jsstring) :
  split sep (a ++ sep :: b) = split sep a ++ split sep b.
Proof.
  induction a as [|c a IH].
  - cbn [app split]. unfold char_eqb. now rewrite N.eqb_refl.
  - cbn [app split]. rewrite IH.
    destruct (char_eqb c sep); [reflexivity|].
    pose proof (split_nonempty sep a) as Hne.
    destruct (split sep a) as [|h t]; [contradiction | reflexivity].
Qed.

Lemma inputLines_app (a b : jsstring) :
  inputLines (a ++ 10%N :: b) = inputLines a ++ inputLines b.
Proof.
  unfold inputLines. now rewrite split_app, map_app, filter_app.
Qed.

Lemma parseCardInput_app (a b : jsstring) :
  parseCardInput (a ++ 10%N :: b) = parseCardInput a ++ parseCardInput b.
Proof.
  rewrite !parseCardInput_lines, inputLines_app. apply flat_map_app.
Qed.

Lemma parseCardInput_joined (texts : list jsstring) :
  parseCardInput (join [10%N] texts) = concat (List.map parseCardInput texts).
Proof.
  induction texts as [|text rest IH]; [reflexivity|].
  destruct rest as [|text' rest'].
  - cbn [join List.map concat]. now rewrite app_nil_r.
  - change (join [10%N] (text :: text' :: rest'))
      with (text ++ 10%N :: join [10%N] (text' :: rest')).
    rewrite parseCardInput_app, IH. reflexivity.
Qed.

(** X1.  The texts of a list joined by line breaks parse to the
    concatenation of what each text parses to: every line is parsed on
    its own. *)
Theorem parseCardInput_join (texts : list jsstring) :
  parseCardInput (join [10%N] texts) = concat (List.map parseCardInput texts).
Proof. apply parseCardInput_joined. Qed.

(* ================================================================== *)
(** ** Which lines give a request *)

Lemma trim_nil_iff s : trim s = [] <-> forallb is_space s = true.
Proof.
  split; [|apply trim_nil_blanks].
  unfold trim. intros H.
  apply (f_equal (@rev _)) in H. rewrite rev_involutive in H. cbn [rev] in H.
  apply dropWhile_nil_all in H. rewrite forallb_rev in H.
  pose proof (dropWhile_head is_space s) as Hh.
  destruct (dropWhile is_space s) as [|c r] eqn:E.
  - now apply dropWhile_nil_all.
  - cbn [forallb] in H. rewrite Hh in H. discriminate.
Qed.

Lemma trim_tight_or_nil s : trim s <> [] -> tight (trim s).
Proof.
  intros H. destruct (trim_result s) as [E | T]; [contradiction | exact T].
Qed.

Lemma starts_tight_trim s : starts_tight s -> tight (trim s).
Proof.
  intros H. apply trim_tight_or_nil. intros E.
  apply trim_nil_iff in E. destruct s as [|c s]; [destruct H|].
  cbn in H, E. rewrite H in E. discriminate.
Qed.

Lemma ends_tight_trim s : ends_tight s -> tight (trim s).
Proof.
  intros H. apply trim_tight_or_nil. intros E.
  apply trim_nil_iff in E.
  destruct (ends_tight_last_char s H) as (s' & b & -> & Hb).
  rewrite forallb_app in E. cbn in E. rewrite Hb in E.
  now rewrite andb_false_r in E.
Qed.

Lemma tight_nonempty s : tight s -> s <> [].
Proof. intros [H _] ->. exact H. Qed.

(** A leftmost match is a match at some suffix of the subject. *)
Lemma search_from_split re s :
  forall i m,
    search_from re s i = Some m ->
    exists a b, s = a ++ b /\ match_at re b (i + length a) = Some m.
Proof.
  induction s as [|c s IH]; intros i m; cbn [search_from].
  - destruct (match_at re [] i) eqn:E; [|discriminate].
    intros [= <-]. exists [], []. cbn [length]. now rewrite Nat.add_0_r.
  - destruct (match_at re (c :: s) i) eqn:E.
    + intros [= <-]. exists [], (c :: s). cbn [length].
      now rewrite Nat.add_0_r.
    + intros H. apply IH in H as (a & b & -> & H).
      exists (c :: a), b. split; [reflexivity|].
      cbn [length]. now rewrite Nat.add_succ_r.
Qed.

(** A pattern that starts with [\s+] matches after a non-empty prefix of
    a text that starts with something else. *)
Lemma leading_blank_match re s m :
  unambiguous (Plus is_space :: re) -> starts_tight s ->
  str_match (Plus is_space :: re) s = Some m ->
  exists a b, s = a ++ b /\ starts_tight a /\ index m = length a.
Proof.
  intros U Hs H. unfold str_match in H.
  apply search_from_split in H as (a & b & -> & H).
  rewrite match_at_dexec in H by exact U.
  destruct (dexec _ _) as [st|] eqn:D; [|discriminate].
  injection H as <-. cbn [index]. exists a, b.
  split; [reflexivity|]. split; [|reflexivity].
  destruct a as [|c a]; [|exact Hs].
  cbn [app] in Hs. cbn [dexec rest] in D.
  destruct b as [|c b]; [destruct Hs|]. cbn in Hs. now rewrite Hs in D.
Qed.

Lemma firstn_length_app {A} (a b : list A) : firstn (length a) (a ++ b) = a.
Proof.
  rewrite firstn_app, Nat.sub_diag, firstn_all. cbn [firstn].
  apply app_nil_r.
Qed.

Lemma skipn_length_app {A} (a b : list A) : skipn (length a) (a ++ b) = b.
Proof.
  rewrite skipn_app, Nat.sub_diag, skipn_all. reflexivity.
Qed.

Lemma extractFoil_tight s : tight s -> tight (snd (extractFoil s)).
Proof.
  intros T. unfold extractFoil.
  destruct (str_match foilRe s) as [m|] eqn:E; [|exact T].
  cbn [snd]. unfold substring_to.
  apply leading_blank_match in E as (a & b & -> & Ha & ->);
    [|exact unambiguous_foilRe | exact (proj1 T)].
  rewrite firstn_length_app. now apply starts_tight_trim.
Qed.

Lemma stripSetCode_tight s : tight s -> tight (stripSetCode s).
Proof.
  intros T. unfold stripSetCode, replace_first.
  destruct (str_match setRe s) as [m|] eqn:E.
  - apply leading_blank_match in E as (a & b & -> & Ha & ->);
      [|exact unambiguous_setRe | exact (proj1 T)].
    rewrite firstn_length_app. cbn [app].
    apply starts_tight_trim. now apply starts_tight_app.
  - rewrite trim_tight; [exact T | apply T | apply T].
Qed.

Lemma quantity_prefix_blank s digits n :
  quantity_prefix s = Some (digits, n) ->
  exists before blank, s = before ++ blank :: skipn n s /\ is_space blank = true.
Proof.
  unfold quantity_prefix. intros H.
  pose proof (takeWhile_dropWhile is_digit s) as Hs.
  destruct (opt_x (dropWhile is_digit s)) as [x r] eqn:Hx.
  assert (Hx' : dropWhile is_digit s = x ++ r).
  { unfold opt_x in Hx. destruct (dropWhile is_digit s) as [|c r'].
    - now injection Hx as <- <-.
    - destruct (is_x c); now injection Hx as <- <-. }
  pose proof (takeWhile_dropWhile is_space r) as Hr.
  pose proof (takeWhile_forallb is_space r) as Hb.
  destruct (takeWhile is_digit s) as [|d ds] eqn:Hds; [discriminate|].
  destruct (takeWhile is_space r) as [|b bs] eqn:Hbs; [discriminate|].
  injection H as <- <-.
  assert (Hne : b :: bs <> []) by discriminate.
  destruct (exists_last Hne) as (bs' & blank & Hlast).
  change (S (length ds + length x + S (length bs)))
    with (length (d :: ds) + length x + length (b :: bs)).
  rewrite Hlast in Hb, Hr |- *.
  rewrite forallb_app in Hb. apply andb_true_iff in Hb as [_ Hb].
  cbn [forallb] in Hb. rewrite andb_true_r in Hb.
  assert (Hsplit : s = ((d :: ds) ++ x ++ bs') ++ blank :: dropWhile is_space r).
  { rewrite <- Hs at 1. rewrite Hx', <- Hr at 1.
    rewrite <- !app_assoc. reflexivity. }
  exists ((d :: ds) ++ x ++ bs'), blank. split; [|exact Hb].
  rewrite Hsplit at 1. do 2 f_equal.
  rewrite Hsplit.
  replace (length (d :: ds) + length x + length (bs' ++ [blank]))
    with (length (((d :: ds) ++ x ++ bs') ++ [blank]))
    by (rewrite !length_app; cbn [length]; lia).
  change (blank :: dropWhile is_space r)
    with ([blank] ++ dropWhile is_space r).
  rewrite (app_assoc ((d :: ds) ++ x ++ bs') [blank]).
  symmetry. apply skipn_length_app.
Qed.

Lemma extractQuantity_tight s : tight s -> tight (snd (extractQuantity s)).
Proof.
  intros T. rewrite extractQuantity_spec.
  destruct (quantity_prefix s) as [[digits n]|] eqn:E; [|exact T].
  cbn [snd].
  destruct (quantity_prefix_blank _ _ _ E) as (before & blank & Hs & Hb).
  apply ends_tight_trim.
  destruct T as [_ He]. rewrite Hs in He.
  destruct (skipn n s) as [|c r] eqn:Hk.
  - apply ends_tight_last_char in He as (s' & b & Hl & Hb').
    apply app_inj_tail in Hl as [_ <-]. congruence.
  - change (before ++ blank :: c :: r) with (before ++ [blank] ++ c :: r) in He.
    rewrite app_assoc in He.
    apply ends_tight_suffix in He; [exact He | discriminate].
Qed.

(** What a match of the slash pattern at the start of a text reads. *)
Lemma slashRe_match s m :
  match_at slashRe s 0 = Some m ->
  exists blanks1 blanks2 r,
    s = (blanks1 ++ chr "/" :: blanks2) ++ r
    /\ blanks2 <> [] /\ forallb is_space blanks2 = true
    /\ matched m = blanks1 ++ chr "/" :: blanks2.
Proof.
  rewrite match_at_dexec by exact unambiguous_slashRe.
  destruct (dexec slashRe _) as [st|] eqn:D; [|discriminate].
  intros [= <-]. cbn [matched].
  unfold slashRe in D. cbn [dexec rest] in D.
  destruct s as [|c s']; [discriminate|].
  destruct (is_space c) eqn:Hc; [|discriminate].
  set (st1 := after_run is_space (mkState (c :: s') 0 (c :: s') None)) in D.
  pose proof (takeWhile_dropWhile is_space (c :: s')) as Hsplit1.
  assert (Hr1 : rest st1 = dropWhile is_space (c :: s')) by reflexivity.
  assert (Hp1 : pos st1 = length (takeWhile is_space (c :: s')))
    by reflexivity.
  destruct (rest st1) as [|c2 s2] eqn:E1; [discriminate|].
  destruct (is_chr "/" c2) eqn:Hc2; [|discriminate].
  cbn [advance rest] in D.
  destruct s2 as [|c3 s3] eqn:E2; [discriminate|].
  destruct (is_space c3) eqn:Hc3; [|discriminate].
  injection D as <-.
  unfold after_run at 1. cbn [pos rest advance]. rewrite Hp1.
  pose proof (takeWhile_dropWhile is_space (c3 :: s3)) as Hsplit2.
  pose proof (takeWhile_forallb is_space (c3 :: s3)) as Hb2.
  unfold is_chr, char_eqb in Hc2. apply N.eqb_eq in Hc2. subst c2.
  exists (takeWhile is_space (c :: s')), (takeWhile is_space (c3 :: s3)),
         (dropWhile is_space (c3 :: s3)).
  assert (Hs : c :: s' =
               (takeWhile is_space (c :: s')
                  ++ chr "/" :: takeWhile is_space (c3 :: s3))
                 ++ dropWhile is_space (c3 :: s3)).
  { rewrite <- Hsplit1 at 1. rewrite <- Hr1.
    rewrite <- app_assoc. cbn [app]. now rewrite Hsplit2. }
  split; [exact Hs|].
  split; [cbn [takeWhile]; rewrite Hc3; discriminate|].
  split; [exact Hb2|].
  rewrite Nat.sub_0_r.
  replace (S (length (takeWhile is_space (c :: s')))
           + length (takeWhile is_space (c3 :: s3)))
    with (length (takeWhile is_space (c :: s')
                    ++ chr "/" :: takeWhile is_space (c3 :: s3)))
    by (rewrite length_app; cbn [length]; lia).
  rewrite Hs at 2. apply firstn_length_app.
Qed.

Lemma slashRe_match_inside s m :
  ends_tight s -> match_at slashRe s 0 = Some m ->
  1 <= length (matched m) < length s.
Proof.
  intros He H.
  apply slashRe_match in H as (b1 & b2 & r & Hs & Hne & Hb & ->).
  split; [rewrite length_app; cbn [length]; lia|].
  rewrite Hs, (length_app _ r).
  destruct r as [|c r]; [|cbn [length]; lia].
  exfalso. rewrite app_nil_r in Hs. rewrite Hs in He.
  destruct (exists_last Hne) as (b2' & b & ->).
  rewrite forallb_app in Hb. apply andb_true_iff in Hb as [_ Hb].
  cbn [forallb] in Hb. rewrite andb_true_r in Hb.
  change (b1 ++ chr "/" :: b2' ++ [b]) with (b1 ++ (chr "/" :: b2') ++ [b])
    in He.
  rewrite app_assoc in He.
  apply ends_tight_last_char in He as (s' & b' & Hl & Hb').
  apply app_inj_tail in Hl as [_ <-]. congruence.
Qed.

Lemma replace_all_ends_tight by_ :
  forall s skip,
    ends_tight s -> skip < length s ->
    ends_tight (replace_all_from slashRe by_ skip s).
Proof.
  induction s as [|c s IH]; intros skip He Hlt; [destruct He|].
  assert (Htail : s <> [] -> ends_tight s)
    by (intros Hne; apply (ends_tight_suffix [c] s He Hne)).
  destruct skip as [|skip]; cbn [replace_all_from].
  - destruct (match_at slashRe (c :: s) 0) as [m|] eqn:E.
    + destruct (slashRe_match_inside _ _ He E) as [H1 H2].
      cbn [length] in H2. apply ends_tight_app.
      assert (Hne : s <> []) by (destruct s; [cbn in H2; lia | discriminate]).
      apply IH; [now apply Htail | lia].
    + destruct s as [|c' s'].
      * exact He.
      * apply ends_tight_cons. apply IH; [apply Htail; discriminate|].
        cbn [length]. lia.
  - cbn [length] in Hlt.
    assert (Hne : s <> []) by (destruct s; [cbn in Hlt; lia | discriminate]).
    apply IH; [now apply Htail | lia].
Qed.

Lemma normalizeSlash_tight s : tight s -> tight (normalizeSlash s).
Proof.
  intros [Hs He]. split.
  - unfold normalizeSlash, replace_all.
    destruct s as [|c s]; [destruct Hs|]. cbn [replace_all_from].
    assert (E : match_at slashRe (c :: s) 0 = None).
    { rewrite match_at_dexec by exact unambiguous_slashRe.
      cbn [slashRe dexec rest]. cbn in Hs. now rewrite Hs. }
    rewrite E. exact Hs.
  - apply replace_all_ends_tight; [exact He|].
    destruct s; [destruct Hs | cbn [length]; lia].
Qed.

(** The name a line with a non-blank body gives. *)
Lemma parseLine_name line :
  trim (fst (extractTags line)) <> [] ->
  exists card,
    parseLine line = Some card /\ tight (ParsedInputCard.name card).
Proof.
  intros Hbody. rewrite parseLine_steps. cbv zeta.
  set (name := normalizeSlash _).
  assert (T : tight name).
  { apply normalizeSlash_tight, stripSetCode_tight, extractFoil_tight,
      extractQuantity_tight. now apply trim_tight_or_nil. }
  pose proof (tight_nonempty _ T) as Hne.
  apply truthy_nonempty in Hne. rewrite Hne. eexists. split; [reflexivity|].
  exact T.
Qed.

Lemma parseLine_blank line :
  trim (fst (extractTags line)) = [] -> parseLine line = None.
Proof.
  intros Hbody. rewrite parseLine_steps. cbv zeta. rewrite Hbody.
  reflexivity.
Qed.

(** A line is left out exactly when nothing but white space stands
    before its first [#]. *)
Lemma parseLine_skips_blank_body (line : jsstring) :
  parseLine line = None <-> trim (fst (extractTags line)) = [].
Proof.
  split; [|apply parseLine_blank].
  intros H.
  destruct (trim (fst (extractTags line))) as [|c body] eqn:E;
    [reflexivity|].
  destruct (parseLine_name line) as (card & Hcard & _);
    [rewrite E; discriminate | congruence].
Qed.


(* ------------------------------------------------------------------ *)
(** Characters a step of the parser can leave in the text. *)

Lemma forallb_firstn {A} (q : A -> bool) n (l : list A) :
  forallb q l = true -> forallb q (firstn n l) = true.
Proof.
  intros H. rewrite <- (firstn_skipn n l), forallb_app in H.
  now apply andb_true_iff in H.
Qed.

Lemma forallb_skipn {A} (q : A -> bool) n (l : list A) :
  forallb q l = true -> forallb q (skipn n l) = true.
Proof.
  intros H. rewrite <- (firstn_skipn n l), forallb_app in H.
  now apply andb_true_iff in H.
Qed.

Lemma extractTags_keeps q line :
  forallb q line = true ->
  forallb q (fst (extractTags line)) = true
  /\ forallb (fun c => negb (char_eqb c (chr "#"))) (fst (extractTags line))
     = true.
Proof.
  intros H. unfold extractTags. cbn [fst].
  pose proof (split_parts (chr "#") q line H) as Hparts.
  destruct (split (chr "#") line) as [|first parts]; [now split|].
  inversion Hparts as [|? ? Hfirst _]; subst. exact Hfirst.
Qed.

Lemma extractQuantity_keeps q s :
  forallb q s = true -> forallb q (snd (extractQuantity s)) = true.
Proof.
  intros H. rewrite extractQuantity_spec.
  destruct (quantity_prefix s) as [[digits n]|]; [|exact H].
  cbn [snd]. now apply forallb_trim, forallb_skipn.
Qed.

Lemma extractFoil_keeps q s :
  forallb q s = true -> forallb q (snd (extractFoil s)) = true.
Proof.
  intros H. unfold extractFoil.
  destruct (str_match foilRe s) as [m|]; [|exact H].
  cbn [snd]. now apply forallb_trim, forallb_firstn.
Qed.

Lemma stripSetCode_keeps q s :
  forallb q s = true -> forallb q (stripSetCode s) = true.
Proof.
  intros H. unfold stripSetCode, replace_first. apply forallb_trim.
  destruct (str_match setRe s) as [m|]; [|exact H].
  cbn [app]. rewrite forallb_app.
  now rewrite forallb_firstn, forallb_skipn.
Qed.

Lemma replace_all_keeps q re by_ :
  forallb q by_ = true ->
  forall s skip, forallb q s = true ->
                 forallb q (replace_all_from re by_ skip s) = true.
Proof.
  intros Hby. induction s as [|c s IH]; intros skip H.
  - now destruct skip.
  - cbn [forallb] in H. apply andb_true_iff in H as [Hc Hs].
    destruct skip as [|skip]; cbn [replace_all_from]; [|now apply IH].
    destruct (match_at re (c :: s) 0) as [m|].
    + rewrite forallb_app, Hby. now apply IH.
    + cbn [forallb]. rewrite Hc. now apply IH.
Qed.

Lemma normalizeSlash_keeps q s :
  q 32%N = true -> q 47%N = true ->
  forallb q s = true -> forallb q (normalizeSlash s) = true.
Proof.
  intros Hb Hs H. apply replace_all_keeps; [|exact H].
  cbn. now rewrite Hb, Hs.
Qed.

Lemma inputLines_keeps q input line :
  forallb q input = true -> In line (inputLines input) ->
  forallb q line = true.
Proof.
  intros H Hin. unfold inputLines in Hin.
  apply filter_In in Hin as [Hin _].
  apply in_map_iff in Hin as (part & <- & Hin).
  pose proof (split_parts 10%N q input H) as Hparts.
  rewrite Forall_forall in Hparts.
  apply forallb_trim. now apply Hparts.
Qed.

Lemma parseLine_name_keeps q line card :
  q 32%N = true -> q 47%N = true ->
  forallb q line = true -> parseLine line = Some card ->
  forallb (fun c => q c && negb (char_eqb c (chr "#")))
          (ParsedInputCard.name card) = true.
Proof.
  intros Hb Hs H. rewrite parseLine_steps. cbv zeta.
  destruct (truthy _); [|discriminate]. intros [= <-].
  cbn [ParsedInputCard.name].
  destruct (extractTags_keeps q line H) as [H1 H2].
  pose proof (forallb_and_intro _ _ _ H1 H2) as H3.
  apply normalizeSlash_keeps; [now rewrite Hb | now rewrite Hs|].
  now apply stripSetCode_keeps, extractFoil_keeps, extractQuantity_keeps,
    forallb_trim.
Qed.

(** X4.  The name of every request the parser emits is not empty, has
    no white space at either end and holds neither [#] nor a line
    break. *)
Theorem parsed_name_is_trimmed (input : jsstring) (request : ParsedInputCard.t) :
  In request (parseCardInput input) ->
  ParsedInputCard.name request <> []
  /\ trim (ParsedInputCard.name request) = ParsedInputCard.name request
  /\ forallb plain (ParsedInputCard.name request) = true.
Proof.
  intros Hin. rewrite parseCardInput_lines in Hin.
  apply in_flat_map in Hin as (line & Hline & Hcard).
  destruct (parseLine line) as [card|] eqn:Hparse; [|destruct Hcard].
  destruct Hcard as [->|[]].
  destruct (trim (fst (extractTags line))) as [|c body] eqn:E.
  - rewrite parseLine_blank in Hparse by exact E. discriminate.
  - destruct (parseLine_name line) as (card' & Hcard & T);
      [rewrite E; discriminate|].
    rewrite Hparse in Hcard. injection Hcard as <-.
    split; [now apply tight_nonempty|].
    split; [apply trim_tight; apply T|].
    pose proof (parseLine_name_keeps
                  (fun c => negb (char_eqb c 10%N)) line request
                  eq_refl eq_refl (inputLines_no_newline input line Hline)
                  Hparse) as H.
    eapply forallb_weaken; [|exact H].
    intros a Ha. apply andb_true_iff in Ha as [Ha1 Ha2].
    unfold plain, is_chr. now rewrite Ha1, Ha2.
Qed.

Lemma parsed_name_is_trimmed_witness :
  In (ParsedInputCard.mk (lit "Fire // Ice") (Int 2) (lit "F") (lit "#Split"))
     (parseCardInput (lit "  2x Fire / Ice (APC) 128 *f*  #Split "))
  /\ lit "Fire // Ice" <> []
  /\ trim (lit "Fire // Ice") = lit "Fire // Ice"
  /\ forallb plain (lit "Fire // Ice") = true.
Proof.
  assert (H : In (ParsedInputCard.mk (lit "Fire // Ice") (Int 2) (lit "F")
                    (lit "#Split"))
                 (parseCardInput
                    (lit "  2x Fire / Ice (APC) 128 *f*  #Split ")))
    by (vm_compute; left; reflexivity).
  split; [exact H|].
  exact (parsed_name_is_trimmed _ _ H).
Defined.

(* ================================================================== *)
(** ** The finish marker *)

Lemma foilRe_reads_asterisk s i o g st' :
  dexec foilRe (mkState s i o g) = Some st' ->
  existsb (is_chr "*") s = true.
Proof.
  unfold foilRe. cbn [dexec rest pos opened group1 after_run advance].
  destruct s as [|w s0]; [discriminate|].
  destruct (is_space w) eqn:Hw; [|discriminate].
  pose proof (takeWhile_dropWhile is_space (w :: s0)) as Hsplit.
  destruct (dropWhile is_space (w :: s0)) as [|a s2] eqn:E1; [discriminate|].
  destruct (is_chr "*" a) eqn:Ha; [|discriminate].
  intros _. rewrite <- Hsplit, existsb_app. cbn [existsb].
  rewrite Ha. now rewrite orb_true_r.
Qed.

Lemma extractFoil_needs_asterisk s :
  forallb (is_not (is_chr "*")) s = true -> fst (extractFoil s) = [].
Proof.
  intros H. unfold extractFoil.
  destruct (str_match foilRe s) as [m|] eqn:E; [|reflexivity].
  exfalso. unfold str_match in E.
  apply search_from_split in E as (a & b & -> & E).
  rewrite match_at_dexec in E by exact unambiguous_foilRe.
  destruct (dexec foilRe _) as [st'|] eqn:D; [|discriminate].
  apply foilRe_reads_asterisk in D.
  rewrite forallb_app in H. apply andb_true_iff in H as [_ H].
  clear - H D. induction b as [|c b IH]; [discriminate|].
  cbn [existsb forallb] in *. unfold is_not in H at 1.
  apply andb_true_iff in H as [Hc Hb]. apply negb_true_iff in Hc.
  rewrite Hc in D. now apply IH.
Qed.

(** X5.  A request carries a finish only when its line holds an
    asterisk: without one the finish is empty, whatever letters end
    the line. *)
Theorem finish_needs_asterisk (input : jsstring) (request : ParsedInputCard.t) :
  forallb (is_not (is_chr "*")) input = true ->
  In request (parseCardInput input) ->
  ParsedInputCard.foilStatus request = [].
Proof.
  intros Hno Hin. rewrite parseCardInput_lines in Hin.
  apply in_flat_map in Hin as (line & Hline & Hcard).
  destruct (parseLine line) as [card|] eqn:Hparse; [|destruct Hcard].
  destruct Hcard as [->|[]].
  pose proof (inputLines_keeps _ _ _ Hno Hline) as Hl.
  rewrite parseLine_steps in Hparse. cbv zeta in Hparse.
  destruct (truthy _) in Hparse; [|discriminate].
  injection Hparse as <-. cbn [ParsedInputCard.foilStatus].
  apply extractFoil_needs_asterisk, extractQuantity_keeps, forallb_trim.
  now apply extractTags_keeps.
Qed.

Lemma finish_needs_asterisk_witness :
  forallb (is_not (is_chr "*")) (lit "1 Big Score F") = true
  /\ In (ParsedInputCard.mk (lit "Big Score F") (Int 1) [] [])
        (parseCardInput (lit "1 Big Score F"))
  /\ ParsedInputCard.foilStatus
       (ParsedInputCard.mk (lit "Big Score F") (Int 1) [] []) = [].
Proof.
  assert (H1 : forallb (is_not (is_chr "*")) (lit "1 Big Score F") = true)
    by reflexivity.
  assert (H2 : In (ParsedInputCard.mk (lit "Big Score F") (Int 1) [] [])
                  (parseCardInput (lit "1 Big Score F")))
    by (vm_compute; left; reflexivity).
  split; [exact H1|]. split; [exact H2|].
  exact (finish_needs_asterisk _ _ H1 H2).
Defined.

(* ================================================================== *)
(** ** Line endings *)

Lemma dropWhile_snoc_blank s c :
  is_space c = true ->
  dropWhile is_space (s ++ [c])
  = match dropWhile is_space s with
    | [] => []
    | r => r ++ [c]
    end.
Proof.
  intros Hc. induction s as [|x s IH]; cbn [app dropWhile].
  - now rewrite Hc.
  - destruct (is_space x); [exact IH | reflexivity].
Qed.

Lemma trim_snoc_blank s c : is_space c = true -> trim (s ++ [c]) = trim s.
Proof.
  intros Hc. unfold trim. rewrite dropWhile_snoc_blank by exact Hc.
  destruct (dropWhile is_space s) as [|x r]; [reflexivity|].
  rewrite rev_app_distr. cbn [rev app dropWhile]. now rewrite Hc.
Qed.

Lemma split_snoc sep (s : jsstring) c :
  char_eqb c sep = false ->
  split sep (s ++ [c])
  = removelast (split sep s) ++ [last (split sep s) [] ++ [c]].
Proof.
  intros Hc. induction s as [|x s IH].
  - cbn. now rewrite Hc.
  - cbn [app split]. rewrite IH.
    pose proof (split_nonempty sep s) as Hne.
    destruct (char_eqb x sep).
    + destruct (split sep s) as [|h t]; [contradiction|]. reflexivity.
    + destruct (split sep s) as [|h t]; [contradiction|].
      destruct t as [|h' t']; reflexivity.
Qed.

Lemma inputLines_snoc_blank s c :
  is_space c = true -> char_eqb c 10%N = false ->
  inputLines (s ++ [c]) = inputLines s.
Proof.
  intros Hc Hn. unfold inputLines. rewrite split_snoc by exact Hn.
  pose proof (split_nonempty 10%N s) as Hne.
  rewrite (app_removelast_last [] Hne) at 3.
  rewrite !map_app. cbn [List.map]. now rewrite trim_snoc_blank.
Qed.

(** X2.  A list pasted with carriage-return line-feed line endings gives
    the same requests as the same list with plain line feeds. *)
Theorem parseCardInput_crlf (texts : list jsstring) :
  parseCardInput (join [13%N; 10%N] texts)
  = parseCardInput (join [10%N] texts).
Proof.
  induction texts as [|text rest IH]; [reflexivity|].
  destruct rest as [|text' rest']; [reflexivity|].
  change (join [13%N; 10%N] (text :: text' :: rest'))
    with (text ++ [13%N] ++ 10%N :: join [13%N; 10%N] (text' :: rest')).
  change (join [10%N] (text :: text' :: rest'))
    with (text ++ 10%N :: join [10%N] (text' :: rest')).
  rewrite app_assoc, !parseCardInput_app, IH. f_equal.
  rewrite !parseCardInput_lines.
  now rewrite inputLines_snoc_blank.
Qed.

(** X3.  The parser emits one request for each non-blank line that has
    text before its first [#], and nothing for the other lines. *)
Theorem parseCardInput_count (input : jsstring) :
  length (parseCardInput input)
  = length (filter (fun line => truthy (trim (fst (extractTags line))))
                   (inputLines input)).
Proof.
  rewrite parseCardInput_lines.
  induction (inputLines input) as [|line lines IH]; [reflexivity|].
  cbn [flat_map filter]. rewrite length_app, IH.
  destruct (trim (fst (extractTags line))) as [|c body] eqn:E.
  - rewrite parseLine_blank by exact E. reflexivity.
  - destruct (parseLine_name line) as (card & -> & _);
      [rewrite E; discriminate | reflexivity].
Qed.

(* ================================================================== *)
(** ** formatForMoxfield without a printing *)

(** X9.  [formatForMoxfield] returns the empty string exactly when the
    result is not found or carries no printing. *)
Theorem formatForMoxfield_empty (toUpperCase : jsstring -> jsstring)
        (dbResult : CardLookupResult.t) (originalInput : ParsedInputCard.t) :
  formatForMoxfield toUpperCase dbResult originalInput = []
  <-> CardLookupResult.found dbResult = false
      \/ CardLookupResult.card dbResult = None.
Proof.
  destruct dbResult as [[|] [card|]]; cbn [CardLookupResult.found CardLookupResult.card].
  - pose proof (@formatForMoxfield_truthy toUpperCase card originalInput) as H.
    split.
    + intros E. rewrite E in H. discriminate.
    + intros [E|E]; discriminate.
  - split; [now right | reflexivity].
  - split; [now left | reflexivity].
  - split; [now left | reflexivity].
Qed.

(* ================================================================== *)
(** ** The whole pipeline *)

Lemma map_originalCard JSON_parse db order cards :
  List.map (fun r => BatchResult.originalCard r)
    (List.map (fun card => lookupCard JSON_parse card db order) cards)
  = cards.
Proof.
  rewrite map_map. rewrite <- (map_id cards) at 2.
  apply map_ext. intros card. apply lookupCard_originalCard.
Qed.

Lemma Forall2_entries toUpperCase results :
  Forall2 (corresponds toUpperCase)
    (List.map (fun r => BatchResult.originalCard r) results)
    (List.map (entry_of toUpperCase) results).
Proof.
  induction results as [|r results IH]; cbn [List.map]; constructor;
    [apply entry_of_corresponds | exact IH].
Qed.

Lemma failed_records_failed (records : list Failure.t) :
  failed_records (List.map Failed records) = records
  /\ succeeded_lines (List.map Failed records) = [].
Proof.
  induction records as [|f records [IH1 IH2]]; [now split|].
  cbn [List.map failed_records succeeded_lines flat_map app] in *.
  unfold failed_records, succeeded_lines in IH1, IH2.
  now rewrite IH1, IH2.
Qed.

(** X10.  Whatever the database binding and the catalog do, the page's
    pipeline answers every request exactly once, in order: by a line of
    [success] rendered from it or by a record of [failed] that carries
    its name.  Without a database binding every request is reported with
    the reason ['Failed to lookup cards']. *)
Theorem resolve_answers_every_request
        (toUpperCase : jsstring -> jsstring)
        (JSON_parse : jsstring -> outcome json)
        (env : option D1Database) (order : sortOrder)
        (parsedCards : list ParsedInputCard.t) :
  let out := resolve toUpperCase JSON_parse env order parsedCards in
  (exists entries,
      Forall2 (corresponds toUpperCase) parsedCards entries
      /\ success out = succeeded_lines entries
      /\ failed out = failed_records entries)
  /\ length (success out) + length (failed out) = length parsedCards
  /\ (env = None ->
      out = mkProcessed []
              (List.map (fun card =>
                           Failure.mk (ParsedInputCard.name card)
                                      (lit "Failed to lookup cards"))
                        parsedCards)).
Proof.
  intros out.
  assert (Hthrow :
            batchLookup JSON_parse env order parsedCards
            = Throw (ErrorInstance (lit "Failed to lookup cards")) ->
            out = mkProcessed []
                    (List.map (fun card =>
                                 Failure.mk (ParsedInputCard.name card)
                                            (lit "Failed to lookup cards"))
                              parsedCards)).
  { intros H. unfold out, resolve, processBatch. rewrite H.
    cbn [bind try_catch]. now rewrite fold_processFailure. }
  assert (Hfailed :
            out = mkProcessed []
                    (List.map (fun card =>
                                 Failure.mk (ParsedInputCard.name card)
                                            (lit "Failed to lookup cards"))
                              parsedCards) ->
            (exists entries,
                Forall2 (corresponds toUpperCase) parsedCards entries
                /\ success out = succeeded_lines entries
                /\ failed out = failed_records entries)
            /\ length (success out) + length (failed out)
               = length parsedCards).
  { intros ->. cbn [success failed]. split; [|now rewrite length_map].
    exists (List.map (fun card =>
                        Failed (Failure.mk (ParsedInputCard.name card)
                                  (lit "Failed to lookup cards")))
                     parsedCards).
    rewrite <- (map_map _ Failed).
    destruct (failed_records_failed
                (List.map (fun card =>
                             Failure.mk (ParsedInputCard.name card)
                                        (lit "Failed to lookup cards"))
                          parsedCards)) as [-> ->].
    split; [|now split].
    rewrite map_map. clear. induction parsedCards as [|c l IH];
      cbn [List.map]; constructor; [reflexivity | exact IH]. }
  destruct env as [db|].
  - assert (Hcase : parsedCards = [] \/ parsedCards <> [])
      by (destruct parsedCards; [left | right]; congruence).
    destruct Hcase as [Hnil | Hne].
    + assert (H : batchLookup JSON_parse (Some db) order parsedCards
                  = Throw (ErrorInstance (lit "Failed to lookup cards")))
        by now rewrite Hnil.
      destruct (Hfailed (Hthrow H)) as [H1 H2].
      split; [exact H1|]. split; [exact H2 | discriminate].
    + assert (Hout : out = mkProcessed
                (succeeded_lines
                   (List.map (entry_of toUpperCase)
                      (List.map (fun card =>
                                   lookupCard JSON_parse card db order)
                                parsedCards)))
                (failed_records
                   (List.map (entry_of toUpperCase)
                      (List.map (fun card =>
                                   lookupCard JSON_parse card db order)
                                parsedCards)))).
      { unfold out, resolve, processBatch, batchLookup.
        rewrite POST_results by exact Hne. cbn [bind try_catch].
        now rewrite fold_processResult. }
      rewrite Hout. cbn [success failed].
      split; [|split; [|discriminate]].
      * eexists. split; [|split; reflexivity].
        rewrite <- (map_originalCard JSON_parse db order parsedCards) at 1.
        apply Forall2_entries.
      * now rewrite entries_count, !length_map.
  - specialize (Hthrow eq_refl). destruct (Hfailed Hthrow) as [H1 H2].
    split; [exact H1|]. split; [exact H2 | intros _; exact Hthrow].
Qed.

(* ================================================================== *)
(** ** Names are compared without regard to ASCII case *)

Lemma lower_ascii_space c : is_space (lower_ascii c) = is_space c.
Proof.
  unfold lower_ascii.
  destruct ((65 <=? c) && (c <=? 90))%N eqn:E; [|reflexivity].
  apply andb_true_iff in E as [E1 E2].
  apply N.leb_le in E1, E2. unfold is_space.
  repeat match goal with
         | |- context [(?a <=? ?b)%N] =>
             destruct (N.leb_spec a b); try lia
         | |- context [(?a =? ?b)%N] =>
             destruct (N.eqb_spec a b); try lia
         end; reflexivity.
Qed.

Lemma lower_ascii_word_end c : is_word_end (lower_ascii c) = is_word_end c.
Proof.
  unfold is_word_end. rewrite lower_ascii_space. f_equal; [f_equal|].
  - unfold lower_ascii, is_chr, char_eqb, chr.
    destruct ((65 <=? c) && (c <=? 90))%N eqn:E; [|reflexivity].
    apply andb_true_iff in E as [E1 E2]. apply N.leb_le in E1, E2.
    cbn. destruct (N.eqb_spec (c + 32) 44), (N.eqb_spec c 44); try lia;
      reflexivity.
  - unfold lower_ascii, is_chr, char_eqb, chr.
    destruct ((65 <=? c) && (c <=? 90))%N eqn:E; [|reflexivity].
    apply andb_true_iff in E as [E1 E2]. apply N.leb_le in E1, E2.
    cbn. destruct (N.eqb_spec (c + 32) 47), (N.eqb_spec c 47); try lia;
      reflexivity.
Qed.

Lemma lower_ascii_idem c : lower_ascii (lower_ascii c) = lower_ascii c.
Proof.
  unfold lower_ascii.
  destruct ((65 <=? c) && (c <=? 90))%N eqn:E; [|now rewrite E].
  apply andb_true_iff in E as [E1 E2]. apply N.leb_le in E1, E2.
  destruct (N.leb_spec 65 (c + 32)), (N.leb_spec (c + 32) 90);
    cbn [andb]; try reflexivity; lia.
Qed.

Lemma lower_idem s : SQL.lower (SQL.lower s) = SQL.lower s.
Proof.
  unfold SQL.lower. rewrite map_map. apply map_ext, lower_ascii_idem.
Qed.

Lemma dropWhile_map (p : char -> bool) (f : char -> char) s :
  (forall c, p (f c) = p c) ->
  dropWhile p (List.map f s) = List.map f (dropWhile p s).
Proof.
  intros H. induction s as [|c s IH]; [reflexivity|].
  cbn [List.map dropWhile]. rewrite H.
  destruct (p c); [exact IH | reflexivity].
Qed.

Lemma takeWhile_map (p : char -> bool) (f : char -> char) s :
  (forall c, p (f c) = p c) ->
  takeWhile p (List.map f s) = List.map f (takeWhile p s).
Proof.
  intros H. induction s as [|c s IH]; [reflexivity|].
  cbn [List.map takeWhile]. rewrite H.
  destruct (p c); [cbn [List.map]; now rewrite IH | reflexivity].
Qed.

Lemma lower_trim s : trim (SQL.lower s) = SQL.lower (trim s).
Proof.
  unfold trim, SQL.lower.
  rewrite dropWhile_map by apply lower_ascii_space.
  rewrite <- map_rev, dropWhile_map by apply lower_ascii_space.
  now rewrite map_rev.
Qed.

Lemma truthy_map (f : char -> char) s : truthy (List.map f s) = truthy s.
Proof. now destruct s. Qed.

Lemma lower_firstWord s : firstWord (SQL.lower s) = SQL.lower (firstWord s).
Proof.
  unfold firstWord, SQL.lower, or_else.
  rewrite takeWhile_map
    by (intros c; unfold is_not; now rewrite lower_ascii_word_end).
  rewrite truthy_map. now destruct (truthy _).
Qed.

Lemma lower_truthy s : truthy (SQL.lower s) = truthy s.
Proof. apply truthy_map. Qed.

Lemma lower_like_pattern s :
  SQL.lower (lit "%" ++ firstWord s ++ lit "%")
  = lit "%" ++ firstWord (SQL.lower s) ++ lit "%".
Proof.
  rewrite lower_firstWord. unfold SQL.lower.
  now rewrite !map_app.
Qed.

Lemma candidates_lower order rows a b :
  SQL.lower a = SQL.lower b ->
  candidates order rows a = candidates order rows b.
Proof.
  intros H. unfold candidates.
  assert (E1 : filter (Catalog.where_matches
                         (mkStatement NameEquals order a)) rows
               = filter (Catalog.where_matches
                           (mkStatement NameEquals order b)) rows).
  { apply filter_ext. intros row. unfold Catalog.where_matches.
    cbn [where_ bound]. now rewrite H. }
  assert (E2 : filter (Catalog.where_matches
                         (mkStatement NameLike order
                            (lit "%" ++ firstWord a ++ lit "%"))) rows
               = filter (Catalog.where_matches
                           (mkStatement NameLike order
                              (lit "%" ++ firstWord b ++ lit "%"))) rows).
  { apply filter_ext. intros row. unfold Catalog.where_matches.
    cbn [where_ bound]. now rewrite !lower_like_pattern, H. }
  now rewrite E1, E2.
Qed.

Lemma lookupCard_lower JSON_parse rows order a b :
  SQL.lower (trim (ParsedInputCard.name a))
  = SQL.lower (trim (ParsedInputCard.name b)) ->
  BatchResult.found (lookupCard JSON_parse a (Catalog.database rows) order)
  = BatchResult.found (lookupCard JSON_parse b (Catalog.database rows) order)
  /\ BatchResult.result
       (lookupCard JSON_parse a (Catalog.database rows) order)
     = BatchResult.result
         (lookupCard JSON_parse b (Catalog.database rows) order).
Proof.
  intros H. rewrite !lookupCard_catalog. cbv zeta.
  rewrite (candidates_lower order rows _ _ H).
  assert (Ht : truthy (trim (ParsedInputCard.name a))
               = truthy (trim (ParsedInputCard.name b)))
    by (rewrite <- (lower_truthy (trim (ParsedInputCard.name a))), H;
        apply lower_truthy).
  rewrite Ht. clear Ht.
  destruct (truthy (trim (ParsedInputCard.name b))); [|split; reflexivity].
  destruct (hd_error _); split; reflexivity.
Qed.

(** X13.  On a catalog, the lookup of a name does not depend on the ASCII
    case of its letters nor on white space around it: two requests
    whose trimmed names are equal up to ASCII case are answered alike. *)
Theorem lookupCard_ignores_case
        (JSON_parse : jsstring -> outcome json)
        (rows : list Card.t) (order : sortOrder)
        (a b : ParsedInputCard.t) :
  SQL.lower (trim (ParsedInputCard.name a))
  = SQL.lower (trim (ParsedInputCard.name b)) ->
  BatchResult.found (lookupCard JSON_parse a (Catalog.database rows) order)
  = BatchResult.found (lookupCard JSON_parse b (Catalog.database rows) order)
  /\ BatchResult.result
       (lookupCard JSON_parse a (Catalog.database rows) order)
     = BatchResult.result
         (lookupCard JSON_parse b (Catalog.database rows) order).
Proof. apply lookupCard_lower. Qed.

Lemma lookupCard_ignores_case_witness :
  let shouted := ParsedInputCard.mk (lit "  ISLAND ") (Int 1) [] [] in
  let plain_ := ParsedInputCard.mk (lit "island") (Int 3) (lit "F") [] in
  SQL.lower (trim (ParsedInputCard.name shouted))
  = SQL.lower (trim (ParsedInputCard.name plain_))
  /\ BatchResult.result
       (lookupCard Examples.JSON_parse_string_array shouted
          (Catalog.database Examples.islands) newest)
     = BatchResult.result
         (lookupCard Examples.JSON_parse_string_array plain_
            (Catalog.database Examples.islands) newest).
Proof.
  cbv zeta.
  assert (H : SQL.lower (trim (ParsedInputCard.name
                                 (ParsedInputCard.mk (lit "  ISLAND ")
                                    (Int 1) [] [])))
              = SQL.lower (trim (ParsedInputCard.name
                                   (ParsedInputCard.mk (lit "island")
                                      (Int 3) (lit "F") []))))
    by reflexivity.
  split; [exact H|].
  exact (proj2 (lookupCard_ignores_case Examples.JSON_parse_string_array
                  Examples.islands newest _ _ H)).
Defined.

(* ================================================================== *)
(** ** What a found row has to do with the request *)

Lemma lookupCard_selected JSON_parse rows order inputCard selected foil :
  lookupCard JSON_parse inputCard (Catalog.database rows) order
  = BatchResult.mk true inputCard (Some (BatchResultCard.mk selected foil)) ->
  In selected (candidates order rows (trim (ParsedInputCard.name inputCard))).
Proof.
  rewrite lookupCard_catalog. cbv zeta.
  destruct (truthy _); [|discriminate].
  destruct (hd_error _) as [row|] eqn:E; [|discriminate].
  intros [= <- _]. now apply (@order_by_first order _ row).
Qed.

(** X14.  When some row of the catalog has the requested name, up to
    ASCII case, the selected row has that name too: the first-word
    search is not used. *)
Theorem exact_name_wins
        (JSON_parse : jsstring -> outcome json)
        (rows : list Card.t) (order : sortOrder)
        (inputCard : ParsedInputCard.t) (row : Card.t) :
  let cardName := trim (ParsedInputCard.name inputCard) in
  cardName <> [] ->
  In row rows ->
  SQL.lower (Card.name row) = SQL.lower cardName ->
  exists selected,
    lookupCard JSON_parse inputCard (Catalog.database rows) order
    = BatchResult.mk true inputCard
        (Some (BatchResultCard.mk selected
                 (detectFoilStatus JSON_parse (Card.finishes selected))))
    /\ In selected rows
    /\ SQL.lower (Card.name selected) = SQL.lower cardName.
Proof.
  intros cardName Hne Hin Hname.
  rewrite lookupCard_catalog. cbv zeta. fold cardName.
  apply truthy_nonempty in Hne. rewrite Hne.
  set (e := Catalog.where_matches (mkStatement NameEquals order cardName)).
  assert (He : e row = true).
  { unfold e, Catalog.where_matches. cbn [where_ bound].
    rewrite Hname. apply str_eqb_refl. }
  assert (Hcand : candidates order rows cardName = filter e rows).
  { unfold candidates. fold e.
    destruct (filter e rows) as [|x l] eqn:E; [|reflexivity].
    exfalso. assert (Hx : In row (filter e rows)) by (apply filter_In; auto).
    rewrite E in Hx. destruct Hx. }
  rewrite Hcand.
  destruct (hd_error (Catalog.order_by order (filter e rows)))
    as [selected|] eqn:Hsel.
  - exists selected. split; [reflexivity|].
    destruct (@order_by_first order _ selected Hsel) as [Hs _].
    apply filter_In in Hs as [Hs1 Hs2]. split; [exact Hs1|].
    unfold e, Catalog.where_matches in Hs2. cbn [where_ bound] in Hs2.
    now apply str_eqb_eq in Hs2.
  - exfalso.
    destruct (Catalog.order_by order (filter e rows)) eqn:Ho;
      [|discriminate].
    apply order_by_nil in Ho.
    assert (Hx : In row (filter e rows)) by (apply filter_In; auto).
    rewrite Ho in Hx. destruct Hx.
Qed.

Lemma exact_name_wins_witness :
  exists selected,
    lookupCard Examples.JSON_parse_string_array
      (ParsedInputCard.mk (lit "island") (Int 1) [] [])
      (Catalog.database Examples.islands) oldest
    = BatchResult.mk true (ParsedInputCard.mk (lit "island") (Int 1) [] [])
        (Some (BatchResultCard.mk selected
                 (detectFoilStatus Examples.JSON_parse_string_array
                    (Card.finishes selected))))
    /\ In selected Examples.islands
    /\ SQL.lower (Card.name selected) = SQL.lower (lit "island").
Proof.
  apply (exact_name_wins Examples.JSON_parse_string_array Examples.islands
           oldest (ParsedInputCard.mk (lit "island") (Int 1) [] [])
           Examples.island_m12).
  - discriminate.
  - left. reflexivity.
  - reflexivity.
Defined.

(* ------------------------------------------------------------------ *)
(** The first-word search. *)

Lemma like_percent p s :
  SQL.like (chr "%" :: p) s = true ->
  exists a t, s = a ++ t /\ SQL.like p t = true.
Proof.
  cbn [SQL.like]. change (char_eqb (chr "%") (chr "%")) with true. cbn iota.
  induction s as [|c s IH].
  - intros H. apply orb_true_iff in H as [H|H]; [|discriminate].
    now exists [], [].
  - intros H. apply orb_true_iff in H as [H|H].
    + now exists [], (c :: s).
    + destruct (IH H) as (a & t & -> & Ht). now exists (c :: a), t.
Qed.

Lemma like_literal w :
  no_wildcard w = true ->
  forall p s,
    SQL.like (w ++ p) s = true ->
    exists m t, s = m ++ t
                /\ List.map lower_ascii m = List.map lower_ascii w
                /\ SQL.like p t = true.
Proof.
  unfold no_wildcard. induction w as [|c w IH]; intros Hw p s H.
  - now exists [], s.
  - cbn [forallb] in Hw. apply andb_true_iff in Hw as [Hc Hw].
    apply andb_true_iff in Hc as [Hc1 Hc2].
    apply negb_true_iff in Hc1, Hc2. unfold is_chr in Hc1, Hc2.
    cbn [app SQL.like] in H. rewrite Hc1, Hc2 in H.
    destruct s as [|x s]; [discriminate|].
    apply andb_true_iff in H as [Hx H].
    destruct (IH Hw p s H) as (m & t & -> & Hm & Ht).
    exists (x :: m), t. split; [reflexivity|]. split; [|exact Ht].
    cbn [List.map]. rewrite Hm. f_equal.
    unfold char_eqb in Hx. apply N.eqb_eq in Hx. now symmetry.
Qed.

Lemma lower_ascii_wildcard c :
  is_chr "%" (lower_ascii c) = is_chr "%" c
  /\ is_chr "_" (lower_ascii c) = is_chr "_" c.
Proof.
  unfold lower_ascii, is_chr, char_eqb, chr.
  destruct ((65 <=? c) && (c <=? 90))%N eqn:E; [|now split].
  apply andb_true_iff in E as [E1 E2]. apply N.leb_le in E1, E2. cbn.
  destruct (N.eqb_spec (c + 32) 37), (N.eqb_spec c 37),
    (N.eqb_spec (c + 32) 95), (N.eqb_spec c 95); try lia; now split.
Qed.

Lemma no_wildcard_lower w : no_wildcard (SQL.lower w) = no_wildcard w.
Proof.
  unfold no_wildcard, SQL.lower. induction w as [|c w IH]; [reflexivity|].
  cbn [List.map forallb]. rewrite IH.
  destruct (lower_ascii_wildcard c) as [-> ->]. reflexivity.
Qed.

Lemma firstWord_prefix s : exists r, s = firstWord s ++ r.
Proof.
  unfold firstWord, or_else.
  destruct (truthy _).
  - exists (dropWhile (is_not is_word_end) s).
    symmetry. apply takeWhile_dropWhile.
  - exists []. now rewrite app_nil_r.
Qed.

Lemma like_first_word word name :
  no_wildcard word = true ->
  SQL.like (SQL.lower (lit "%" ++ word ++ lit "%")) (SQL.lower name) = true ->
  exists before found after,
    name = before ++ found ++ after /\ SQL.lower found = SQL.lower word.
Proof.
  intros Hw H. unfold SQL.lower in H at 1. rewrite !map_app in H.
  change (List.map lower_ascii (lit "%")) with [chr "%"] in H.
  cbn [app] in H. fold (SQL.lower word) in H.
  apply like_percent in H as (a' & t & Hname & H).
  apply like_literal in H as (m' & t' & -> & Hm & _);
    [|now rewrite no_wildcard_lower].
  unfold SQL.lower in Hname.
  apply map_eq_app in Hname as (a & r & -> & <- & Hr).
  apply map_eq_app in Hr as (m & r' & -> & <- & _).
  exists a, m, r'. split; [reflexivity|].
  fold (SQL.lower m) in Hm. fold (SQL.lower (SQL.lower m)) in Hm.
  fold (SQL.lower (SQL.lower word)) in Hm.
  now rewrite !lower_idem in Hm.
Qed.

(** X15.  When the first word of the requested name holds no LIKE
    wildcard, the name of the row that was found contains that word, up
    to ASCII case. *)
Theorem found_name_contains_first_word
        (JSON_parse : jsstring -> outcome json)
        (rows : list Card.t) (order : sortOrder)
        (inputCard : ParsedInputCard.t)
        (selected : Card.t) (foil : jsstring) :
  let word := firstWord (trim (ParsedInputCard.name inputCard)) in
  no_wildcard word = true ->
  lookupCard JSON_parse inputCard (Catalog.database rows) order
  = BatchResult.mk true inputCard (Some (BatchResultCard.mk selected foil)) ->
  exists before found after,
    Card.name selected = before ++ found ++ after
    /\ SQL.lower found = SQL.lower word.
Proof.
  intros word Hw Hfound.
  apply lookupCard_selected in Hfound. unfold candidates in Hfound.
  destruct (filter (Catalog.where_matches
                      (mkStatement NameEquals order _)) rows)
    as [|x exact] eqn:E.
  - apply filter_In in Hfound as [_ H].
    unfold Catalog.where_matches in H. cbn [where_ bound] in H.
    now apply like_first_word.
  - rewrite <- E in Hfound. apply filter_In in Hfound as [_ H].
    unfold Catalog.where_matches in H. cbn [where_ bound] in H.
    apply str_eqb_eq in H.
    destruct (firstWord_prefix (trim (ParsedInputCard.name inputCard)))
      as [r Hr].
    fold word in Hr. rewrite Hr in H. unfold SQL.lower in H.
    rewrite map_app in H.
    apply map_eq_app in H as (m & r' & Hname & Hm & _).
    exists [], m, r'. split; [exact Hname | exact Hm].
Qed.

Lemma found_name_contains_first_word_witness :
  let inputCard := ParsedInputCard.mk (lit "sanctuary of the isle")
                     (Int 1) [] [] in
  no_wildcard (firstWord (trim (ParsedInputCard.name inputCard))) = true
  /\ lookupCard Examples.JSON_parse_string_array inputCard
       (Catalog.database Examples.islands) oldest
     = BatchResult.mk true inputCard
         (Some (BatchResultCard.mk Examples.island_sanctuary []))
  /\ exists before found after,
      Card.name Examples.island_sanctuary = before ++ found ++ after
      /\ SQL.lower found
         = SQL.lower (firstWord (trim (ParsedInputCard.name inputCard))).
Proof.
  cbv zeta.
  assert (H1 : no_wildcard
                 (firstWord
                    (trim (ParsedInputCard.name
                             (ParsedInputCard.mk (lit "sanctuary of the isle")
                                (Int 1) [] [])))) = true)
    by reflexivity.
  assert (H2 : lookupCard Examples.JSON_parse_string_array
                 (ParsedInputCard.mk (lit "sanctuary of the isle")
                    (Int 1) [] [])
                 (Catalog.database Examples.islands) oldest
               = BatchResult.mk true
                   (ParsedInputCard.mk (lit "sanctuary of the isle")
                      (Int 1) [] [])
                   (Some (BatchResultCard.mk Examples.island_sanctuary [])))
    by (vm_compute; reflexivity).
  split; [exact H1|]. split; [exact H2|].
  exact (found_name_contains_first_word
           Examples.JSON_parse_string_array Examples.islands oldest
           _ _ _ H1 H2).
Defined.

(* ================================================================== *)
(** ** The single-card endpoint *)

(** [GET] on a catalog, statement by statement. *)
Lemma GET_catalog (JSON_parse : jsstring -> outcome json) name rows :
  GET JSON_parse (Some name) (Some (Catalog.database rows)) =
  let cardName := trim name in
  let exact :=
    filter (Catalog.where_matches (mkStatement NameEquals oldest cardName))
           rows in
  let partial :=
    filter (Catalog.where_matches
              (mkStatement NameLike oldest (lit "%" ++ cardName ++ lit "%")))
           rows in
  if truthy cardName then
    match hd_error (Catalog.order_by oldest
                      (match exact with [] => partial | _ => exact end))
    with
    | Some row =>
        CardJson 200
          (CardLookupResult.mk true
             (Some (BatchResultCard.mk row
                      (detectFoilStatus JSON_parse (Card.finishes row)))))
    | None => CardJson 404 (CardLookupResult.mk false None)
    end
  else CardError 400 (lit "Missing required query parameter: name").
Proof.
  cbv zeta. unfold GET, Catalog.database. rewrite or_else_nil_r.
  destruct (truthy (trim name)); [|reflexivity].
  cbn [negb bind]. rewrite !select_first. cbn [orderClause].
  destruct (filter _ rows) as [|a exact] eqn:Hexact.
  - cbn [Catalog.order_by hd_error bind try_catch].
    now destruct (hd_error _).
  - cbn [Catalog.order_by]. rewrite insert_head.
    cbn [bind try_catch]. reflexivity.
Qed.

(** X18.  For a name that some row of the catalog has, up to ASCII case,
    the single-card endpoint and the batch endpoint under ['oldest']
    answer with the same printing and the same finish. *)
Theorem GET_agrees_with_batch
        (JSON_parse : jsstring -> outcome json)
        (rows : list Card.t) (inputCard : ParsedInputCard.t) (row : Card.t) :
  let cardName := trim (ParsedInputCard.name inputCard) in
  cardName <> [] ->
  In row rows ->
  SQL.lower (Card.name row) = SQL.lower cardName ->
  exists printing,
    GET JSON_parse (Some (ParsedInputCard.name inputCard))
        (Some (Catalog.database rows))
    = CardJson 200 (CardLookupResult.mk true (Some printing))
    /\ lookupCard JSON_parse inputCard (Catalog.database rows) oldest
       = BatchResult.mk true inputCard (Some printing).
Proof.
  intros cardName Hne Hin Hname.
  rewrite GET_catalog, lookupCard_catalog. cbv zeta. fold cardName.
  unfold candidates.
  apply truthy_nonempty in Hne. rewrite Hne.
  set (e := Catalog.where_matches (mkStatement NameEquals oldest cardName)).
  assert (Hx : In row (filter e rows)).
  { apply filter_In. split; [exact Hin|].
    unfold e, Catalog.where_matches. cbn [where_ bound].
    rewrite Hname. apply str_eqb_refl. }
  destruct (filter e rows) as [|x l] eqn:E; [destruct Hx|].
  destruct (hd_error (Catalog.order_by oldest (x :: l))) as [selected|]
    eqn:Hsel.
  - eexists. split; reflexivity.
  - exfalso. destruct (Catalog.order_by oldest (x :: l)) eqn:Ho;
      [|discriminate].
    apply order_by_nil in Ho. discriminate.
Qed.

Lemma GET_agrees_with_batch_witness :
  let inputCard := ParsedInputCard.mk (lit " island") (Int 1) [] [] in
  let printing := BatchResultCard.mk Examples.island_lea [] in
  GET Examples.JSON_parse_string_array
      (Some (ParsedInputCard.name inputCard))
      (Some (Catalog.database Examples.islands))
  = CardJson 200 (CardLookupResult.mk true (Some printing))
  /\ exists printing',
      GET Examples.JSON_parse_string_array
          (Some (ParsedInputCard.name inputCard))
          (Some (Catalog.database Examples.islands))
      = CardJson 200 (CardLookupResult.mk true (Some printing'))
      /\ lookupCard Examples.JSON_parse_string_array inputCard
           (Catalog.database Examples.islands) oldest
         = BatchResult.mk true inputCard (Some printing').
Proof.
  cbv zeta. split; [vm_compute; reflexivity|].
  apply (GET_agrees_with_batch Examples.JSON_parse_string_array
           Examples.islands
           (ParsedInputCard.mk (lit " island") (Int 1) [] [])
           Examples.island_m12).
  - discriminate.
  - left. reflexivity.
  - reflexivity.
Defined.

(* ------------------------------------------------------------------ *)
(** The two fallbacks. *)

Lemma like_percent_intro p a t :
  SQL.like p t = true -> SQL.like (chr "%" :: p) (a ++ t) = true.
Proof.
  intros H. cbn [SQL.like].
  change (char_eqb (chr "%") (chr "%")) with true. cbn iota.
  induction a as [|c a IH]; cbn [app].
  - destruct t; now rewrite H.
  - rewrite IH. apply orb_true_r.
Qed.

Lemma like_percent_only t : SQL.like [chr "%"] t = true.
Proof.
  rewrite <- (app_nil_r t). now apply like_percent_intro.
Qed.

(** A pattern matches all the more when everything after a prefix of it
    is replaced by [%]. *)
Lemma like_cut w :
  forall p t, SQL.like (w ++ p) t = true ->
              SQL.like (w ++ [chr "%"]) t = true.
Proof.
  induction w as [|c w IH]; intros p t H.
  - apply like_percent_only.
  - cbn [app] in H |- *.
    destruct (char_eqb c (chr "%")) eqn:Hc.
    + unfold char_eqb in Hc. apply N.eqb_eq in Hc. subst c.
      apply like_percent in H as (a & t' & -> & H).
      apply like_percent_intro. eapply IH; eauto.
    + cbn [SQL.like] in H |- *. rewrite Hc in H |- *.
      destruct (char_eqb c (chr "_")).
      * destruct t as [|x t]; [discriminate|]. eapply IH; eauto.
      * destruct t as [|x t]; [discriminate|].
        apply andb_true_iff in H as [-> H]. cbn [andb]. eapply IH; eauto.
Qed.

Lemma like_whole_first name row :
  Catalog.where_matches
    (mkStatement NameLike oldest (lit "%" ++ name ++ lit "%")) row = true ->
  Catalog.where_matches
    (mkStatement NameLike oldest (lit "%" ++ firstWord name ++ lit "%")) row
  = true.
Proof.
  unfold Catalog.where_matches. cbn [where_ bound].
  destruct (firstWord_prefix name) as [r Hr].
  rewrite Hr at 1. unfold SQL.lower at 1 3.
  rewrite !map_app. change (List.map lower_ascii (lit "%")) with [chr "%"].
  rewrite <- !app_assoc.
  change ([chr "%"] ++ List.map lower_ascii (firstWord name)
            ++ List.map lower_ascii r ++ [chr "%"])
    with ((chr "%" :: List.map lower_ascii (firstWord name))
            ++ List.map lower_ascii r ++ [chr "%"]).
  apply like_cut.
Qed.

(** X19.  On a catalog, whenever the single-card endpoint finds a
    printing for a name, the batch endpoint under ['oldest'] finds one
    for that name as well. *)
Theorem GET_found_then_batch_found
        (JSON_parse : jsstring -> outcome json)
        (rows : list Card.t) (inputCard : ParsedInputCard.t)
        (body : CardLookupResult.t) :
  GET JSON_parse (Some (ParsedInputCard.name inputCard))
      (Some (Catalog.database rows))
  = CardJson 200 body ->
  BatchResult.found
    (lookupCard JSON_parse inputCard (Catalog.database rows) oldest) = true.
Proof.
  rewrite GET_catalog, lookupCard_catalog. cbv zeta. unfold candidates.
  destruct (truthy _); [|discriminate].
  set (e := Catalog.where_matches (mkStatement NameEquals oldest _)).
  destruct (filter e rows) as [|x l] eqn:E.
  - destruct (hd_error _) as [row|] eqn:Hsel; [|discriminate].
    intros _.
    destruct (@order_by_first oldest _ row Hsel) as [Hin _].
    apply filter_In in Hin as [Hin Hlike].
    apply like_whole_first in Hlike.
    set (f := Catalog.where_matches
                (mkStatement NameLike oldest
                   (lit "%" ++ firstWord
                      (trim (ParsedInputCard.name inputCard)) ++ lit "%")))
      in *.
    assert (Hx : In row (filter f rows)) by (apply filter_In; auto).
    destruct (Catalog.order_by oldest (filter f rows)) eqn:Ho;
      [|reflexivity].
    apply order_by_nil in Ho. rewrite Ho in Hx. destruct Hx.
  - destruct (hd_error _) as [row|]; [reflexivity | discriminate].
Qed.

Lemma GET_found_then_batch_found_witness :
  let inputCard := ParsedInputCard.mk (lit "land sanct") (Int 1) [] [] in
  GET Examples.JSON_parse_string_array
      (Some (ParsedInputCard.name inputCard))
      (Some (Catalog.database Examples.islands))
  = CardJson 200
      (CardLookupResult.mk true
         (Some (BatchResultCard.mk Examples.island_sanctuary [])))
  /\ BatchResult.found
       (lookupCard Examples.JSON_parse_string_array inputCard
          (Catalog.database Examples.islands) oldest) = true.
Proof.
  cbv zeta.
  assert (H : GET Examples.JSON_parse_string_array
                  (Some (ParsedInputCard.name
                           (ParsedInputCard.mk (lit "land sanct") (Int 1)
                              [] [])))
                  (Some (Catalog.database Examples.islands))
              = CardJson 200
                  (CardLookupResult.mk true
                     (Some (BatchResultCard.mk Examples.island_sanctuary
                              []))))
    by (vm_compute; reflexivity).
  split; [exact H|].
  exact (GET_found_then_batch_found Examples.JSON_parse_string_array
           Examples.islands _ _ H).
Defined.

(* ================================================================== *)
(** ** The session cache of the page *)

Lemma str_eqb_neq a b : a <> b -> str_eqb a b = false.
Proof.
  intros H. destruct (str_eqb a b) eqn:E; [|reflexivity].
  apply str_eqb_eq in E. contradiction.
Qed.

Section MapFacts.

Context {V : Type}.

Lemma get_set_same key (value : V) map :
  JSMap.get key (JSMap.set key value map) = Some value.
Proof.
  induction map as [|[k v] rest IH]; cbn [JSMap.set JSMap.get].
  - now rewrite str_eqb_refl.
  - destruct (str_eqb k key) eqn:E; cbn [JSMap.get]; rewrite E;
      [reflexivity | exact IH].
Qed.

Lemma get_set_other key key' (value : V) map :
  key <> key' ->
  JSMap.get key' (JSMap.set key value map) = JSMap.get key' map.
Proof.
  intros Hne. induction map as [|[k v] rest IH]; cbn [JSMap.set JSMap.get].
  - now rewrite str_eqb_neq.
  - destruct (str_eqb k key) eqn:E; cbn [JSMap.get].
    + apply str_eqb_eq in E. subst k. now rewrite str_eqb_neq.
    + destruct (str_eqb k key'); [reflexivity | exact IH].
Qed.

Lemma get_set_some key key' (value : V) map :
  JSMap.get key' map <> None ->
  JSMap.get key' (JSMap.set key value map) <> None.
Proof.
  intros H. destruct (list_eq_dec N.eq_dec key key') as [<- | Hne].
  - now rewrite get_set_same.
  - now rewrite get_set_other.
Qed.

End MapFacts.

Lemma cacheKey_inj toLowerCase a b o o' :
  Page.cacheKey toLowerCase a o = Page.cacheKey toLowerCase b o' ->
  o = o'
  /\ toLowerCase (ParsedInputCard.name a)
     = toLowerCase (ParsedInputCard.name b).
Proof.
  unfold Page.cacheKey. intros H.
  assert (Ho : o = o').
  { apply (f_equal (@rev _)) in H. rewrite !rev_app_distr in H.
    destruct o, o'; try reflexivity; cbn in H; discriminate. }
  subst o'. split; [reflexivity|].
  now apply app_inv_tail in H.
Qed.

Lemma lookupCard_eta JSON_parse card db order :
  lookupCard JSON_parse card db order
  = BatchResult.mk
      (BatchResult.found (lookupCard JSON_parse card db order)) card
      (BatchResult.result (lookupCard JSON_parse card db order)).
Proof.
  pose proof (lookupCard_originalCard JSON_parse card db order) as H.
  destruct (lookupCard JSON_parse card db order). cbn in *. now subst.
Qed.

Section CacheFacts.

Variable toLowerCase : jsstring -> jsstring.
Variable JSON_parse : jsstring -> outcome json.
Variable rows : list Card.t.

(** On ASCII text [toLowerCase] maps the letters [A]-[Z] to [a]-[z]
    and nothing else, which is what SQLite's [lower] does. *)
Hypothesis toLowerCase_ascii :
  forall s, is_ascii s = true -> toLowerCase s = SQL.lower s.



Lemma same_key_same_answer a b o o' v :
  ascii_name a -> ascii_name b ->
  Page.cacheKey toLowerCase a o = Page.cacheKey toLowerCase b o' ->
  answers JSON_parse (Catalog.database rows) o a v -> answers JSON_parse (Catalog.database rows) o' b v.
Proof.
  intros Ha Hb Hkey [Hf Hr]. apply cacheKey_inj in Hkey as [<- Hname].
  rewrite !toLowerCase_ascii in Hname by assumption.
  assert (H : SQL.lower (trim (ParsedInputCard.name a))
              = SQL.lower (trim (ParsedInputCard.name b)))
    by now rewrite <- !lower_trim, Hname.
  destruct (lookupCard_lower JSON_parse rows o a b H) as [H1 H2].
  unfold answers in *. now rewrite <- H1, <- H2.
Qed.

Lemma coherent_set cache card order :
  ascii_name card ->
  coherent toLowerCase JSON_parse (Catalog.database rows) cache ->
  coherent toLowerCase JSON_parse (Catalog.database rows)
    (JSMap.set (Page.cacheKey toLowerCase card order)
       (Page.mkCached (BatchResult.found (lookupCard JSON_parse card (Catalog.database rows) order))
                      (BatchResult.result (lookupCard JSON_parse card (Catalog.database rows) order)))
       cache).
Proof.
  intros Ha Hc card' order' v Ha' Hget.
  destruct (list_eq_dec N.eq_dec (Page.cacheKey toLowerCase card order)
              (Page.cacheKey toLowerCase card' order')) as [E | Hne].
  - rewrite <- E, get_set_same in Hget. injection Hget as <-.
    apply (same_key_same_answer card card' order order' _ Ha Ha' E).
    split; reflexivity.
  - rewrite get_set_other in Hget by exact Hne. now apply Hc.
Qed.

(** Storing the fresh results. *)
Lemma cacheResults_fresh order uncached :
  Forall ascii_name uncached ->
  forall idx cache,
    coherent toLowerCase JSON_parse (Catalog.database rows) cache ->
    exists cache',
      Page.cacheResults toLowerCase order uncached idx
        (List.map (fun card => lookupCard JSON_parse card (Catalog.database rows) order) (skipn idx uncached)) cache
      = (cache', None)
      /\ coherent toLowerCase JSON_parse (Catalog.database rows) cache'
      /\ (forall key, JSMap.get key cache <> None ->
                      JSMap.get key cache' <> None)
      /\ (forall card, In card (skipn idx uncached) ->
                       JSMap.get (Page.cacheKey toLowerCase card order) cache'
                       <> None).
Proof.
  intros Hascii idx.
  remember (length uncached - idx) as n eqn:Hn.
  revert idx Hn. induction n as [|n IH]; intros idx Hn cache Hc.
  - rewrite skipn_all2 by lia. exists cache. cbn [List.map Page.cacheResults].
    split; [reflexivity|]. split; [exact Hc|]. split; [auto|].
    intros card [].
  - destruct (nth_error uncached idx) as [card|] eqn:Hnth;
      [|apply nth_error_None in Hnth; lia].
    assert (Hskip : skipn idx uncached = card :: skipn (S idx) uncached).
    { clear - Hnth. revert idx Hnth.
      induction uncached as [|c l IH]; intros [|idx] H; try discriminate.
      - now injection H as ->.
      - cbn [skipn]. now apply IH. }
    rewrite Hskip. cbn [List.map Page.cacheResults]. rewrite Hnth.
    assert (Ha : ascii_name card).
    { rewrite Forall_forall in Hascii. apply Hascii.
      eapply nth_error_In; eauto. }
    destruct (IH (S idx) ltac:(lia) _ (coherent_set cache card order Ha Hc))
      as (cache' & Hrun & Hc' & Hkeep & Hin).
    exists cache'. split; [exact Hrun|]. split; [exact Hc'|]. split.
    + intros key Hkey. apply Hkeep. now apply get_set_some.
    + intros card' [<- | Hin']; [|now apply Hin].
      apply Hkeep. now rewrite get_set_same.
Qed.

(** The first loop, from any state of its locals. *)
Lemma checkCache_fold order :
  forall cards s l,
    Forall ascii_name cards ->
    coherent toLowerCase JSON_parse (Catalog.database rows) (Page.cardCache s) ->
    exists s1 hit missed marks,
      fold_left (Page.checkCache toLowerCase order) cards (s, l)
      = (s1, Page.mkLocals (Page.cachedResults l ++ hit)
                           (Page.uncachedCards l ++ missed)
                           (Page.cardIndexMap l ++ marks))
      /\ Page.cardCache s1 = Page.cardCache s
      /\ Page.cacheHits s1 + Page.cacheMisses s1
         = Page.cacheHits s + Page.cacheMisses s + length cards
      /\ Page.cacheHits s1 = Page.cacheHits s + length hit
      /\ (forall card,
             In card missed ->
             In card cards
             /\ JSMap.get (Page.cacheKey toLowerCase card order)
                          (Page.cardCache s) = None)
      /\ (forall card,
             In card cards ->
             JSMap.get (Page.cacheKey toLowerCase card order)
                       (Page.cardCache s) = None ->
             In card missed)
      /\ (missed = [] -> hit = List.map (fun card => lookupCard JSON_parse card (Catalog.database rows) order) cards)
      /\ (forall stored fresh idx,
             (forall j r, nth_error (Page.cachedResults l ++ hit) j = Some r ->
                          nth_error stored j = Some r) ->
             (forall j card, nth_error missed j = Some card ->
                             nth_error fresh (idx + j)
                             = Some (lookupCard JSON_parse card (Catalog.database rows) order)) ->
             Page.mergeResults marks stored fresh idx
             = List.map (fun card => Some (lookupCard JSON_parse card (Catalog.database rows) order)) cards).
Proof.
  induction cards as [|card cards IH]; intros s l Hascii Hc.
  - exists s, [], [], []. cbn [fold_left length]. rewrite !app_nil_r.
    destruct l. cbn. repeat split; try reflexivity; try lia; tauto.
  - inversion Hascii as [|? ? Ha Hascii']; subst.
    cbn [fold_left]. unfold Page.checkCache at 2.
    destruct (JSMap.get (Page.cacheKey toLowerCase card order)
                (Page.cardCache s)) as [v|] eqn:Hget.
    + set (r := BatchResult.mk (Page.found v) card (Page.result v)).
      assert (Hr : r = lookupCard JSON_parse card (Catalog.database rows) order).
      { destruct (Hc card order v Ha Hget) as [Hf Hres].
        rewrite lookupCard_eta. unfold r.
        now rewrite Hf, Hres. }
      edestruct (IH (Page.mkSession (Page.cardCache s)
                       (S (Page.cacheHits s)) (Page.cacheMisses s)))
        as (s1 & hit & missed & marks & Hfold & Hcache & Hcount & Hhits
            & Hsub & Hmiss & Hall & Hmerge); [exact Hascii' | exact Hc|].
      rewrite Hfold. cbn [Page.cachedResults Page.uncachedCards
                          Page.cardIndexMap Page.cardCache Page.cacheHits
                          Page.cacheMisses] in *.
      exists s1, (r :: hit), missed,
        ((Z.of_nat (length (Page.cachedResults l ++ [r])) - 1)%Z :: marks).
      rewrite <- !app_assoc. cbn [app].
      refine (conj _ _); [reflexivity|]. refine (conj _ _); [exact Hcache|].
      refine (conj _ _); [cbn [length]; lia|]. refine (conj _ _); [cbn [length]; lia|].
      refine (conj _ _);
        [intros c Hin; destruct (Hsub c Hin) as [H1 H2]; split;
         [now right | exact H2]|].
      refine (conj _ _).
      { intros c Hin Hnone. destruct Hin as [E | Hin];
          [subst c; congruence | now apply Hmiss]. }
      refine (conj _ _); [intros E; cbn [List.map]; now rewrite Hr, (Hall E)|].
      intros stored fresh idx Hstored Hfresh.
      cbn [Page.mergeResults List.map].
      rewrite length_app. cbn [length].
      destruct (Z.leb_spec 0 (Z.of_nat (length (Page.cachedResults l) + 1) - 1))
        as [_|Hneg]; [|lia].
      replace (Z.to_nat (Z.of_nat (length (Page.cachedResults l) + 1) - 1))
        with (length (Page.cachedResults l)) by lia.
      rewrite (Hstored (length (Page.cachedResults l)) r)
        by (rewrite nth_error_app2, Nat.sub_diag by lia; reflexivity).
      rewrite Hr. f_equal.
      apply Hmerge; [|exact Hfresh].
      intros j r' Hj. apply Hstored. now rewrite <- app_assoc in Hj.
    + edestruct (IH (Page.mkSession (Page.cardCache s)
                       (Page.cacheHits s) (S (Page.cacheMisses s))))
        as (s1 & hit & missed & marks & Hfold & Hcache & Hcount & Hhits
            & Hsub & Hmiss & Hall & Hmerge); [exact Hascii' | exact Hc|].
      rewrite Hfold. cbn [Page.cachedResults Page.uncachedCards
                          Page.cardIndexMap Page.cardCache Page.cacheHits
                          Page.cacheMisses] in *.
      exists s1, hit, (card :: missed),
        ((- Z.of_nat (length (Page.uncachedCards l)) - 1)%Z :: marks).
      rewrite <- !app_assoc. cbn [app].
      refine (conj _ _); [reflexivity|]. refine (conj _ _); [exact Hcache|].
      refine (conj _ _); [cbn [length]; lia|]. refine (conj _ _); [lia|].
      refine (conj _ _).
      { intros c Hin. destruct Hin as [E | Hin];
          [subst c; split; [now left | exact Hget]
          | destruct (Hsub c Hin) as [H1 H2]; split;
            [now right | exact H2]]. }
      refine (conj _ _).
      { intros c Hin Hnone. destruct Hin as [E | Hin];
          [now left | right; now apply Hmiss]. }
      refine (conj _ _); [discriminate|].
      intros stored fresh idx Hstored Hfresh.
      cbn [Page.mergeResults List.map].
      destruct (Z.leb_spec 0 (- Z.of_nat (length (Page.uncachedCards l)) - 1))
        as [Hpos|_]; [lia|].
      pose proof (Hfresh 0 card eq_refl) as H0.
      rewrite Nat.add_0_r in H0. rewrite H0. f_equal.
      apply Hmerge; [exact Hstored|].
      intros j c Hj. specialize (Hfresh (S j) c Hj).
      now rewrite Nat.add_succ_r in Hfresh.
Qed.

Lemma batchLookup_run order s cards :
  Forall ascii_name cards ->
  coherent toLowerCase JSON_parse (Catalog.database rows) (Page.cardCache s) ->
  let run := Page.batchLookup toLowerCase JSON_parse (Some (Catalog.database rows)) order s cards in
  snd run = Return (List.map (fun card => Some (lookupCard JSON_parse card (Catalog.database rows) order)) cards)
  /\ coherent toLowerCase JSON_parse (Catalog.database rows) (Page.cardCache (fst run))
  /\ Page.cacheHits (fst run) + Page.cacheMisses (fst run)
     = Page.cacheHits s + Page.cacheMisses s + length cards
  /\ (forall card,
         In card cards ->
         JSMap.get (Page.cacheKey toLowerCase card order)
                   (Page.cardCache (fst run)) <> None).
Proof.
  intros Hascii Hc run. unfold run, Page.batchLookup.
  destruct (checkCache_fold order cards s (Page.mkLocals [] [] []) Hascii Hc)
    as (s1 & hit & missed & marks & Hfold & Hcache & Hcount & Hhits
        & Hsub & Hmiss & Hall & Hmerge).
  cbn [Page.cachedResults Page.uncachedCards Page.cardIndexMap app]
    in Hfold, Hmerge.
  rewrite Hfold. cbn [Page.uncachedCards Page.cachedResults Page.cardIndexMap].
  destruct missed as [|c0 missed'] eqn:Hmissed.
  - cbn [length Nat.ltb Nat.leb fst snd].
    rewrite (Hall eq_refl), map_map, Hcache.
    split; [reflexivity|]. split; [exact Hc|]. split; [exact Hcount|].
    intros card Hin Hnone. exact (Hmiss card Hin Hnone).
  - rewrite <- Hmissed in *.
    assert (Hne : missed <> []) by (rewrite Hmissed; discriminate).
    assert (Hlt : Nat.ltb 0 (length missed) = true)
      by (rewrite Hmissed; reflexivity).
    rewrite Hlt, POST_results by exact Hne.
    assert (Hmissed_ascii : Forall ascii_name missed).
    { rewrite Forall_forall in Hascii |- *. intros c Hin.
      apply Hascii. now apply Hsub. }
    destruct (cacheResults_fresh order missed Hmissed_ascii 0
                (Page.cardCache s1))
      as (cache' & Hrun & Hc' & Hkeep & Hin); [now rewrite Hcache|].
    cbn [skipn] in Hrun, Hin. rewrite Hrun.
    cbn [fst snd Page.cardCache Page.cacheHits Page.cacheMisses].
    split.
    { f_equal. apply Hmerge; [auto|].
      intros j c Hj. cbn [Nat.add].
      exact (map_nth_error
               (fun card =>
                  lookupCard JSON_parse card (Catalog.database rows) order)
               j missed Hj). }
    split; [exact Hc'|]. split; [exact Hcount|].
    intros card Hcard.
    destruct (JSMap.get (Page.cacheKey toLowerCase card order)
                (Page.cardCache s)) eqn:Hget.
    + apply Hkeep. rewrite Hcache, Hget. discriminate.
    + apply Hin. now apply Hmiss.
Qed.

Lemma batchLookup_all_cached order s cards env' :
  Forall ascii_name cards ->
  coherent toLowerCase JSON_parse (Catalog.database rows) (Page.cardCache s) ->
  (forall card,
      In card cards ->
      JSMap.get (Page.cacheKey toLowerCase card order) (Page.cardCache s)
      <> None) ->
  Page.batchLookup toLowerCase JSON_parse env' order s cards
  = (Page.mkSession (Page.cardCache s)
       (Page.cacheHits s + length cards) (Page.cacheMisses s),
     Return (List.map (fun card => Some (lookupCard JSON_parse card (Catalog.database rows) order)) cards)).
Proof.
  intros Hascii Hc Hall1. unfold Page.batchLookup.
  destruct (checkCache_fold order cards s (Page.mkLocals [] [] [])
              Hascii Hc)
    as (s2 & hit & missed & marks & Hfold & Hcache & Hcount & Hhits
        & Hsub & Hmiss & Hall & Hmerge).
  cbn [Page.cachedResults Page.uncachedCards Page.cardIndexMap app]
    in Hfold.
  rewrite Hfold.
  cbn [Page.uncachedCards Page.cachedResults Page.cardIndexMap].
  destruct missed as [|c0 missed'].
  - cbn [length Nat.ltb Nat.leb]. rewrite (Hall eq_refl), map_map.
    f_equal. rewrite (Hall eq_refl), length_map in Hhits.
    destruct s2 as [cache2 hits2 misses2].
    cbn [Page.cardCache Page.cacheHits Page.cacheMisses] in *.
    subst cache2. f_equal; lia.
  - exfalso. destruct (Hsub c0 (or_introl eq_refl)) as [Hin Hnone].
    exact (Hall1 c0 Hin Hnone).
Qed.

(** X20.  With a cache whose entries hold what the endpoint answers, the
    cached [batchLookup] resolves to exactly the results the endpoint
    gives for the whole list, in the order of the list and none of them
    [undefined]; the cache it leaves still holds only such entries, and
    every card has been counted once as a hit or as a miss. *)
Theorem batchLookup_cache_is_transparent
        (order : sortOrder) (s : Page.session)
        (cards : list ParsedInputCard.t) :
  Forall ascii_name cards ->
  coherent toLowerCase JSON_parse (Catalog.database rows) (Page.cardCache s) ->
  let run :=
    Page.batchLookup toLowerCase JSON_parse (Some (Catalog.database rows))
                     order s cards in
  snd run
  = Return (List.map
              (fun card =>
                 Some (lookupCard JSON_parse card (Catalog.database rows)
                                  order))
              cards)
  /\ coherent toLowerCase JSON_parse (Catalog.database rows)
              (Page.cardCache (fst run))
  /\ Page.cacheHits (fst run) + Page.cacheMisses (fst run)
     = Page.cacheHits s + Page.cacheMisses s + length cards.
Proof.
  intros Hascii Hc run.
  destruct (batchLookup_run order s cards Hascii Hc) as (H1 & H2 & H3 & _).
  auto.
Qed.

(** X21.  A list that has been looked up once is answered from the cache
    the next time: whatever the endpoint does then, even without a
    database binding, no request is made, the results are those of the
    endpoint at the first call and every card counts as a hit. *)
Theorem repeated_lookup_is_served_from_cache
        (order : sortOrder) (s : Page.session)
        (cards : list ParsedInputCard.t) (env' : option D1Database) :
  Forall ascii_name cards ->
  coherent toLowerCase JSON_parse (Catalog.database rows) (Page.cardCache s) ->
  let s1 :=
    fst (Page.batchLookup toLowerCase JSON_parse
           (Some (Catalog.database rows)) order s cards) in
  Page.batchLookup toLowerCase JSON_parse env' order s1 cards
  = (Page.mkSession (Page.cardCache s1)
       (Page.cacheHits s1 + length cards) (Page.cacheMisses s1),
     Return (List.map
               (fun card =>
                  Some (lookupCard JSON_parse card (Catalog.database rows)
                                   order))
               cards)).
Proof.
  intros Hascii Hc s1.
  destruct (batchLookup_run order s cards Hascii Hc) as (_ & H2 & _ & H4).
  now apply batchLookup_all_cached.
Qed.

End CacheFacts.

Lemma coherent_empty toLowerCase JSON_parse db :
  coherent toLowerCase JSON_parse db [].
Proof. intros card order v _ H. discriminate. Qed.

Lemma batchLookup_cache_is_transparent_witness :
  let cards := [Examples.foil_island_request; Examples.forest_request] in
  let s := Page.mkSession [] 0 0 in
  let db := Catalog.database Examples.islands in
  snd (Page.batchLookup SQL.lower Examples.JSON_parse_string_array
         (Some db) newest s cards)
  = Return
      [Some (BatchResult.mk true Examples.foil_island_request
               (Some (BatchResultCard.mk Examples.island_m12 (lit "F"))));
       Some (BatchResult.mk false Examples.forest_request None)]
  /\ Page.cacheHits
       (fst (Page.batchLookup SQL.lower Examples.JSON_parse_string_array
               (Some db) newest s cards))
     + Page.cacheMisses
         (fst (Page.batchLookup SQL.lower Examples.JSON_parse_string_array
                 (Some db) newest s cards))
     = 2.
Proof.
  cbv zeta.
  destruct (batchLookup_cache_is_transparent
              SQL.lower Examples.JSON_parse_string_array Examples.islands
              (fun s _ => eq_refl) newest (Page.mkSession [] 0 0)
              [Examples.foil_island_request; Examples.forest_request])
    as (H1 & _ & H3).
  - repeat constructor.
  - apply coherent_empty.
  - split; [rewrite H1; vm_compute; reflexivity | exact H3].
Defined.

Lemma repeated_lookup_is_served_from_cache_witness :
  let cards := [Examples.foil_island_request; Examples.forest_request] in
  let db := Catalog.database Examples.islands in
  let s1 :=
    fst (Page.batchLookup SQL.lower Examples.JSON_parse_string_array
           (Some db) newest (Page.mkSession [] 0 0) cards) in
  Page.batchLookup SQL.lower Examples.JSON_parse_string_array None newest
                   s1 cards
  = (Page.mkSession (Page.cardCache s1) 2 2,
     Return
       [Some (BatchResult.mk true Examples.foil_island_request
                (Some (BatchResultCard.mk Examples.island_m12 (lit "F"))));
        Some (BatchResult.mk false Examples.forest_request None)]).
Proof.
  cbv zeta.
  rewrite (repeated_lookup_is_served_from_cache
             SQL.lower Examples.JSON_parse_string_array Examples.islands
             (fun s _ => eq_refl) newest (Page.mkSession [] 0 0)
             [Examples.foil_island_request; Examples.forest_request] None).
  - vm_compute. reflexivity.
  - repeat constructor.
  - apply coherent_empty.
Defined.

(* ================================================================== *)
(** ** handleProcess *)

Lemma blank_input_has_no_lines text :
  trim text = [] -> inputLines text = [].
Proof.
  intros H. apply trim_nil_iff in H. unfold inputLines.
  pose proof (split_parts 10%N is_space text H) as Hparts.
  induction (split 10%N text) as [|part parts IH]; [reflexivity|].
  inversion Hparts as [|? ? [Hpart _] Hrest]; subst.
  cbn [List.map filter].
  rewrite (trim_nil_blanks part Hpart). cbn [length Nat.ltb Nat.leb].
  now apply IH.
Qed.

Lemma parsed_nonempty_text text :
  parseCardInput text <> [] -> truthy (trim text) = true.
Proof.
  intros H. apply truthy_nonempty. intros E.
  apply H. rewrite parseCardInput_lines.
  now rewrite (blank_input_has_no_lines text E).
Qed.

Lemma parsed_names_keep q input request :
  q 32%N = true -> q 47%N = true ->
  forallb q input = true -> In request (parseCardInput input) ->
  forallb q (ParsedInputCard.name request) = true.
Proof.
  intros Hb Hs H Hin. rewrite parseCardInput_lines in Hin.
  apply in_flat_map in Hin as (line & Hline & Hcard).
  destruct (parseLine line) as [card|] eqn:Hparse; [|destruct Hcard].
  destruct Hcard as [->|[]].
  pose proof (parseLine_name_keeps q line request Hb Hs
                (inputLines_keeps q input line H Hline) Hparse) as Hn.
  eapply forallb_weaken; [|exact Hn].
  intros a Ha. now apply andb_true_iff in Ha.
Qed.

Section ProcessFacts.

Variable toUpperCase : jsstring -> jsstring.
Variable toLowerCase : jsstring -> jsstring.
Variable JSON_parse : jsstring -> outcome json.

Lemma processResults_defined acc results :
  Page.processResults toUpperCase acc (List.map Some results)
  = (fold_left (processResult toUpperCase) results acc, None).
Proof.
  revert acc. induction results as [|r results IH]; intros acc;
    [reflexivity|].
  cbn [List.map Page.processResults fold_left]. apply IH.
Qed.

Lemma processLookup_defined parsedCards results :
  Page.processLookup toUpperCase parsedCards
    (Return (List.map Some results))
  = processBatch toUpperCase parsedCards (fun _ => Return results).
Proof.
  unfold Page.processLookup, processBatch.
  now rewrite processResults_defined.
Qed.

(** X22.  When the text to process holds no card, [handleProcess] makes
    no request and leaves the cache and the record of the last
    processed input as they were; it reports the single failure
    ['Input'], with the reason ['No card list provided'] for a blank
    text and ['No valid cards found in input'] for a text whose lines
    all have nothing before their first [#]. *)
Theorem handleProcess_without_cards
        (env : option D1Database) (c : Page.component) (text : jsstring) :
  Page.hasRun c && negb (Page.hasInputChanged c) = false ->
  reading c = Return text ->
  Forall (fun line => trim (fst (extractTags line)) = []) (inputLines text) ->
  Page.handleProcess toUpperCase toLowerCase JSON_parse env c
  = Page.settled c []
      [Failure.mk (lit "Input")
         (if truthy (trim text) then lit "No valid cards found in input"
          else lit "No card list provided")]
      (Page.cache c) (Page.lastProcessedInput c) (Page.lastProcessedFile c).
Proof.
  intros Hguard Hread Hlines. unfold Page.handleProcess.
  rewrite Hguard. unfold reading in Hread. rewrite Hread.
  destruct (truthy (trim text)); [|reflexivity]. cbn [negb].
  assert (E : parseCardInput text = []).
  { rewrite parseCardInput_lines.
    induction Hlines as [|line lines Hline _ IH]; [reflexivity|].
    cbn [flat_map]. now rewrite (parseLine_blank line Hline), IH. }
  now rewrite E.
Qed.

(** X23.  After [handleProcess] has processed a list typed into the text
    area, the input counts as changed although it is the same: the
    next call processes the list again instead of answering
    ['No changes detected']. *)
Theorem same_text_is_processed_again
        (env : option D1Database) (c : Page.component) :
  Page.hasRun c && negb (Page.hasInputChanged c) = false ->
  Page.inputFile c = None ->
  parseCardInput (Page.inputText c) <> [] ->
  let c1 := Page.handleProcess toUpperCase toLowerCase JSON_parse env c in
  Page.inputText c1 = Page.inputText c
  /\ Page.inputFile c1 = None
  /\ Page.hasRun c1 = true
  /\ Page.lastProcessedInput c1 = Page.inputText c
  /\ Page.hasInputChanged c1 = true.
Proof.
  intros Hguard Hfile Hcards c1.
  assert (Hc1 : exists success failed cache',
             c1 = Page.settled c success failed cache' (Page.inputText c) []).
  { unfold c1, Page.handleProcess. rewrite Hguard, Hfile.
    rewrite (parsed_nonempty_text _ Hcards). cbn [negb].
    destruct (parseCardInput (Page.inputText c)) as [|card cards] eqn:E;
      [congruence|].
    cbn [length Nat.eqb].
    destruct (Page.batchLookup _ _ _ _ _ _) as [cache' lookup].
    eauto. }
  destruct Hc1 as (success & failed & cache' & ->).
  unfold Page.settled, Page.hasInputChanged, Page.getInputHash.
  cbn [Page.inputText Page.inputFile Page.hasRun Page.lastProcessedInput
       Page.lastProcessedFile].
  rewrite Hfile. repeat split.
  rewrite str_eqb_refl. cbn [negb orb].
  destruct (Page.inputText c) as [|ch t]; [|reflexivity].
  exfalso. now apply Hcards.
Qed.

Variable rows : list Card.t.

Hypothesis toLowerCase_ascii :
  forall s, is_ascii s = true -> toLowerCase s = SQL.lower s.

(** X24.  For an ASCII text that holds cards, and a cache whose entries
    hold what the endpoint answers, [handleProcess] shows exactly the
    lines and the failures that [processBatch] computes from the
    endpoint's answers for the whole list, whatever part of them came
    from the cache; it ends with [isProcessing] off, an empty status
    and a cache that still holds only such entries. *)
Theorem handleProcess_shows_the_lookup
        (c : Page.component) (text : jsstring) :
  let db := Catalog.database rows in
  Page.hasRun c && negb (Page.hasInputChanged c) = false ->
  reading c = Return text ->
  is_ascii text = true ->
  coherent toLowerCase JSON_parse db (Page.cardCache (Page.cache c)) ->
  parseCardInput text <> [] ->
  let c' :=
    Page.handleProcess toUpperCase toLowerCase JSON_parse (Some db) c in
  let out :=
    resolve toUpperCase JSON_parse (Some db) (Page.sortOrder_ c)
            (parseCardInput text) in
  Page.successCards c' = success out
  /\ Page.failedCards c' = failed out
  /\ Page.isProcessing c' = false
  /\ Page.processingStatus c' = []
  /\ coherent toLowerCase JSON_parse db (Page.cardCache (Page.cache c')).
Proof.
  intros db Hguard Hread Hascii Hc Hcards c' out.
  assert (Hnames : Forall ascii_name (parseCardInput text)).
  { apply Forall_forall. intros card Hin.
    now apply (parsed_names_keep (fun ch => (ch <? 128)%N) text card). }
  destruct (batchLookup_run toLowerCase JSON_parse rows toLowerCase_ascii
              (Page.sortOrder_ c) (Page.cache c) (parseCardInput text)
              Hnames Hc) as (Hrun & Hc' & _).
  fold db in Hrun, Hc'. cbv beta in Hrun.
  assert (Hout : out = processBatch toUpperCase (parseCardInput text)
                         (fun _ =>
                            Return (List.map
                                      (fun card =>
                                         lookupCard JSON_parse card db
                                           (Page.sortOrder_ c))
                                      (parseCardInput text)))).
  { unfold out, resolve, processBatch, batchLookup.
    now rewrite POST_results by exact Hcards. }
  unfold c', Page.handleProcess. rewrite Hguard.
  unfold reading in Hread. rewrite Hread.
  rewrite (parsed_nonempty_text _ Hcards). cbn [negb].
  assert (Hlen : Nat.eqb (length (parseCardInput text)) 0 = false)
    by (destruct (parseCardInput text); [congruence | reflexivity]).
  rewrite Hlen.
  destruct (Page.batchLookup toLowerCase JSON_parse (Some db)
              (Page.sortOrder_ c) (Page.cache c) (parseCardInput text))
    as [cache' lookup] eqn:E.
  cbn [fst snd] in Hrun, Hc'. subst lookup.
  rewrite <- (map_map (fun card => lookupCard JSON_parse card db
                                     (Page.sortOrder_ c)) Some).
  rewrite processLookup_defined, <- Hout.
  unfold Page.settled.
  cbn [Page.successCards Page.failedCards Page.isProcessing
       Page.processingStatus Page.cache].
  auto.
Qed.

End ProcessFacts.

Lemma handleProcess_without_cards_witness :
  let c := Page.mkComponent (lit "#sideboard") None false [] [] [] false
             oldest (Page.mkSession [] 0 0) [] [] in
  Page.handleProcess toUpperCase_ascii SQL.lower
    Examples.JSON_parse_string_array None c
  = Page.settled c []
      [Failure.mk (lit "Input") (lit "No valid cards found in input")]
      (Page.mkSession [] 0 0) [] [].
Proof.
  cbv zeta.
  apply (handleProcess_without_cards toUpperCase_ascii SQL.lower
           Examples.JSON_parse_string_array None
           (Page.mkComponent (lit "#sideboard") None false [] [] [] false
              oldest (Page.mkSession [] 0 0) [] [])
           (lit "#sideboard")).
  - reflexivity.
  - reflexivity.
  - vm_compute. repeat constructor.
Defined.

Lemma same_text_is_processed_again_witness :
  let c := Page.mkComponent (lit "2 Island") None false [] [] [] false
             oldest (Page.mkSession [] 0 0) [] [] in
  let c1 := Page.handleProcess toUpperCase_ascii SQL.lower
              Examples.JSON_parse_string_array
              (Some (Catalog.database Examples.islands)) c in
  Page.successCards c1 = [lit "2 Island (LEA) 288"]
  /\ Page.hasRun c1 = true
  /\ Page.hasInputChanged c1 = true.
Proof.
  cbv zeta. split; [vm_compute; reflexivity|].
  destruct (same_text_is_processed_again toUpperCase_ascii SQL.lower
              Examples.JSON_parse_string_array
              (Some (Catalog.database Examples.islands))
              (Page.mkComponent (lit "2 Island") None false [] [] [] false
                 oldest (Page.mkSession [] 0 0) [] []))
    as (_ & _ & H3 & _ & H5).
  - reflexivity.
  - reflexivity.
  - vm_compute. discriminate.
  - split; [exact H3 | exact H5].
Defined.

Lemma handleProcess_shows_the_lookup_witness :
  let c := Page.mkComponent (lit "2 island *F* #Land") None false [] [] []
             false newest (Page.mkSession [] 0 0) [] [] in
  let c' := Page.handleProcess toUpperCase_ascii SQL.lower
              Examples.JSON_parse_string_array
              (Some (Catalog.database Examples.islands)) c in
  Page.successCards c' = [lit "2 Island (M12) 234 *F* #Land"]
  /\ Page.failedCards c' = []
  /\ Page.isProcessing c' = false.
Proof.
  cbv zeta.
  destruct (handleProcess_shows_the_lookup toUpperCase_ascii SQL.lower
              Examples.JSON_parse_string_array Examples.islands
              (fun s _ => eq_refl)
              (Page.mkComponent (lit "2 island *F* #Land") None false [] []
                 [] false newest (Page.mkSession [] 0 0) [] [])
              (lit "2 island *F* #Land"))
    as (H1 & H2 & H3 & _).
  - reflexivity.
  - reflexivity.
  - reflexivity.
  - apply coherent_empty.
  - vm_compute. discriminate.
  - rewrite H1, H2. split; [vm_compute; reflexivity|].
    split; [vm_compute; reflexivity | exact H3].
Defined.

(* ================================================================== *)
(** ** The checks of the two handlers *)

(** X17.  The single-card endpoint answers 400 exactly when the [name]
    parameter is missing or blank, with or without a database
    binding. *)
Theorem GET_bad_request
        (JSON_parse : jsstring -> outcome json)
        (nameParam : option jsstring) (env : option D1Database) :
  (exists message, GET JSON_parse nameParam env = CardError 400 message)
  <-> trim (match nameParam with Some v => v | None => [] end) = [].
Proof.
  unfold GET.
  assert (E : trim (match nameParam with
                    | Some v => or_else v []
                    | None => []
                    end)
              = trim (match nameParam with Some v => v | None => [] end))
    by (destruct nameParam; [now rewrite or_else_nil_r | reflexivity]).
  rewrite E. clear E.
  destruct (trim _) as [|ch name] eqn:Hname; cbn [truthy negb].
  - split; [reflexivity | eauto].
  - split; [|discriminate]. intros [message H]. exfalso.
    destruct env as [db|]; [|discriminate].
    destruct (db _) as [[row|]|err]; cbn [bind try_catch] in H;
      try discriminate.
    destruct (db _) as [[row|]|err]; cbn [bind try_catch] in H;
      discriminate.
Qed.

(** X16.  What the batch endpoint answers.  Without database binding it
    answers 500.  With a binding, a body that is not JSON is answered
    400; the JSON body [null] makes the handler throw, because
    [body.sortOrder] is read outside the [try] block; a body whose
    [cards] is not an array, or is an empty one, is answered 400; and
    every other body is answered with one result per card, in the
    order of the request, looked up under the requested order or, when
    the body names none, under ['oldest'].  No other case gives any of
    these answers. *)
Theorem POST_answers
        (JSON_parse : jsstring -> outcome json)
        (env : option D1Database) (body : requestBody) :
  match POST JSON_parse env body with
  | HttpError status _ =>
      (status = 500 /\ env = None)
      \/ (status = 400 /\ env <> None
          /\ (body = NotJson
              \/ (exists requested, body = JsonValue None requested)
              \/ (exists requested, body = JsonValue (Some []) requested)))
  | Uncaught err =>
      env <> None /\ body = JsonNull
      /\ exists message, err = ErrorInstance message
  | Json results =>
      exists db cards requested,
        env = Some db /\ body = JsonValue (Some cards) requested
        /\ cards <> []
        /\ results
           = List.map
               (fun card =>
                  lookupCard JSON_parse card db
                    (match requested with Some o => o | None => oldest end))
               cards
  end.
Proof.
  unfold POST. destruct env as [db|]; [|now left].
  destruct body as [| |[cards|] requested].
  - right. split; [reflexivity|]. split; [discriminate|]. now left.
  - split; [discriminate|]. split; [reflexivity|]. eauto.
  - destruct cards as [|card cards]; cbn [length Nat.eqb].
    + right. split; [reflexivity|]. split; [discriminate|]. right. right.
      eauto.
    + exists db, (card :: cards), requested.
      split; [reflexivity|]. split; [reflexivity|]. split; [discriminate|].
      rewrite POST_loop_map by (cbn [length]; lia). reflexivity.
  - right. split; [reflexivity|]. split; [discriminate|]. right. left.
    eauto.
Qed.

(* ================================================================== *)
(** ** Results that are not there *)

(** X25.  When the array of results holds [undefined], the entries of the
    results before it stay in [success] and [failed], and the [catch]
    block then reports every request of the list as failed, those
    already answered included. *)
Theorem undefined_result_fails_every_request
        (toUpperCase : jsstring -> jsstring)
        (parsedCards : list ParsedInputCard.t)
        (results : list BatchResult.t)
        (rest : list (option BatchResult.t)) :
  let out :=
    Page.processLookup toUpperCase parsedCards
      (Return (List.map Some results ++ None :: rest)) in
  exists reason,
    success out = succeeded_lines (List.map (entry_of toUpperCase) results)
    /\ failed out
       = failed_records (List.map (entry_of toUpperCase) results)
           ++ List.map (fun card =>
                          Failure.mk (ParsedInputCard.name card) reason)
                       parsedCards.
Proof.
  intros out.
  assert (H : forall acc,
             Page.processResults toUpperCase acc
               (List.map Some results ++ None :: rest)
             = (fold_left (processResult toUpperCase) results acc,
                Some (ErrorInstance
                        (lit "Cannot read properties of undefined (reading 'found')")))).
  { induction results as [|r results IH]; intros acc; [reflexivity|].
    cbn [List.map app Page.processResults fold_left]. apply IH. }
  eexists. unfold out, Page.processLookup. rewrite H.
  rewrite fold_processFailure, fold_processResult.
  cbn [success failed app errorReason]. split; reflexivity.
Qed.

(* ================================================================== *)
(** ** The finish that is printed *)



(* ================================================================== *)
(** ** The page without cache *)

(** X26.  The version of the page without cache shows, for a text that
    holds cards, what the pipeline computes under ['oldest']: its
    request names no order and the endpoint then takes that one. *)
Theorem first_page_resolves_oldest
        (toUpperCase : jsstring -> jsstring)
        (JSON_parse : jsstring -> outcome json)
        (env : option D1Database)
        (c : FirstPage.component) (text : jsstring) :
  match FirstPage.inputFile c with
  | Some f => Page.fileText f
  | None => Return (FirstPage.inputText c)
  end = Return text ->
  parseCardInput text <> [] ->
  let c' := FirstPage.handleProcess toUpperCase JSON_parse env c in
  let out :=
    resolve toUpperCase JSON_parse env oldest (parseCardInput text) in
  FirstPage.successCards c' = success out
  /\ FirstPage.failedCards c' = failed out
  /\ FirstPage.isProcessing c' = false
  /\ FirstPage.hasRun c' = true.
Proof.
  intros Hread Hcards c' out.
  unfold c', FirstPage.handleProcess. rewrite Hread.
  rewrite (parsed_nonempty_text _ Hcards). cbn [negb].
  assert (Hlen : Nat.eqb (length (parseCardInput text)) 0 = false)
    by (destruct (parseCardInput text); [congruence | reflexivity]).
  rewrite Hlen. unfold FirstPage.settled.
  cbn [FirstPage.successCards FirstPage.failedCards FirstPage.isProcessing
       FirstPage.hasRun].
  assert (E : processBatch toUpperCase (parseCardInput text)
                (FirstPage.batchLookup JSON_parse env) = out).
  { unfold out, resolve, processBatch, FirstPage.batchLookup, batchLookup.
    destruct env as [db|]; reflexivity. }
  rewrite E. auto.
Qed.

Lemma first_page_resolves_oldest_witness :
  let c := FirstPage.mkComponent (lit "3x island") None false [] [] []
             false in
  let c' := FirstPage.handleProcess toUpperCase_ascii
              Examples.JSON_parse_string_array
              (Some (Catalog.database Examples.islands)) c in
  FirstPage.successCards c' = [lit "3 Island (LEA) 288"]
  /\ FirstPage.failedCards c' = [].
Proof.
  cbv zeta.
  destruct (first_page_resolves_oldest toUpperCase_ascii
              Examples.JSON_parse_string_array
              (Some (Catalog.database Examples.islands))
              (FirstPage.mkComponent (lit "3x island") None false [] [] []
                 false)
              (lit "3x island"))
    as (H1 & H2 & _).
  - reflexivity.
  - vm_compute. discriminate.
  - rewrite H1, H2. split; vm_compute; reflexivity.
Defined.

(* ================================================================== *)
(** ** Pasting the output back *)

Section PastingBack.

Variable toUpperCase : jsstring -> jsstring.
Variable JSON_parse : jsstring -> outcome json.
Variable rows : list Card.t.
Variable order : sortOrder.
Variable input : jsstring.

Hypothesis selected_printable :
  forall request printing default,
    In request (parseCardInput input) ->
    lookupCard JSON_parse request (Catalog.database rows) order
    = BatchResult.mk true request
        (Some (BatchResultCard.mk printing default)) ->
    printable_row toUpperCase printing = true.





End PastingBack.



(* ================================================================== *)
(** ** Names written without set group *)

Lemma closes_before_blank_app a b :
  closes_before_blank b = true -> closes_before_blank (a ++ b) = true.
Proof.
  intros H. induction a as [|c a IH]; [exact H|].
  cbn [app closes_before_blank]. rewrite IH. apply orb_true_r.
Qed.

Lemma closes_before_blank_here a d r :
  is_space d = true ->
  closes_before_blank (a ++ chr ")" :: d :: r) = true.
Proof.
  intros Hd. apply closes_before_blank_app.
  cbn [closes_before_blank]. rewrite Hd. reflexivity.
Qed.

Lemma setRe_reads_group s i o g st' :
  dexec setRe (mkState s i o g) = Some st' ->
  closes_before_blank s = true.
Proof.
  unfold setRe. cbn [dexec rest pos opened group1 after_run advance].
  destruct s as [|w s0]; [discriminate|].
  destruct (is_space w) eqn:Hw; [|discriminate].
  pose proof (takeWhile_dropWhile is_space (w :: s0)) as Hsplit.
  destruct (dropWhile is_space (w :: s0)) as [|a s2] eqn:E1; [discriminate|].
  destruct (is_chr "(" a) eqn:Ha; [|discriminate].
  destruct s2 as [|c s3]; [discriminate|].
  destruct (is_not (is_chr ")") c) eqn:Hc; [|discriminate].
  pose proof (takeWhile_dropWhile (is_not (is_chr ")")) (c :: s3)) as Hsplit2.
  destruct (dropWhile (is_not (is_chr ")")) (c :: s3)) as [|b s4] eqn:E2;
    [discriminate|].
  destruct (is_chr ")" b) eqn:Hb; [|discriminate].
  destruct s4 as [|d s5]; [discriminate|].
  destruct (is_space d) eqn:Hd; [|discriminate].
  intros _. rewrite <- Hsplit, <- Hsplit2.
  unfold is_chr, char_eqb in Hb. apply N.eqb_eq in Hb. subst b.
  change (takeWhile is_space (w :: s0)
            ++ a :: takeWhile (is_not (is_chr ")")) (c :: s3)
            ++ chr ")" :: d :: s5)
    with (takeWhile is_space (w :: s0)
            ++ (a :: takeWhile (is_not (is_chr ")")) (c :: s3))
            ++ chr ")" :: d :: s5).
  rewrite app_assoc. now apply closes_before_blank_here.
Qed.

Lemma setRe_no_match s :
  closes_before_blank s = false -> str_match setRe s = None.
Proof.
  intros H. destruct (str_match setRe s) as [m|] eqn:E; [|reflexivity].
  exfalso. unfold str_match in E.
  apply search_from_split in E as (a & b & -> & E).
  rewrite match_at_dexec in E by exact unambiguous_setRe.
  destruct (dexec setRe _) as [st'|] eqn:D; [|discriminate].
  apply setRe_reads_group in D.
  rewrite (closes_before_blank_app a b D) in H. discriminate.
Qed.

Lemma foilRe_no_match s :
  forallb (is_not (is_chr "*")) s = true -> str_match foilRe s = None.
Proof.
  intros H. destruct (str_match foilRe s) as [m|] eqn:E; [|reflexivity].
  exfalso. unfold str_match in E.
  apply search_from_split in E as (a & b & -> & E).
  rewrite match_at_dexec in E by exact unambiguous_foilRe.
  destruct (dexec foilRe _) as [st'|] eqn:D; [|discriminate].
  apply foilRe_reads_asterisk in D.
  rewrite forallb_app in H. apply andb_true_iff in H as [_ H].
  clear - H D. induction b as [|c b IH]; [discriminate|].
  cbn [existsb forallb] in *. unfold is_not in H at 1.
  apply andb_true_iff in H as [Hc Hb]. apply negb_true_iff in Hc.
  rewrite Hc in D. now apply IH.
Qed.

(** What is left of a simple name once the quantity is off. *)
Lemma simple_name_steps name :
  simple_name name ->
  extractFoil name = ([], name)
  /\ stripSetCode name = name
  /\ truthy (normalizeSlash name) = true.
Proof.
  intros (T & _ & Hstar & Hparen).
  split; [unfold extractFoil; now rewrite foilRe_no_match|].
  split.
  - unfold stripSetCode, replace_first. rewrite setRe_no_match by exact Hparen.
    apply trim_tight; apply T.
  - apply truthy_nonempty, tight_nonempty. now apply normalizeSlash_tight.
Qed.

Lemma simple_name_line name quantity body :
  simple_name name ->
  tight body -> no_hash body -> no_newline body ->
  extractQuantity body = (quantity, name) ->
  parseCardInput body
  = [ParsedInputCard.mk (normalizeSlash name) quantity [] []].
Proof.
  intros Hname T Hhash Hnl Hq.
  destruct (simple_name_steps name Hname) as (Hfoil & Hset & Htruthy).
  rewrite parseCardInput_lines.
  rewrite inputLines_single by (exact Hnl || apply T).
  cbn [flat_map]. rewrite parseLine_steps. cbv zeta.
  rewrite extractTags_plain by exact Hhash. cbn [fst snd].
  rewrite trim_tight by apply T.
  rewrite Hq. cbn [fst snd]. rewrite Hfoil. cbn [fst snd].
  rewrite Hset, Htruthy. reflexivity.
Qed.

Lemma no_prefix_no_quantity s :
  ~ has_quantity_prefix s -> quantity_prefix s = None.
Proof.
  intros H. destruct (quantity_prefix s) as [[digits n]|] eqn:E;
    [|reflexivity].
  exfalso. apply H. now destruct (@quantity_prefix_some s digits n E) as (_ & _ & Hp).
Qed.

(** X6.  A card name on a line of its own, without quantity, is the name
    of the one request the line gives, with quantity 1 and neither
    finish nor tags; only a single slash between blanks is rewritten. *)
Theorem plain_name_is_kept (name : jsstring) :
  simple_name name ->
  ~ has_quantity_prefix name ->
  parseCardInput name
  = [ParsedInputCard.mk (normalizeSlash name) (Int 1) [] []].
Proof.
  intros Hname Hq. pose proof Hname as (T & Hplain & _).
  apply (simple_name_line name (Int 1) name Hname T).
  - now apply plain_no_hash.
  - now apply plain_no_newline.
  - rewrite extractQuantity_spec. now rewrite no_prefix_no_quantity.
Qed.

Lemma quantity_prefix_counted digits x blanks name :
  digits <> [] -> forallb is_digit digits = true ->
  (x = [] \/ x = lit "x" \/ x = lit "X") ->
  blanks <> [] -> forallb is_space blanks = true ->
  starts_tight name ->
  quantity_prefix (digits ++ x ++ blanks ++ name)
  = Some (digits, length digits + length x + length blanks).
Proof.
  intros Hne Hd Hx Hbne Hb Hs. unfold quantity_prefix.
  destruct blanks as [|b bs]; [congruence|].
  pose proof Hb as Hb0. cbn [forallb] in Hb0.
  apply andb_true_iff in Hb0 as [Hb0 _].
  assert (Hhead : match x ++ (b :: bs) ++ name with
                  | [] => True | c :: _ => is_digit c = false end).
  { destruct Hx as [->|[->| ->]]; simpl; [|reflexivity|reflexivity].
    destruct (is_digit b) eqn:E; [|reflexivity].
    apply digit_not_space in E. congruence. }
  rewrite takeWhile_app, dropWhile_app by assumption.
  rewrite takeWhile_stop, dropWhile_stop by assumption.
  rewrite app_nil_r.
  assert (Hopt : opt_x (x ++ (b :: bs) ++ name) = (x, (b :: bs) ++ name)).
  { destruct Hx as [->|[->| ->]]; simpl; [|reflexivity|reflexivity].
    destruct (is_x b) eqn:E; [|reflexivity].
    apply x_not_space in E. congruence. }
  rewrite Hopt.
  rewrite takeWhile_app by exact Hb.
  rewrite takeWhile_stop
    by (destruct name; [exact I | exact Hs]).
  rewrite app_nil_r.
  destruct digits; [congruence | reflexivity].
Qed.

(** X7.  A quantity, an optional [x] and blanks before a card name give
    the one request with that name and the value of the digits as
    quantity, without finish or tags, when the digits denote a safe
    integer. *)
Theorem counted_name_is_kept (digits x blanks name : jsstring) :
  simple_name name ->
  digits <> [] -> forallb is_digit digits = true ->
  (parseInt_digits 0 digits <= MAX_SAFE_INTEGER)%N ->
  (x = [] \/ x = lit "x" \/ x = lit "X") ->
  blanks <> [] -> forallb (fun c => is_space c && plain c) blanks = true ->
  parseCardInput (digits ++ x ++ blanks ++ name)
  = [ParsedInputCard.mk (normalizeSlash name)
       (Int (parseInt_digits 0 digits)) [] []].
Proof.
  intros Hname Hne Hd _ Hx Hbne Hb.
  pose proof Hname as (T & Hplain & _).
  apply forallb_and in Hb as [Hb Hbplain].
  assert (Hxplain : forallb plain x = true)
    by (destruct Hx as [->|[->| ->]]; reflexivity).
  assert (Hall : forallb plain (digits ++ x ++ blanks ++ name) = true).
  { rewrite !forallb_app, (digits_plain digits Hd), Hxplain, Hbplain, Hplain.
    reflexivity. }
  apply (simple_name_line name _ _ Hname).
  - split.
    + destruct digits as [|d ds]; [congruence|]. cbn [app starts_tight].
      cbn [forallb] in Hd. apply andb_true_iff in Hd as [Hd _].
      now apply digit_not_space.
    + do 3 apply ends_tight_app. apply T.
  - now apply plain_no_hash.
  - now apply plain_no_newline.
  - rewrite extractQuantity_spec.
    rewrite (quantity_prefix_counted digits x blanks name)
      by (assumption || apply T).
    rewrite parseInt10_digits by assumption. f_equal.
    replace (length digits + length x + length blanks)
      with (length (digits ++ x ++ blanks))
      by (rewrite !length_app; lia).
    replace (digits ++ x ++ blanks ++ name)
      with ((digits ++ x ++ blanks) ++ name)
      by (now rewrite <- !app_assoc).
    rewrite skipn_length_app. apply trim_tight; apply T.
Qed.

Lemma plain_name_is_kept_witness :
  simple_name (lit "Fire / Ice (APC)")
  /\ parseCardInput (lit "Fire / Ice (APC)")
     = [ParsedInputCard.mk (lit "Fire // Ice (APC)") (Int 1) [] []].
Proof.
  assert (H : simple_name (lit "Fire / Ice (APC)"))
    by (repeat split; reflexivity).
  split; [exact H|].
  rewrite (plain_name_is_kept (lit "Fire / Ice (APC)") H);
    [reflexivity|].
  intros (digits & x & blank & r & Hne & Hd & _ & _ & E).
  destruct digits as [|d ds]; [congruence|].
  cbn [forallb] in Hd. apply andb_true_iff in Hd as [Hd _].
  injection E as <- _. discriminate.
Defined.

Lemma counted_name_is_kept_witness :
  parseCardInput (lit "04X  Serra Angel")
  = [ParsedInputCard.mk (lit "Serra Angel") (Int 4) [] []].
Proof.
  apply (counted_name_is_kept (lit "04") (lit "X") (lit "  ")
           (lit "Serra Angel")).
  - repeat split; reflexivity.
  - discriminate.
  - reflexivity.
  - vm_compute. discriminate.
  - auto.
  - discriminate.
  - reflexivity.
Defined.

(* ================================================================== *)
(** ** Lines in the full format *)

(** X8.  A line in the full format, [<n> <name> (<SET>) <number>] with
    an optional [*F*] or [*E*] and optional tags, parses to the one
    request with that name, quantity, finish and tags, and the set
    group is dropped: for every quantity that is a safe integer, every
    name that is trimmed, in the two-slash form and closes its
    parentheses, every set code without closing parenthesis and every
    collector number of one word that is not a finish marker, none of
    them holding [#] or a line break. *)
Theorem full_format_line_parses
        (n : N) (name setCode number finish : jsstring)
        (tagParts : list jsstring) :
  (n <= MAX_SAFE_INTEGER)%N ->
  tight name -> forallb plain name = true ->
  parens_closed name = true -> normalizeSlash name = name ->
  setCode <> [] ->
  forallb (fun c => plain c && is_not (is_chr ")") c) setCode = true ->
  number <> [] ->
  forallb (fun c => plain c && is_not is_space c) number = true ->
  is_finish_marker number = false ->
  finish = [] \/ finish = lit "F" \/ finish = lit "E" ->
  Forall (fun part => forallb plain part = true) tagParts ->
  parseCardInput
    (rendered n name setCode number finish (tags_of_parts tagParts))
  = [ParsedInputCard.mk name (Int n) finish (tags_of_parts tagParts)].
Proof.
  intros _ [Hs He]. now apply parseCardInput_rendered.
Qed.

Lemma full_format_line_parses_witness :
  rendered 1 (lit "Aetherflux Reservoir") (lit "KHM") (lit "311") (lit "F")
           (tags_of_parts [lit "Combo Piece "; lit "Artifact"])
  = lit "1 Aetherflux Reservoir (KHM) 311 *F* #Combo Piece #Artifact"
  /\ parseCardInput
       (lit "1 Aetherflux Reservoir (KHM) 311 *F* #Combo Piece #Artifact")
     = [ParsedInputCard.mk (lit "Aetherflux Reservoir") (Int 1) (lit "F")
          (lit "#Combo Piece #Artifact")].
Proof.
  split; [reflexivity|].
  apply (full_format_line_parses 1 (lit "Aetherflux Reservoir") (lit "KHM")
           (lit "311") (lit "F") [lit "Combo Piece "; lit "Artifact"]).
  - vm_compute. discriminate.
  - split; reflexivity.
  - reflexivity.
  - reflexivity.
  - reflexivity.
  - discriminate.
  - reflexivity.
  - discriminate.
  - reflexivity.
  - reflexivity.
  - auto.
  - repeat constructor.
Defined.
